(** * viz3 layout engine: a shallow embedding of the core and its properties

  The development follows the C++ sources of the layout engine: value
  types ([Point], [Bounds], [Path]), geometries, the render tree and its
  structural diff, the event server, relative attribute values with their
  topological ordering, the node tree with its templates, and the scale
  feature.  Single precision floats are IEEE-754 binary32 values, modelled
  with the specification floats of the standard library. *)

From Stdlib Require Import ZArith List Bool Lia Ascii String Sorted Permutation Relations.
From Stdlib Require Import Floats.SpecFloat.
From stdpp Require Import base option list gmap strings.

Local Open Scope Z_scope.

(* ===================================================================== *)
(** * Part I: the embedding *)
(* ===================================================================== *)

(** ** [float]: IEEE-754 binary32 *)

Module F32.
Definition prec : Z := 24.
Definition emax : Z := 128.

Definition float : Type := spec_float.

Definition of_Z (z : Z) : float := binary_normalize prec emax z 0 false.
Definition zero : float := S754_zero false.
Definition one : float := Eval cbv in of_Z 1.
Definition hundred : float := Eval cbv in of_Z 100.
Definition inf : float := S754_infinity false.
Definition nan : float := S754_nan.

Definition add (a b : float) : float := SFadd prec emax a b.
Definition sub (a b : float) : float := SFsub prec emax a b.
Definition mul (a b : float) : float := SFmul prec emax a b.
Definition div (a b : float) : float := SFdiv prec emax a b.
Definition abs (a : float) : float := SFabs a.
Definition neg (a : float) : float := SFopp a.

(** The comparison operators of C++ on [float]; every comparison with a
    NaN is false, and [!=] is the negation of [==]. *)
Definition eqb (a b : float) : bool := SFeqb a b.
Definition ltb (a b : float) : bool := SFltb a b.
Definition gtb (a b : float) : bool := SFltb b a.
Definition neqb (a b : float) : bool := negb (eqb a b).

(** [std::isnan], [std::isfinite], [std::isnormal]. *)
Definition isnan (a : float) : bool :=
  match a with S754_nan => true | _ => false end.
Definition isfinite (a : float) : bool :=
  match a with S754_zero _ | S754_finite _ _ _ => true | _ => false end.
Definition isnormal (a : float) : bool :=
  match a with
  | S754_finite _ m _ => Pos.eqb (digits2_pos m) (Z.to_pos prec)
  | _ => false
  end.

(** [std::min(a, b)] and [std::max(a, b)]: the first argument unless the
    comparison selects the second. *)
Definition min (a b : float) : float := if ltb b a then b else a.
Definition max (a b : float) : float := if ltb a b then b else a.
End F32.

Abbreviation float := F32.float.

(** ** [Axis] (value_types.hpp) *)

Inductive Axis : Type := X | Y | Z_.

(** ** [Point] (coords.hpp) *)

Module Point.
Record t : Type := mk { x : float; y : float; z : float }.

(** [Point()] *)
Definition origin : t := mk F32.zero F32.zero F32.zero.

Definition add (p q : t) : t :=
  mk (F32.add (x p) (x q)) (F32.add (y p) (y q)) (F32.add (z p) (z q)).
Definition sub (p q : t) : t :=
  mk (F32.sub (x p) (x q)) (F32.sub (y p) (y q)) (F32.sub (z p) (z q)).
Definition scale (p : t) (factor : float) : t :=
  mk (F32.mul (x p) factor) (F32.mul (y p) factor) (F32.mul (z p) factor).

(** [operator==] and [operator!=] *)
Definition eqb (p q : t) : bool :=
  F32.eqb (x p) (x q) && F32.eqb (y p) (y q) && F32.eqb (z p) (z q).
Definition neqb (p q : t) : bool := negb (eqb p q).

Definition is_nan (p : t) : bool :=
  F32.isnan (x p) || F32.isnan (y p) || F32.isnan (z p).
Definition is_finite (p : t) : bool :=
  F32.isfinite (x p) && F32.isfinite (y p) && F32.isfinite (z p).

Definition get (p : t) (axis : Axis) : float :=
  match axis with X => x p | Y => y p | Z_ => z p end.
End Point.

(** ** [Bounds] (bounds.hpp, bounds.cpp) *)

Module Bounds.
Record t : Type := mk { m_coords : Point.t * Point.t }.

Definition base (b : t) : Point.t := fst (m_coords b).
Definition end_ (b : t) : Point.t := snd (m_coords b).

(** [Bounds()]: both corners at the origin. *)
Definition zero : t := mk (Point.origin, Point.origin).
Definition of_points (base_coord end_coord : Point.t) : t :=
  mk (base_coord, end_coord).
Definition of_lengths (width height depth : float) : t :=
  mk (Point.origin, Point.mk width height depth).

Definition eqb (a b : t) : bool :=
  Point.eqb (base a) (base b) && Point.eqb (end_ a) (end_ b).
Definition neqb (a b : t) : bool := negb (eqb a b).

(** [operator+=(const Bounds&)]: the state of [*this] afterwards. *)
Definition add_assign (this other_bounds : t) : t :=
  if Point.eqb (base this) Point.origin && Point.eqb (end_ this) Point.origin
  then mk (m_coords other_bounds)
  else
    let '(Point.mk base_x base_y base_z) := base this in
    let '(Point.mk base_other_x base_other_y base_other_z) := base other_bounds in
    let base_coord := Point.mk
      (if F32.gtb base_x base_other_x then base_other_x else base_x)
      (if F32.gtb base_y base_other_y then base_other_y else base_y)
      (if F32.gtb base_z base_other_z then base_other_z else base_z) in
    let '(Point.mk end_x end_y end_z) := end_ this in
    let '(Point.mk end_other_x end_other_y end_other_z) := end_ other_bounds in
    let end_coord := Point.mk
      (if F32.gtb end_x end_other_x then end_x else end_other_x)
      (if F32.gtb end_y end_other_y then end_y else end_other_y)
      (if F32.gtb end_z end_other_z then end_z else end_other_z) in
    mk (base_coord, end_coord).

(** [operator+(const Bounds&)] copies [*this] and applies [+=]. *)
Definition add (this other_bounds : t) : t := add_assign this other_bounds.

(** The test of [operator+=] for "no bounds". *)
Definition is_zero (b : t) : bool :=
  Point.eqb (base b) Point.origin && Point.eqb (end_ b) Point.origin.

(** [operator+=(const Point&)], [operator+(const Point&)], [operator*=]. *)
Definition offset (this : t) (offset_pt : Point.t) : t :=
  mk (Point.add (base this) offset_pt, Point.add (end_ this) offset_pt).
Definition scale (this : t) (factor : float) : t :=
  mk (Point.scale (base this) factor, Point.scale (end_ this) factor).

Definition width (b : t) : float :=
  F32.abs (F32.sub (Point.x (end_ b)) (Point.x (base b))).
Definition height (b : t) : float :=
  F32.abs (F32.sub (Point.y (end_ b)) (Point.y (base b))).
Definition depth (b : t) : float :=
  F32.abs (F32.sub (Point.z (end_ b)) (Point.z (base b))).

Definition lengths (b : t) : float * float * float :=
  let diff_coord := Point.sub (end_ b) (base b) in
  (F32.abs (Point.x diff_coord), F32.abs (Point.y diff_coord),
   F32.abs (Point.z diff_coord)).

Definition strip_pos (b : t) : t :=
  let '(x_length, y_length, z_length) := lengths b in
  mk (Point.origin, Point.mk x_length y_length z_length).

Definition center (b : t) : Point.t :=
  let '(width, height, depth) := lengths b in
  let two := F32.of_Z 2 in
  Point.add (base b)
    (Point.mk (F32.div width two) (F32.div height two) (F32.div depth two)).
Definition bottom_left (b : t) : Point.t := base b.

Definition is_nan (b : t) : bool :=
  Point.is_nan (base b) || Point.is_nan (end_ b).
Definition is_finite (b : t) : bool :=
  Point.is_finite (base b) && Point.is_finite (end_ b).

Definition bottom_right (b : t) : Point.t :=
  Point.add (base b) (Point.mk (Point.x (end_ b)) F32.zero F32.zero).

Definition axis_length (b : t) (axis : Axis) : float :=
  match axis with
  | X => width b
  | Y => height b
  | Z_ => depth b
  end.

(** [operator-=(const Point&)] and [operator-(const Point&)] *)
Definition sub_offset (this : t) (offset_pt : Point.t) : t :=
  mk (Point.sub (base this) offset_pt, Point.sub (end_ this) offset_pt).

(** A point lies within the bounds: on no axis is its coordinate less than
    that of the base or greater than that of the end. *)
Definition encloses (b : t) (pt : Point.t) : Prop :=
  forall axis : Axis,
    F32.ltb (Point.get pt axis) (Point.get (base b) axis) = false /\
    F32.gtb (Point.get pt axis) (Point.get (end_ b) axis) = false.
End Bounds.

(** ** Exceptions

    A C++ function that may throw returns [result A]: either its value or
    the exception that left it ([not_a_dag] is the exception of the Boost
    graph library).  Assertions are taken as enabled: a failed [assert] is
    an exception of its own.  So is the exhaustion of the recursion budget
    of the few functions whose recursion is not structural; it is shown
    never to happen for the budget their callers pass. *)

Inductive exception : Type :=
| invalid_argument (what : string)
| runtime_error (what : string)
| out_of_range
| not_a_dag
| assertion_failed
| out_of_fuel.

Inductive result (A : Type) : Type :=
| Ok (a : A)
| Throw (e : exception).
Arguments Ok {A} a.
Arguments Throw {A} e.

#[global] Instance result_ret : MRet result := fun A a => Ok a.
#[global] Instance result_bind : MBind result := fun A B k m =>
  match m with
  | Ok a => k a
  | Throw e => Throw e
  end.

Definition assert (b : bool) : result unit :=
  if b then Ok tt else Throw assertion_failed.

(** ** [color::RGBA] (color.hpp): four [unsigned char] channels *)

Module RGBA.
Record t : Type := mk { r : Z; g : Z; b : Z; a : Z }.

Definition eqb (c d : t) : bool :=
  Z.eqb (r c) (r d) && Z.eqb (g c) (g d) && Z.eqb (b c) (b d) && Z.eqb (a c) (a d).
Definition neqb (c d : t) : bool := negb (eqb c d).

Definition black : t := mk 0 0 0 255.
Definition default_color : t := black.
End RGBA.

(** ** [Rotation] (rotation.hpp, rotation.cpp): a 3x3 matrix of floats *)

Module Rotation.
Record t : Type := mk {
  a00 : float; a01 : float; a02 : float;
  a10 : float; a11 : float; a12 : float;
  a20 : float; a21 : float; a22 : float }.

(** The matrix-vector product of boost::qvm. *)
Definition mat_mul_vec (m : t) (v : Point.t) : Point.t :=
  let '(Point.mk vx vy vz) := v in
  Point.mk
    (F32.add (F32.add (F32.mul (a00 m) vx) (F32.mul (a01 m) vy)) (F32.mul (a02 m) vz))
    (F32.add (F32.add (F32.mul (a10 m) vx) (F32.mul (a11 m) vy)) (F32.mul (a12 m) vz))
    (F32.add (F32.add (F32.mul (a20 m) vx) (F32.mul (a21 m) vy)) (F32.mul (a22 m) vz)).

Definition rotate_coord (this : t) (around_pt pt : Point.t) : Point.t :=
  let translated_pt := Point.sub pt around_pt in
  let rotated_translated_pt := mat_mul_vec this translated_pt in
  Point.add around_pt rotated_translated_pt.
End Rotation.

(** [Bounds::rotate_around] (bounds.cpp) *)
Definition Bounds_rotate_around (this : Bounds.t) (rotation_pt : Point.t)
    (rotation : Rotation.t) : Bounds.t :=
  let calc_base := Rotation.rotate_coord rotation rotation_pt (Bounds.base this) in
  let calc_end := Rotation.rotate_coord rotation rotation_pt (Bounds.end_ this) in
  let min_x := F32.min (Point.x calc_base) (Point.x calc_end) in
  let max_x := F32.max (Point.x calc_base) (Point.x calc_end) in
  let min_y := F32.min (Point.y calc_base) (Point.y calc_end) in
  let max_y := F32.max (Point.y calc_base) (Point.y calc_end) in
  let min_z := F32.min (Point.z calc_base) (Point.z calc_end) in
  let max_z := F32.max (Point.z calc_base) (Point.z calc_end) in
  Bounds.of_points (Point.mk min_x min_y min_z) (Point.mk max_x max_y max_z).

(** ** [Geometry] (geometry.hpp, geometry.cpp) *)

(** [unsigned int]: 32 bits, arithmetic modulo [2^32]. *)
Definition UINT_MODULUS : Z := 2 ^ 32.
Definition to_unsigned_int (z : Z) : Z := z mod UINT_MODULUS.

(** [using Face = std::tuple<unsigned int, unsigned int, unsigned int>] *)
Definition Face : Type := Z * Z * Z.

Module Geometry.
Record t : Type := mk {
  m_vertexes : list Point.t;
  m_triangles : list Face;
  m_bounds : Bounds.t;
  m_pos : Point.t;
  m_color : RGBA.t;
  m_hide_distance : float;
  m_show_distance : float;
  m_text : string }.

(** One iteration of the loop of [compute_bounds]. *)
Definition compute_bounds_step (acc : Point.t * Point.t) (pt : Point.t)
    : Point.t * Point.t :=
  let '(min_pt, max_pt) := acc in
  let min_pt := Point.mk
    (if F32.ltb (Point.x pt) (Point.x min_pt) then Point.x pt else Point.x min_pt)
    (if F32.ltb (Point.y pt) (Point.y min_pt) then Point.y pt else Point.y min_pt)
    (if F32.ltb (Point.z pt) (Point.z min_pt) then Point.z pt else Point.z min_pt) in
  let max_pt := Point.mk
    (if F32.gtb (Point.x pt) (Point.x max_pt) then Point.x pt else Point.x max_pt)
    (if F32.gtb (Point.y pt) (Point.y max_pt) then Point.y pt else Point.y max_pt)
    (if F32.gtb (Point.z pt) (Point.z max_pt) then Point.z pt else Point.z max_pt) in
  (min_pt, max_pt).

Definition compute_bounds (vertexes : list Point.t) : Bounds.t :=
  match vertexes with
  | [] => Bounds.zero
  | _ =>
    let inf := F32.inf in
    let min_pt := Point.mk inf inf inf in
    let max_pt := Point.mk (F32.neg inf) (F32.neg inf) (F32.neg inf) in
    Bounds.mk (fold_left compute_bounds_step vertexes (min_pt, max_pt))
  end.

(** The constructor: the bounds are computed from the vertexes. *)
Definition make (vertexes : list Point.t) (triangles : list Face) (pos : Point.t)
    (color : RGBA.t) (hide_distance show_distance : float) (text : string) : t :=
  mk vertexes triangles (compute_bounds vertexes) pos color
     hide_distance show_distance text.

(** [Geometry::empty(pos, bounds)] with the default color and no text. *)
Definition empty (pos : Point.t) (bounds : Bounds.t) : t :=
  let geometry := make [] [] pos RGBA.default_color F32.zero F32.inf "" in
  mk (m_vertexes geometry) (m_triangles geometry) bounds (m_pos geometry)
     (m_color geometry) (m_hide_distance geometry) (m_show_distance geometry)
     (m_text geometry).

Definition should_draw (this : t) : bool :=
  match m_vertexes this with [] => false | _ => true end.

Definition positioned_bounds (this : t) : Bounds.t :=
  let pos_bounds := m_bounds this in
  Bounds.of_points (Point.add (Bounds.base pos_bounds) (m_pos this))
                   (Point.add (Bounds.end_ pos_bounds) (m_pos this)).

Definition offset_pos (this : t) (offset : Point.t) : t :=
  mk (m_vertexes this) (m_triangles this) (m_bounds this)
     (Point.add (m_pos this) offset) (m_color this)
     (m_hide_distance this) (m_show_distance this) (m_text this).

Definition set_hide_distance (this : t) (new_hide_distance : float) : t :=
  mk (m_vertexes this) (m_triangles this) (m_bounds this) (m_pos this)
     (m_color this) new_hide_distance (m_show_distance this) (m_text this).
Definition set_show_distance (this : t) (new_show_distance : float) : t :=
  mk (m_vertexes this) (m_triangles this) (m_bounds this) (m_pos this)
     (m_color this) (m_hide_distance this) new_show_distance (m_text this).

Definition scale_by (this : t) (factor : float) : t :=
  mk (map (fun vertex => Point.scale vertex factor) (m_vertexes this))
     (m_triangles this)
     (Bounds.scale (m_bounds this) factor)
     (Point.scale (m_pos this) factor)
     (m_color this)
     (F32.mul (m_hide_distance this) factor)
     (F32.mul (m_show_distance this) factor)
     (m_text this).

Definition rotate_around (this : t) (rotation_pt : Point.t)
    (new_rotation : Rotation.t) : t :=
  mk (map (Rotation.rotate_coord new_rotation rotation_pt) (m_vertexes this))
     (m_triangles this)
     (Bounds_rotate_around (m_bounds this) rotation_pt new_rotation)
     (Rotation.rotate_coord new_rotation rotation_pt (m_pos this))
     (m_color this) (m_hide_distance this) (m_show_distance this) (m_text this).

(** [combine_with]: the index arithmetic is done in [size_t] and the
    results are stored back into [unsigned int] tuple fields. *)
Definition combine_with (this other : t) : t :=
  let new_pos :=
    Bounds.base (Bounds.add (positioned_bounds this) (positioned_bounds other)) in
  let offset_pos := Point.sub (m_pos this) new_pos in
  let other_offset_pos := Point.sub (m_pos other) new_pos in
  let vertexes_size := Z.of_nat (length (m_vertexes this)) in
  let new_vertexes :=
    map (fun vertex => Point.add vertex offset_pos) (m_vertexes this) ++
    map (fun other_vertex => Point.add other_vertex other_offset_pos)
        (m_vertexes other) in
  let new_triangles :=
    m_triangles this ++
    map (fun other_triangle : Face =>
           let '(i0, i1, i2) := other_triangle in
           (to_unsigned_int (i0 + vertexes_size),
            to_unsigned_int (i1 + vertexes_size),
            to_unsigned_int (i2 + vertexes_size)))
        (m_triangles other) in
  make new_vertexes new_triangles new_pos (m_color this)
       (m_hide_distance this) (m_show_distance this) (m_text this).

(** Every index of every triangle designates a vertex. *)
Definition face_in_range (n : Z) (f : Face) : Prop :=
  let '(i0, i1, i2) := f in
  (0 <= i0 < n) /\ (0 <= i1 < n) /\ (0 <= i2 < n).
Definition triangles_in_range (this : t) : Prop :=
  Forall (face_in_range (Z.of_nat (length (m_vertexes this)))) (m_triangles this).
End Geometry.

(** ** [Path] (path.hpp, path.cpp) *)

(** [std::string::find(ch, pos)] *)
Fixpoint string_find (ch : ascii) (s : string) (pos : nat) : option nat :=
  match s with
  | EmptyString => None
  | String c s' =>
    match pos with
    | O => if Ascii.eqb c ch then Some O else option_map S (string_find ch s' O)
    | S pos' => option_map S (string_find ch s' pos')
    end
  end.

(** [std::string::substr(pos, len)] and [substr(pos)] for [pos <= size()]. *)
Definition string_substr (s : string) (pos len : nat) : string :=
  String.substring pos len s.
Definition string_substr_from (s : string) (pos : nat) : string :=
  String.substring pos (String.length s - pos) s.

Definition string_empty (s : string) : bool :=
  match s with EmptyString => true | _ => false end.

(** [operator<] and [operator>] of [std::string]: lexicographic on the
    character codes. *)
Definition string_lt (a b : string) : bool :=
  match String.compare a b with Lt => true | _ => false end.
Definition string_gt (a b : string) : bool := string_lt b a.

Module Path.
Record t : Type := mk { m_parts : list string }.

#[global] Instance eq_dec : EqDecision t.
Proof. solve_decision. Defined.

(** The character class [[a-zA-Z0-9:_-]] of [valid_path_part_pattern]. *)
Definition is_part_char (c : ascii) : bool :=
  let n := nat_of_ascii c in
  ((97 <=? n) && (n <=? 122) || (65 <=? n) && (n <=? 90) ||
   (48 <=? n) && (n <=? 57) || (n =? 58) || (n =? 95) || (n =? 45))%nat.

Fixpoint all_part_chars (s : string) : bool :=
  match s with
  | EmptyString => true
  | String c s' => is_part_char c && all_part_chars s'
  end.

(** [std::regex_match(part, "^[a-zA-Z0-9:_-]+$")]: the whole part is a
    non-empty run of characters of the class. *)
Definition is_valid_path_part (part : string) : bool :=
  negb (string_empty part) && all_part_chars part.

Definition valid_path_part_pattern : string := "^[a-zA-Z0-9:_-]+$".

Definition throw_invalid_part_exception {A : Type} (part : string) : result A :=
  Throw (invalid_argument
    ("Part given in path is not a valid path part: '" ++ part ++
     "'. A valid part must match: " ++ valid_path_part_pattern)).

(** The [while] loop of [Path::Path(const std::string&)]; every iteration
    moves [prev_pos] past one more dot. *)
Fixpoint of_string_loop (fuel : nat) (dot_string : string) (prev_pos : nat)
    (parts : list string) : result (nat * list string) :=
  match fuel with
  | O => Throw out_of_fuel
  | S fuel' =>
    match string_find "." dot_string prev_pos with
    | Some pos =>
      let part := string_substr dot_string prev_pos (pos - prev_pos) in
      if string_empty part then
        Throw (invalid_argument ("Path given has '..' within it: " ++ dot_string))
      else if negb (is_valid_path_part part) then
        throw_invalid_part_exception part
      else of_string_loop fuel' dot_string (pos + 1) (parts ++ [part])
    | None => Ok (prev_pos, parts)
    end
  end.

(** [explicit Path(const std::string& dot_string)] *)
Definition of_string (dot_string : string) : result t :=
  if string_empty dot_string || String.eqb dot_string "." then Ok (mk [])
  else
    let prev_pos :=
      match String.get 0 dot_string with
      | Some "."%char => 1%nat
      | _ => 0%nat
      end in
    '(prev_pos, parts) ← of_string_loop (S (String.length dot_string))
                           dot_string prev_pos [];
    let part := string_substr_from dot_string prev_pos in
    if negb (is_valid_path_part part) then throw_invalid_part_exception part
    else Ok (mk (parts ++ [part])).

(** [Path(std::vector<std::string> parts)] and
    [Path(std::initializer_list<std::string> parts)]: the parts are stored. *)
Definition of_parts (parts : list string) : t := mk parts.

Definition size (this : t) : nat := length (m_parts this).
Definition empty (this : t) : bool :=
  match m_parts this with [] => true | _ => false end.

(** [operator+(const std::string& part)] *)
Definition append (this : t) (part : string) : t := mk (m_parts this ++ [part]).

Definition without_last (this : t) : t := mk (removelast (m_parts this)).

(** [operator<<] and [string()]: the dot form, ["."] for the empty path. *)
Fixpoint dotted (parts : list string) : string :=
  match parts with
  | [] => ""
  | part :: parts' => "." +:+ part +:+ dotted parts'
  end.
Definition to_dot_string (this : t) : string :=
  if empty this then "." else dotted (m_parts this).

(** The [for] loop of [comparison], on paths of the same size. *)
Fixpoint comparison_parts (ours others : list string) : Z :=
  match ours, others with
  | p :: ours', q :: others' =>
    if string_gt p q then 1
    else if string_lt p q then -1
    else comparison_parts ours' others'
  | _, _ => 0
  end.

Definition comparison (this other : t) : Z :=
  let our_size := size this in
  let other_size := size other in
  if (other_size <? our_size)%nat then 1
  else if (our_size <? other_size)%nat then -1
  else comparison_parts (m_parts this) (m_parts other).

Definition ltb (this other : t) : bool := comparison this other <? 0.
Definition eqb (this other : t) : bool := comparison this other =? 0.

(** [std::equal(other.begin(), other.end(), this.begin())] once the sizes
    have been compared. *)
Fixpoint starts_with (ours others : list string) : bool :=
  match others, ours with
  | [] , _ => true
  | q :: others', p :: ours' => String.eqb q p && starts_with ours' others'
  | _ :: _, [] => false
  end.

Definition is_descendant_of (this other : t) (or_are_same : bool) : bool :=
  let candidate_size := size other in
  let our_size := size this in
  if (our_size <? candidate_size)%nat then false
  else if negb or_are_same && (candidate_size =? our_size)%nat then false
  else starts_with (m_parts this) (m_parts other).

Definition is_child_of (this other : t) : bool :=
  (size this =? size other + 1)%nat && is_descendant_of this other false.

(** [first()] and [last()]: the empty string for the empty path. *)
Definition first (this : t) : string :=
  if empty this then "" else nth 0 (m_parts this) "".
Definition last (this : t) : string :=
  if empty this then "" else nth (size this - 1) (m_parts this) "".

Definition without_first (this : t) : t :=
  if empty this then mk [] else mk (drop 1 (m_parts this)).

Definition is_leaf (this : t) : bool := (size this <=? 1)%nat.

(** [operator+(const Path& other)] *)
Definition append_path (this other : t) : t := mk (m_parts this ++ m_parts other).

(** [std::mismatch] over the parts of two paths: the position, in the first,
    of the first part that differs or has no counterpart. *)
Fixpoint mismatch (ours others : list string) : nat :=
  match ours, others with
  | p :: ours', q :: others' =>
    if String.eqb p q then S (mismatch ours' others') else 0
  | _, _ => 0
  end.

(** [after_common_ancestor]: the iterator, as a position in [m_parts]. *)
Definition after_common_ancestor (this other : t) : nat :=
  mismatch (m_parts this) (m_parts other).

Definition without_common_ancestor (this other : t) : t :=
  mk (drop (after_common_ancestor this other) (m_parts this)).

Definition common_ancestor_with (this other : t) : t :=
  mk (take (after_common_ancestor this other) (m_parts this)).

Definition child_of_common_ancestor_with (this other : t) : t :=
  let common_part_it := after_common_ancestor this other in
  let common_part_it :=
    if negb (common_part_it =? size this)%nat then S common_part_it
    else common_part_it in
  mk (take common_part_it (m_parts this)).

(** [std::find(begin, end, part)]: the position of the first occurrence of
    [part], or the size of the list. *)
Fixpoint find_part (parts : list string) (part : string) : nat :=
  match parts with
  | [] => 0
  | p :: parts' => if String.eqb p part then 0 else S (find_part parts' part)
  end.

Definition common_descendant (this other : t) : nat :=
  if empty other then 0%nat else find_part (m_parts this) (first other).

Definition join_after_common_descendant (this other : t) : t :=
  mk (take (common_descendant this other) (m_parts this) ++ m_parts other).

(** The [while] loop of [ancestor_paths]; every iteration drops one part. *)
Fixpoint ancestor_paths_loop (fuel : nat) (curr_path : t) (paths : list t)
    : result (list t) :=
  match fuel with
  | O => Throw out_of_fuel
  | S fuel' =>
    if negb (empty curr_path)
    then ancestor_paths_loop fuel' (without_last curr_path) (paths ++ [curr_path])
    else Ok paths
  end.

Definition ancestor_paths (this : t) (including_self : bool) : result (list t) :=
  let paths := [] in
  let curr_path := this in
  let paths := if including_self then paths ++ [curr_path] else paths in
  let curr_path := without_last curr_path in
  ancestor_paths_loop (S (size this)) curr_path paths.

(** The [while] loop of [paths_between]. *)
Fixpoint paths_between_loop (fuel : nat) (path curr_path : t)
    (intermediate_paths : list t) : result (list t) :=
  match fuel with
  | O => Throw out_of_fuel
  | S fuel' =>
    if negb (is_descendant_of path curr_path true)
    then paths_between_loop fuel' path (without_last curr_path)
           (intermediate_paths ++ [curr_path])
    else Ok intermediate_paths
  end.

Definition paths_between (this path : t) (including_self : bool) : result (list t) :=
  let intermediate_paths := [] in
  let curr_path := this in
  let intermediate_paths :=
    if including_self then intermediate_paths ++ [curr_path]
    else intermediate_paths in
  if empty this then Ok intermediate_paths
  else
    let curr_path := without_last curr_path in
    paths_between_loop (S (size this)) path curr_path intermediate_paths.
End Path.

(** Every part matches the part regex. *)
Definition valid_parts (parts : list string) : Prop :=
  Forall (fun part => Path.is_valid_path_part part = true) parts.

(** No part holds the separator. *)
Definition dotless_parts (parts : list string) : Prop :=
  Forall (fun part => string_find "." part 0 = None) parts.

(** The loop of the constructor followed by the check of the last part. *)
Definition of_string_from (fuel : nat) (dot_string : string) (prev_pos : nat)
    (parts : list string) : result Path.t :=
  '(prev_pos, parts) ← Path.of_string_loop fuel dot_string prev_pos parts;
  let part := string_substr_from dot_string prev_pos in
  if negb (Path.is_valid_path_part part) then Path.throw_invalid_part_exception part
  else Ok (Path.mk (parts ++ [part])).

(** ** [RenderTree] (render.hpp, render.cpp) *)

Inductive RenderDifferences : Type :=
| FirstMissing | SecondMissing | Pos | Bounds_ | Color | Text.

#[global] Instance RenderDifferences_eq_dec : EqDecision RenderDifferences.
Proof. solve_decision. Defined.

(** The paths a diff reports with a given tag, in the order of the report. *)
Definition paths_reported (tag : RenderDifferences)
    (differences : list (Path.t * RenderDifferences)) : list Path.t :=
  map fst (List.filter (fun difference => bool_decide (snd difference = tag))
                       differences).

(** [std::map<Path, Geometry>]: the entries in the order of the keys.  Two
    keys are equivalent when neither is less than the other. *)
Module PathMap.
Definition t : Type := list (Path.t * Geometry.t).

Fixpoint find (m : t) (path : Path.t) : option Geometry.t :=
  match m with
  | [] => None
  | (key, geometry) :: m' =>
    if Path.ltb path key || Path.ltb key path then find m' path
    else Some geometry
  end.

Definition count (m : t) (path : Path.t) : nat :=
  match find m path with Some _ => 1 | None => 0 end.

(** [at]: throws [std::out_of_range] for a missing key. *)
Definition at_ (m : t) (path : Path.t) : result Geometry.t :=
  match find m path with Some geometry => Ok geometry | None => Throw out_of_range end.

Fixpoint insert_or_assign (m : t) (path : Path.t) (geometry : Geometry.t) : t :=
  match m with
  | [] => [(path, geometry)]
  | (key, old) :: m' =>
    if Path.ltb path key then (path, geometry) :: (key, old) :: m'
    else if Path.ltb key path then (key, old) :: insert_or_assign m' path geometry
    else (key, geometry) :: m'
  end.

Definition keys (m : t) : list Path.t := map fst m.

(** The keys of a [std::map] are strictly increasing. *)
Definition sorted (m : t) : Prop :=
  StronglySorted (fun p q => Path.ltb p q = true) (keys m).
End PathMap.

Section Monadic.
Context {A B : Type}.

Section FoldM.
Variable f : B -> A -> result B.
Fixpoint foldM (l : list A) (init : B) : result B :=
  match l with
  | [] => Ok init
  | a :: l' => b ← f init a; foldM l' b
  end.
End FoldM.

Section MapM.
Variable f : A -> result B.
Fixpoint mapM (l : list A) : result (list B) :=
  match l with
  | [] => Ok []
  | a :: l' => b ← f a; bs ← mapM l'; Ok (b :: bs)
  end.
End MapM.
End Monadic.

Module RenderTree.
Record t : Type := mk {
  m_insertion_order : list Path.t;
  m_rendered : PathMap.t }.

(** [RenderTree()] *)
Definition empty : t := mk [] [].

Definition needs_updating (this : t) (path : Path.t) : bool :=
  (PathMap.count (m_rendered this) path =? 0)%nat.

Definition update (this : t) (path : Path.t) (geometry : Geometry.t) : t :=
  let insertion_order :=
    if (PathMap.count (m_rendered this) path =? 0)%nat
    then m_insertion_order this ++ [path]
    else m_insertion_order this in
  mk insertion_order (PathMap.insert_or_assign (m_rendered this) path geometry).

Definition get (this : t) (path : Path.t) : option Geometry.t :=
  if (PathMap.count (m_rendered this) path <? 1)%nat then None
  else PathMap.find (m_rendered this) path.

Definition positioned_bounds_of (this : t) (path : Path.t) : Bounds.t :=
  let maybe_bounds :=
    fold_left
      (fun (maybe_bounds : option Bounds.t) (path_and_child : Path.t * Geometry.t) =>
         if Path.is_descendant_of (fst path_and_child) path true then
           match maybe_bounds with
           | Some bounds =>
             Some (Bounds.add_assign bounds
                     (Geometry.positioned_bounds (snd path_and_child)))
           | None => Some (Geometry.positioned_bounds (snd path_and_child))
           end
         else maybe_bounds)
      (m_rendered this) None in
  match maybe_bounds with Some bounds => bounds | None => Bounds.zero end.

(** The geometry comparisons of the diff for a path present in both trees. *)
Definition field_differences (first_path : Path.t)
    (first_geometry last_geometry : Geometry.t)
    : list (Path.t * RenderDifferences) :=
  (if Point.neqb (Geometry.m_pos first_geometry) (Geometry.m_pos last_geometry)
   then [(first_path, Pos)] else []) ++
  (if Bounds.neqb (Geometry.m_bounds first_geometry) (Geometry.m_bounds last_geometry)
   then [(first_path, Bounds_)] else []) ++
  (if RGBA.neqb (Geometry.m_color first_geometry) (Geometry.m_color last_geometry)
   then [(first_path, Color)] else []) ++
  (if negb (String.eqb (Geometry.m_text first_geometry) (Geometry.m_text last_geometry))
   then [(first_path, Text)] else []).

(** The three loops of [differences_from] over the two iterators; the
    returned list is what is appended to [differences]. *)
Fixpoint differences_loop (first : PathMap.t) : PathMap.t ->
    list (Path.t * RenderDifferences) :=
  fix against (last : PathMap.t) : list (Path.t * RenderDifferences) :=
    match first, last with
    | (first_path, first_geometry) :: first', (last_path, last_geometry) :: last' =>
      if Path.ltb first_path last_path then
        (first_path, SecondMissing) :: differences_loop first' last
      else if Path.ltb last_path first_path then
        (last_path, FirstMissing) :: against last'
      else
        field_differences first_path first_geometry last_geometry ++
        differences_loop first' last'
    | _ :: _, [] => map (fun entry => (fst entry, SecondMissing)) first
    | [], _ => map (fun entry => (fst entry, FirstMissing)) last
    end.

Definition differences_from (this other_render_tree : t)
    : list (Path.t * RenderDifferences) :=
  differences_loop (m_rendered this) (m_rendered other_render_tree).

Definition num_children_of (this : t) (path : Path.t) : nat :=
  length (List.filter (fun our_path => Path.is_child_of our_path path)
                      (m_insertion_order this)).

Definition children_of (this : t) (path : Path.t)
    : result (list (Path.t * Geometry.t)) :=
  mapM (fun our_path =>
          geometry ← PathMap.at_ (m_rendered this) our_path;
          Ok (our_path, geometry))
       (List.filter (fun our_path => Path.is_child_of our_path path)
                    (m_insertion_order this)).

Definition descendants_of (this : t) (path : Path.t) (including : bool)
    : result (list (Path.t * Geometry.t)) :=
  mapM (fun our_path =>
          geometry ← PathMap.at_ (m_rendered this) our_path;
          Ok (our_path, geometry))
       (List.filter (fun our_path => Path.is_descendant_of our_path path including)
                    (m_insertion_order this)).

(** [m_rendered.at(path).offset_pos(by_pos)] *)
Fixpoint offset_at (m : PathMap.t) (path : Path.t) (by_pos : Point.t) : PathMap.t :=
  match m with
  | [] => []
  | (key, geometry) :: m' =>
    if Path.ltb path key || Path.ltb key path
    then (key, geometry) :: offset_at m' path by_pos
    else (key, Geometry.offset_pos geometry by_pos) :: m'
  end.

Definition move_parent_and_descendants_by_impl (this : t) (path : Path.t)
    (by_pos : Point.t) (excluding_subdescendants_of : option Path.t)
    (excluding_parent : bool) : t :=
  let rendered :=
    if negb excluding_parent && (0 <? PathMap.count (m_rendered this) path)%nat
    then offset_at (m_rendered this) path by_pos
    else m_rendered this in
  let rendered :=
    map (fun rendered_path_and_geometry : Path.t * Geometry.t =>
           let '(rendered_path, rendered_geometry) := rendered_path_and_geometry in
           if Path.is_descendant_of rendered_path path false &&
              match excluding_subdescendants_of with
              | None => true
              | Some excluding => negb (Path.is_descendant_of rendered_path excluding true)
              end
           then (rendered_path, Geometry.offset_pos rendered_geometry by_pos)
           else (rendered_path, rendered_geometry))
        rendered in
  mk (m_insertion_order this) rendered.

Definition move_parent_and_descendants_by_excluding (this : t) (path : Path.t)
    (by_pos : Point.t) (excluding : Path.t) : t :=
  move_parent_and_descendants_by_impl this path by_pos (Some excluding) false.

Definition move_parent_and_descendants_by (this : t) (path : Path.t)
    (by_pos : Point.t) : t :=
  move_parent_and_descendants_by_impl this path by_pos None false.

Definition move_descendants_by (this : t) (path : Path.t) (by_pos : Point.t) : t :=
  move_parent_and_descendants_by_impl this path by_pos None true.

Definition scale_parent_and_descendants_by (this : t) (path : Path.t)
    (factor : float) : result t :=
  descendants ← descendants_of this path true;
  Ok (fold_left
        (fun (this : t) (descendant : Path.t * Geometry.t) =>
           let '(descendant_path, descendant_geometry) := descendant in
           update this descendant_path (Geometry.scale_by descendant_geometry factor))
        descendants this).

Fixpoint rotate_children_of (fuel : nat) (this : t) (path : Path.t)
    (rotation_pt : Point.t) (rotation : Rotation.t) : result t :=
  match fuel with
  | O => Throw out_of_fuel
  | S fuel' =>
    children_paths_and_geometries ← children_of this path;
    this ← foldM
      (fun (this : t) (child : Path.t * Geometry.t) =>
         rotate_children_of fuel' this (fst child) rotation_pt rotation)
      children_paths_and_geometries this;
    match get this path with
    | Some geometry =>
      Ok (update this path (Geometry.rotate_around geometry rotation_pt rotation))
    | None => Ok this
    end
  end.

(** The recursion of [rotate_children_of] descends one path part per call
    and only through paths of the tree. *)
Definition rotation_depth (this : t) : nat :=
  S (list_max (map Path.size (m_insertion_order this))).

Definition rotate_parent_and_descendants_in_place (this : t) (path : Path.t)
    (rotation : Rotation.t) : result t :=
  let pos_bounds := positioned_bounds_of this path in
  let old_left_corner_pt := Bounds.bottom_left pos_bounds in
  let rotation_pt := Bounds.center pos_bounds in
  this ← rotate_children_of (rotation_depth this) this path rotation_pt rotation;
  let new_left_corner_pt := Bounds.bottom_left (positioned_bounds_of this path) in
  let offset_from_rotation := Point.sub old_left_corner_pt new_left_corner_pt in
  Ok (move_parent_and_descendants_by this path offset_from_rotation).

Definition invalidate_parent_and_child_pos (this : t) (path : Path.t) : t :=
  mk [] [].

(** The mutating operations of the render tree. *)
Inductive operation : Type :=
| OpUpdate (path : Path.t) (geometry : Geometry.t)
| OpMove (path : Path.t) (by_pos : Point.t)
| OpMoveExcluding (path : Path.t) (by_pos : Point.t) (excluding : Path.t)
| OpMoveDescendants (path : Path.t) (by_pos : Point.t)
| OpScale (path : Path.t) (factor : float)
| OpRotate (path : Path.t) (rotation : Rotation.t)
| OpInvalidate (path : Path.t).

Definition apply (this : t) (op : operation) : result t :=
  match op with
  | OpUpdate path geometry => Ok (update this path geometry)
  | OpMove path by_pos => Ok (move_parent_and_descendants_by this path by_pos)
  | OpMoveExcluding path by_pos excluding =>
    Ok (move_parent_and_descendants_by_excluding this path by_pos excluding)
  | OpMoveDescendants path by_pos => Ok (move_descendants_by this path by_pos)
  | OpScale path factor => scale_parent_and_descendants_by this path factor
  | OpRotate path rotation => rotate_parent_and_descendants_in_place this path rotation
  | OpInvalidate path => Ok (invalidate_parent_and_child_pos this path)
  end.

Definition run (this : t) (ops : list operation) : result t := foldM apply ops this.

(** The insertion order lists the keys of the map, each once. *)
Definition consistent (this : t) : Prop :=
  NoDup (m_insertion_order this) /\
  forall path, In path (m_insertion_order this) <-> In path (PathMap.keys (m_rendered this)).
End RenderTree.

(** ** [EventServer] (event.hpp, event.cpp)

    Every public operation runs under [m_event_mutex], so an execution of
    the server is a sequence of whole operations on its state. *)

Inductive EventType : Type := Add | Remove | Move | Resize | Recolor | Retext.

Record Event : Type := mkEvent {
  event_path : Path.t;
  event_geometry : Geometry.t;
  event_type : EventType }.

Inductive EventFilter : Type := ReceiveAll | SkipNonDrawable.

Module EventServer.
(** [using ListenerToken = unsigned int] *)
Definition ListenerToken : Type := Z.
Definition EventIndex : Type := nat.

Record ListenerPosition : Type := mkPos {
  filter : EventFilter;
  index : EventIndex }.

Record t : Type := mk {
  m_events : list Event;
  m_listener_pos : gmap Z ListenerPosition;
  m_token_counter : ListenerToken }.

(** [EventServer::construct()] *)
Definition construct : t := mk [] ∅ 0.

(** [request_listener]: the token handed to the new listener and the state
    of the server; [emplace] leaves an existing entry as it is. *)
Definition request_listener (this : t) (filter : EventFilter) : ListenerToken * t :=
  let token := m_token_counter this in
  let pos := mkPos filter 0%nat in
  let listener_pos :=
    match m_listener_pos this !! token with
    | Some _ => m_listener_pos this
    | None => <[token := pos]> (m_listener_pos this)
    end in
  (token, mk (m_events this) listener_pos (to_unsigned_int (token + 1))).

Definition release_listener (this : t) (token : ListenerToken) : t :=
  match m_listener_pos this !! token with
  | Some _ => mk (m_events this) (delete token (m_listener_pos this))
                 (m_token_counter this)
  | None => this
  end.

Definition add_event (this : t) (event : Event) : t :=
  mk (m_events this ++ [event]) (m_listener_pos this) (m_token_counter this).

(** The loop of [index_of_next_event] over the events from [index] on. *)
Fixpoint skip_filtered (filter : EventFilter) (events_from_index : list Event)
    (index : EventIndex) : EventIndex :=
  match events_from_index with
  | [] => index
  | event :: rest =>
    let event_is_drawable := Geometry.should_draw (event_geometry event) in
    match filter with
    | SkipNonDrawable =>
      if negb event_is_drawable then skip_filtered filter rest (S index) else index
    | ReceiveAll => index
    end
  end.

Definition index_of_next_event (this : t) (pos : ListenerPosition) : EventIndex :=
  skip_filtered (filter pos) (drop (index pos) (m_events this)) (index pos).

(** [m_listener_pos.at(token)] *)
Definition listener_at (this : t) (token : ListenerToken) : result ListenerPosition :=
  match m_listener_pos this !! token with
  | Some pos => Ok pos
  | None => Throw out_of_range
  end.

Definition event_available (this : t) (token : ListenerToken) : result bool :=
  pos ← listener_at this token;
  let index := index_of_next_event this pos in
  Ok (index <? length (m_events this))%nat.

Definition pop_event (this : t) (token : ListenerToken) : result (Event * t) :=
  pos ← listener_at this token;
  let event_index := index_of_next_event this pos in
  match m_events this !! event_index with
  | None => Throw out_of_range
  | Some event =>
    Ok (event,
        mk (m_events this)
           (<[token := mkPos (filter pos) (event_index + 1)%nat]> (m_listener_pos this))
           (m_token_counter this))
  end.

Definition try_pop_event (this : t) (token : ListenerToken)
    : result (option Event * t) :=
  available ← event_available this token;
  if negb available then Ok (None, this)
  else '(event, this) ← pop_event this token; Ok (Some event, this).

(** [wait_for_event] returns once [event_available] holds, with the event
    popped; [None] stands for a caller that is still blocked. *)
Definition wait_for_event (this : t) (token : ListenerToken)
    : result (option Event * t) :=
  available ← event_available this token;
  if negb available then Ok (None, this)
  else '(event, this) ← pop_event this token; Ok (Some event, this).

(** The index in [m_events] of the event the next pop of [token] returns. *)
Definition next_index (this : t) (token : ListenerToken) : option EventIndex :=
  match m_listener_pos this !! token with
  | Some pos => Some (index_of_next_event this pos)
  | None => None
  end.

(** The cursor of a listener: the index its next pop starts from. *)
Definition cursor (this : t) (token : ListenerToken) : EventIndex :=
  match m_listener_pos this !! token with
  | Some pos => index pos
  | None => 0%nat
  end.

(** An interleaving of producers and listeners. *)
Inductive operation : Type :=
| OpAddEvent (event : Event)
| OpTryPop (token : ListenerToken)
| OpWait (token : ListenerToken).

(** A delivery: the listener, the index of the event in append order, and
    the event. *)
Definition delivery : Type := ListenerToken * EventIndex * Event.

Definition step (this : t) (op : operation) : list delivery * t :=
  match op with
  | OpAddEvent event => ([], add_event this event)
  | OpTryPop token =>
    match try_pop_event this token with
    | Ok (Some event, this') =>
      ([(token, default 0%nat (next_index this token), event)], this')
    | Ok (None, this') => ([], this')
    | Throw _ => ([], this)
    end
  | OpWait token =>
    match wait_for_event this token with
    | Ok (Some event, this') =>
      ([(token, default 0%nat (next_index this token), event)], this')
    | Ok (None, this') => ([], this')
    | Throw _ => ([], this)
    end
  end.

Fixpoint run (this : t) (ops : list operation) : list delivery * t :=
  match ops with
  | [] => ([], this)
  | op :: ops' =>
    let '(ds, this') := step this op in
    let '(ds', this'') := run this' ops' in
    (ds ++ ds', this'')
  end.

(** The indices delivered to one listener, in the order of its pops. *)
Definition indices_of (token : ListenerToken) (ds : list delivery) : list EventIndex :=
  map (fun d : delivery => snd (fst d))
      (List.filter (fun d : delivery => Z.eqb (fst (fst d)) token) ds).

(** The events [index_of_next_event] stops at for a filter: every event, or
    the events whose geometry is drawn. *)
Definition passes (filter : EventFilter) (event : Event) : bool :=
  match filter with
  | ReceiveAll => true
  | SkipNonDrawable => Geometry.should_draw (event_geometry event)
  end.

(** The events a listener at [pos] has still to receive. *)
Definition pending (this : t) (pos : ListenerPosition) : list Event :=
  List.filter (passes (filter pos)) (drop (index pos) (m_events this)).

(** Every token in use was handed out: it is below the token counter. *)
Definition tokens_below_counter (this : t) : Prop :=
  (0 <= m_token_counter this < UINT_MODULUS) /\
  forall (token : ListenerToken) (pos : ListenerPosition),
    m_listener_pos this !! token = Some pos -> 0 <= token < m_token_counter this.
End EventServer.

(** What one pop does to the cursor of a listener [token]: either nothing is
    delivered to it and its cursor does not move back, or one event is, from
    an index at or after the cursor, and the cursor moves past that index. *)
Definition cursor_step (token : EventServer.ListenerToken) (this this' : EventServer.t)
    (ds : list EventServer.delivery) : Prop :=
  (EventServer.indices_of token ds = [] /\
   (EventServer.cursor this token <= EventServer.cursor this' token)%nat) \/
  (exists i, EventServer.indices_of token ds = [i] /\
             (EventServer.cursor this token <= i)%nat /\
             EventServer.cursor this' token = S i).

(** Every delivery carries the event stored at its index. *)
Definition delivered_from (this : EventServer.t) (ds : list EventServer.delivery) : Prop :=
  Forall (fun d : EventServer.delivery =>
            EventServer.m_events this !! snd (fst d) = Some (snd d)) ds.

(** ** Attribute values (value.hpp, value.cpp) *)

Inductive Alignment : Type := Left | Center | Right.

(** [::tolower] in the C locale, and [std::transform] with it over a
    string. *)
Definition tolower (c : ascii) : ascii :=
  let n := nat_of_ascii c in
  if (65 <=? n)%nat && (n <=? 90)%nat then ascii_of_nat (n + 32) else c.

Fixpoint string_tolower (s : string) : string :=
  match s with
  | EmptyString => EmptyString
  | String c s' => String (tolower c) (string_tolower s')
  end.

(** [axis_string], [string_to_axis] and [opposite_axis] (value_types.cpp) *)
Definition axis_string (axis : Axis) : string :=
  match axis with X => "x" | Y => "y" | Z_ => "z" end.

Definition string_to_axis (string : string) : result Axis :=
  let str := string_tolower string in
  if String.eqb str "x" then Ok X
  else if String.eqb str "y" then Ok Y
  else if String.eqb str "z" then Ok Z_
  else Throw (invalid_argument "Axis given is not X, y, nor z!").

Definition opposite_axis (axis : Axis) : Axis :=
  match axis with X => Z_ | Y => X | Z_ => X end.

(** [alignment_string] and [string_to_alignment] (value_types.cpp) *)
Definition alignment_string (align : Alignment) : string :=
  match align with Left => "left" | Center => "center" | Right => "right" end.

Definition string_to_alignment (string : string) : result Alignment :=
  let str := string_tolower string in
  if String.eqb str "left" then Ok Left
  else if String.eqb str "center" then Ok Center
  else if String.eqb str "right" then Ok Right
  else Throw (invalid_argument "Alignment given is not left, center, or right!").

(** [UnitInterval]: a float clamped to [[0, 1]] by [std::clamp]. *)
Definition UnitInterval (value : float) : float :=
  if F32.ltb value F32.zero then F32.zero
  else if F32.ltb F32.one value then F32.one
  else value.

Record TypedValue (T : Type) : Type := mkValue {
  m_value_name : string;
  m_abbreviation : string;
  m_value : T;
  m_defaulted : bool }.
Arguments mkValue {T} _ _ _ _.
Arguments m_value_name {T} _.
Arguments m_abbreviation {T} _.
Arguments m_value {T} _.
Arguments m_defaulted {T} _.

Definition FloatValue : Type := TypedValue float.

(** The [std::variant] stored in the ancestor values. *)
Inductive AnyValue : Type :=
| AFloatValue (v : FloatValue)
| AUnitIntervalValue (v : TypedValue float)
| ABoolValue (v : TypedValue bool)
| AIntValue (v : TypedValue Z)
| AStringValue (v : TypedValue string)
| AColorValue (v : TypedValue RGBA.t)
| ARotationValue (v : TypedValue Rotation.t)
| AAxisValue (v : TypedValue Axis)
| AAlignmentValue (v : TypedValue Alignment).

Module AncestorValues.
(** [std::map<std::string, std::variant<...>>]: the entries in key order. *)
Definition t : Type := list (string * AnyValue).

Definition empty : t := [].

Fixpoint insert_or_assign (m : t) (name : string) (value : AnyValue) : t :=
  match m with
  | [] => [(name, value)]
  | (key, old) :: m' =>
    if string_lt name key then (name, value) :: (key, old) :: m'
    else if string_lt key name then (key, old) :: insert_or_assign m' name value
    else (key, value) :: m'
  end.

(** [update(const FloatValue&)] through [update_impl] *)
Definition update (this : t) (value : FloatValue) : result t :=
  assert (negb (m_defaulted value));;
  let name := m_value_name value in
  Ok (insert_or_assign this name (AFloatValue value)).

(** [get<float, ValueType::Float, FloatValue>(name)] *)
Fixpoint get_float (this : t) (name : string) : result float :=
  match this with
  | [] =>
    Throw (runtime_error
      ("Requested relative value " ++ name ++ " of type " ++ "float" ++
       " could not be found in ancestor values (missing ancestor or incompatible type)!"))
  | (value_name, value_variant) :: rest =>
    match value_variant with
    | AFloatValue value_wrapper =>
      if String.eqb (m_value_name value_wrapper) name ||
         String.eqb (m_abbreviation value_wrapper) name
      then Ok (m_value value_wrapper)
      else get_float rest name
    | _ => get_float rest name
    end
  end.
End AncestorValues.

(** [RelativeFloatValue = RelativeFloatTypeValue<float>] *)
Module RelativeFloatValue.
Record t : Type := mk {
  base : FloatValue;
  m_multiplier : float;
  m_is_percentage : bool;
  m_relative_name : option string }.

Definition name (this : t) : string := m_value_name (base this).
Definition abbreviation (this : t) : string := m_abbreviation (base this).
Definition value (this : t) : float := m_value (base this).
Definition is_defaulted (this : t) : bool := m_defaulted (base this).

(** The constructor without multiplier: multiplier 1, not a percentage, not
    relative. *)
Definition make (name abbreviation : string) (value : float) (is_default : bool) : t :=
  mk (mkValue name abbreviation value is_default) F32.one false None.

Definition is_relative (this : t) : bool :=
  match m_relative_name this with Some _ => true | None => false end.

Definition relative_name (this : t) : result string :=
  match m_relative_name this with
  | Some relative => Ok relative
  | None => Throw assertion_failed
  end.

Definition compute_relative_value (this : t) (known_values : AncestorValues.t)
    : result float :=
  val ←
    (if negb (is_relative this) then
       Ok (if m_is_percentage this then m_multiplier this
           else F32.mul (value this) (m_multiplier this))
     else
       relative ← relative_name this;
       known ← AncestorValues.get_float known_values relative;
       Ok (F32.mul known (m_multiplier this)));
  if m_is_percentage this then
    ancestor_value ← AncestorValues.get_float known_values (name this);
    Ok (F32.mul ancestor_value (F32.div val F32.hundred))
  else Ok val.

Definition update_computed_value (this : t) (value : float) : t :=
  mk (mkValue (name this) (abbreviation this) value (is_defaulted this))
     (m_multiplier this) (m_is_percentage this) (m_relative_name this).

(** [update_ancestor_values]: the value afterwards and the ancestor values. *)
Definition update_ancestor_values (this : t) (ancestor_values : AncestorValues.t)
    : result (t * AncestorValues.t) :=
  computed_value ← compute_relative_value this ancestor_values;
  let this := update_computed_value this computed_value in
  if is_defaulted this then Ok (this, ancestor_values)
  else
    let non_relative_float_value :=
      mkValue (name this) (abbreviation this) computed_value false in
    ancestor_values ← AncestorValues.update ancestor_values non_relative_float_value;
    Ok (this, ancestor_values).

(** [set_value]: the value is set and no longer defaulted, and the value
    is no percentage and has the multiplier 1. *)
Definition set_value (this : t) (value : float) : t :=
  mk (mkValue (name this) (abbreviation this) value false)
     F32.one false (m_relative_name this).

Definition set_relative_name (this : t) (relative_name : string) : t :=
  mk (base this) (m_multiplier this) (m_is_percentage this) (Some relative_name).

(** [parse_relative_name]: the view without its first [start_index] and its
    last [from_end_index] characters. *)
Definition parse_relative_name (attribute_value : string)
    (start_index from_end_index : nat) : string :=
  String.substring start_index
    (String.length attribute_value - start_index - from_end_index) attribute_value.

(** [std::isdigit] on a character of the string. *)
Definition isdigit (c : ascii) : bool :=
  let n := nat_of_ascii c in (48 <=? n)%nat && (n <=? 57)%nat.

Section UpdateFromAttributeValue.
(** [std::stof(str, &next_index)] of the standard library: the number read
    and the count of the characters read, or the exception thrown. *)
Variable stof : string -> result (float * nat).

Definition parse_multiplier (attribute_value : string) : result (nat * float) :=
  '(multiplier, next_index) ← stof attribute_value;
  Ok (next_index, multiplier).

Definition update_from_attribute_value (this : t) (attribute_value : string)
    : result t :=
  if string_empty attribute_value then Ok this
  else
    let multiplier := F32.one in
    let attribute_value_size := String.length attribute_value in
    '(is_percentage, from_end_index) ←
      (if bool_decide (String.get (attribute_value_size - 1) attribute_value =
                       Some "%"%char)
       then
         if (attribute_value_size =? 1)%nat then
           Throw (runtime_error ("Percentage given without amount: " +:+ attribute_value))
         else Ok (true, 1%nat)
       else Ok (false, 0%nat));
    let first := default "000"%char (String.get 0 attribute_value) in
    '(next_index, multiplier) ←
      (if isdigit first || bool_decide (first = "+"%char) ||
          bool_decide (first = "-"%char)
       then parse_multiplier attribute_value
       else Ok (0%nat, multiplier));
    if (next_index + from_end_index <? attribute_value_size)%nat then
      let relative := parse_relative_name attribute_value next_index from_end_index in
      let this := set_relative_name this relative in
      Ok (mk (mkValue (name this) (abbreviation this) (value this) false)
             multiplier is_percentage (m_relative_name this))
    else if negb is_percentage then
      let maybe_value := multiplier in
      let multiplier := m_multiplier this in
      let this := mk (mkValue (name this) (abbreviation this) (value this) false)
                     multiplier is_percentage (m_relative_name this) in
      Ok (set_value this maybe_value)
    else
      Ok (mk (mkValue (name this) (abbreviation this) (value this) false)
             multiplier is_percentage (m_relative_name this)).
End UpdateFromAttributeValue.
End RelativeFloatValue.

(** ** Topological order of the attributes (value.cpp) *)

Definition resolve_alias (name : string) (aliases : gmap string string) : string :=
  let resolved_name := name in
  match aliases !! resolved_name with
  | Some alias => alias
  | None => resolved_name
  end.

(** [boost::adjacency_list<listS, vecS, directedS, int>]: the vertices are
    [0 .. n-1] and every vertex has the list of the targets of its out-edges,
    in the order of the calls of [add_edge]. *)
Module Graph.
Abbreviation t := (list (list nat)).

Definition empty : t := [].
Definition num_vertices (g : t) : nat := length g.
Definition add_vertex (g : t) : t := g ++ [[]].
Definition add_edge (u v : nat) (g : t) : t := alter (fun targets => targets ++ [v]) u g.
Definition out_edges (g : t) (u : nat) : list nat := default [] (g !! u).
Definition vertices (g : t) : list nat := seq 0 (num_vertices g).

Definition edge (g : t) (u v : nat) : Prop := In v (out_edges g u).

(** Every edge leads to a vertex of the graph. *)
Definition wf (g : t) : Prop := forall u v, edge g u v -> (v < num_vertices g)%nat.

(** A cycle: a vertex that reaches itself through one edge or more. *)
Definition cyclic (g : t) : Prop := exists x, Relation_Operators.clos_trans nat (edge g) x x.
End Graph.

(** [x] occurs at an earlier position of [l] than [y]. *)
Definition before {A : Type} (x y : A) (l : list A) : Prop :=
  exists i j, l !! i = Some x /\ l !! j = Some y /\ (i < j)%nat.

(** [boost::topological_sort(graph, std::front_inserter(order))]: a depth
    first search over all vertices; a back edge throws [not_a_dag] and a
    finished vertex is put at the front of [order]. *)
Module TopologicalSort.
Inductive color : Type := White | Gray | Black.

Record state : Type := mk {
  colors : gmap nat color;
  order : list nat }.

(** Every vertex is white initially. *)
Definition init : state := mk ∅ [].
Definition color_of (st : state) (v : nat) : color := default White (colors st !! v).
Definition put_color (st : state) (v : nat) (c : color) : state :=
  mk (<[v := c]> (colors st)) (order st).
Definition finish_vertex (st : state) (u : nat) : state :=
  mk (<[u := Black]> (colors st)) (u :: order st).

(** The state of a search of a graph with [n] vertices: the black vertices
    are the vertices of [order], none of them twice, every edge from one of
    them leads to a later vertex of [order], and only vertices of the graph
    are colored. *)
Definition inv (g : Graph.t) (st : state) : Prop :=
  (forall v, color_of st v = Black <-> In v (order st)) /\
  NoDup (order st) /\
  (forall u v, In u (order st) -> Graph.edge g u v -> before u v (order st)) /\
  (forall v c, colors st !! v = Some c ->
               (v < Graph.num_vertices g)%nat /\ c <> White).

(** What a completed visit does to the state: vertices are put in front of
    [order], the gray vertices stay the gray vertices, and no colored vertex
    is forgotten. *)
Definition post (g : Graph.t) (st st' : state) : Prop :=
  inv g st' /\
  (exists finished, order st' = finished ++ order st) /\
  (forall v, color_of st' v = Gray <-> color_of st v = Gray) /\
  (size (colors st) <= size (colors st'))%nat.

(** The outcome of a visit, or of a loop over vertices, started in [st]:
    the vertices of [blackened] are black afterwards, or the graph has a
    cycle and [not_a_dag] is thrown. *)
Definition outcome (g : Graph.t) (st : state) (blackened : list nat)
    (r : result state) : Prop :=
  match r with
  | Ok st' =>
    post g st st' /\
    forall v, In v blackened -> color_of st' v = Black
  | Throw e => e = not_a_dag /\ Graph.cyclic g
  end.

Section Visit.
Variable g : Graph.t.

Fixpoint depth_first_visit (fuel : nat) (st : state) (u : nat) : result state :=
  match fuel with
  | O => Throw out_of_fuel
  | S fuel' =>
    let st := put_color st u Gray in
    st ← foldM
      (fun (st : state) (v : nat) =>
         match color_of st v with
         | White => depth_first_visit fuel' st v
         | Gray => Throw not_a_dag
         | Black => Ok st
         end)
      (Graph.out_edges g u) st;
    Ok (finish_vertex st u)
  end.

Definition depth_first_search (fuel : nat) : result state :=
  foldM
    (fun (st : state) (u : nat) =>
       match color_of st u with
       | White => depth_first_visit fuel st u
       | _ => Ok st
       end)
    (Graph.vertices g) init.

(** No path of tree edges is longer than the number of vertices. *)
Definition topological_sort : result (list nat) :=
  st ← depth_first_search (S (Graph.num_vertices g));
  Ok (order st).
End Visit.
End TopologicalSort.

(** [std::map<std::string, std::optional<std::string>>], in key order. *)
Definition Dependencies : Type := list (string * option string).

(** [boost::bimap<int, std::string>]: the pairs in insertion order. *)
Definition Indexes : Type := list (nat * string).

Fixpoint indexes_right_find (indexes : Indexes) (name : string) : option nat :=
  match indexes with
  | [] => None
  | (index, key) :: rest =>
    if String.eqb key name then Some index else indexes_right_find rest name
  end.

Fixpoint indexes_left_find (indexes : Indexes) (index : nat) : option string :=
  match indexes with
  | [] => None
  | (key, name) :: rest =>
    if Nat.eqb key index then Some name else indexes_left_find rest index
  end.

Fixpoint dependencies_find (dependencies : Dependencies) (name : string)
    : option (string * option string) :=
  match dependencies with
  | [] => None
  | (key, maybe_dep) :: rest =>
    if String.eqb key name then Some (key, maybe_dep)
    else dependencies_find rest name
  end.

Record sort_state : Type := mkSort {
  sort_i : nat;
  sort_indexes : Indexes;
  sort_graph : Graph.t }.

(** [indexes.right.find(name)], adding a vertex for a name seen for the
    first time: the index of the name and the state. *)
Definition index_of_name (st : sort_state) (name : string) : nat * sort_state :=
  match indexes_right_find (sort_indexes st) name with
  | None =>
    let name_index := sort_i st in
    (name_index,
     mkSort (sort_i st + 1)%nat
            (sort_indexes st ++ [(name_index, name)])
            (Graph.add_vertex (sort_graph st)))
  | Some index => (index, st)
  end.

(** The body of the first loop of [topological_sort_with_aliases]. *)
Definition add_dependency (aliases : gmap string string) (st : sort_state)
    (entry : string * option string) : sort_state :=
  let '(name, maybe_dep) := entry in
  let resolved_dep :=
    match maybe_dep with
    | Some dep => Some (resolve_alias dep aliases)
    | None => None
    end in
  let '(name_index, st) := index_of_name st name in
  match resolved_dep with
  | Some dep =>
    let '(dep_index, st) := index_of_name st dep in
    mkSort (sort_i st) (sort_indexes st)
           (Graph.add_edge dep_index name_index (sort_graph st))
  | None => st
  end.

(** The alias-resolved dependency relation: [name] depends on [resolved]. *)
Definition depends_on (dependencies : Dependencies) (aliases : gmap string string)
    (name resolved : string) : Prop :=
  exists dep, In (name, Some dep) dependencies /\ resolve_alias dep aliases = resolved.

Definition dependency_cycle (dependencies : Dependencies)
    (aliases : gmap string string) : Prop :=
  exists name, clos_trans string (depends_on dependencies aliases) name name.

(** The names of the vertices, by index. *)
Definition sort_names (st : sort_state) : list string := map snd (sort_indexes st).

(** The state of the first loop after the entries [processed]: the indexes
    are handed out consecutively, no name has two indexes, the graph has a
    vertex per index and an edge from the resolved dependency to the name
    for every processed entry with a dependency, and no other edge. *)
Definition built (aliases : gmap string string) (processed : Dependencies)
    (st : sort_state) : Prop :=
  sort_i st = length (sort_indexes st) /\
  map fst (sort_indexes st) = seq 0 (sort_i st) /\
  NoDup (sort_names st) /\
  Graph.num_vertices (sort_graph st) = sort_i st /\
  (forall u v, Graph.edge (sort_graph st) u v <->
     exists name resolved,
       depends_on processed aliases name resolved /\
       sort_names st !! u = Some resolved /\ sort_names st !! v = Some name) /\
  (forall name maybe_dep, In (name, maybe_dep) processed -> In name (sort_names st)) /\
  (forall name resolved, depends_on processed aliases name resolved ->
     In resolved (sort_names st)).

(** The name of a vertex, and whether a name is a key of the dependencies. *)
Definition name_at (names : list string) (index : nat) : string :=
  default "" (names !! index).
Definition is_key (dependencies : Dependencies) (name : string) : bool :=
  match dependencies_find dependencies name with Some _ => true | None => false end.

Definition cycle_error (dependencies : Dependencies) : string :=
  fold_left
    (fun (error : string) (entry : string * option string) =>
       let '(name, maybe_dep) := entry in
       let error := error +:+ ("{ " +:+ name) in
       let error :=
         match maybe_dep with
         | Some dep => error +:+ (" -> " +:+ dep)
         | None => error
         end in
       error +:+ " } ")
    dependencies "Attributes given form a cycle: ".

Definition topological_sort_with_aliases (dependencies : Dependencies)
    (aliases : gmap string string) : result (list string) :=
  let st := fold_left (add_dependency aliases) dependencies (mkSort 0 [] Graph.empty) in
  order ←
    match TopologicalSort.topological_sort (sort_graph st) with
    | Throw not_a_dag => Throw (runtime_error (cycle_error dependencies))
    | other => other
    end;
  foldM
    (fun (new_ordered_names : list string) (index : nat) =>
       match indexes_left_find (sort_indexes st) index with
       | None => Throw assertion_failed
       | Some name =>
         match dependencies_find dependencies name with
         | None => Ok new_ordered_names
         | Some values_it => Ok (new_ordered_names ++ [fst values_it])
         end
       end)
    order [].

(** ** [Node] (node.hpp, node.cpp) *)

(** The element classes; a node only names and clones its element. *)
Inductive ElementKind : Type :=
| NopElement | BoxElement | PlaneElement | SphereElement | CylinderElement
| NoLayoutElement | GridElement | ScaleElement | HideShowElement
| RotateElement | JuxtaposeElement | PaddingElement | StreetElement.

Record AbstractElement : Type := mkElement {
  m_name : string;
  m_kind : ElementKind }.

Definition element_clone (element : AbstractElement) : AbstractElement :=
  mkElement (m_name element) (m_kind element).
Definition element_set_name (element : AbstractElement) (name : string)
    : AbstractElement :=
  mkElement name (m_kind element).

(** A node owns its templates and children.  The parent pointer is kept as
    the path of the parent ([None] is the null pointer of the root), and
    the render tree shared by all nodes is threaded through the member
    functions. *)
#[local] Unset Elimination Schemes.
Inductive Node : Type :=
| mkNode (m_parent : option Path.t)
         (m_element : AbstractElement)
         (m_template_insertion_indexes : list nat)
         (m_templates : list Node)
         (m_children : list Node).
#[local] Set Elimination Schemes.

Module NodeOps.
Definition m_parent (this : Node) : option Path.t :=
  let '(mkNode parent _ _ _ _) := this in parent.
Definition m_element (this : Node) : AbstractElement :=
  let '(mkNode _ element _ _ _) := this in element.
Definition m_template_insertion_indexes (this : Node) : list nat :=
  let '(mkNode _ _ indexes _ _) := this in indexes.
Definition m_templates (this : Node) : list Node :=
  let '(mkNode _ _ _ templates _) := this in templates.
Definition m_children (this : Node) : list Node :=
  let '(mkNode _ _ _ _ children) := this in children.

Definition get_name (this : Node) : string := m_name (m_element this).
Definition is_root (this : Node) : bool :=
  match m_parent this with None => true | Some _ => false end.
Definition path (this : Node) : Path.t :=
  match m_parent this with
  | None => Path.mk []
  | Some parent_path => Path.append parent_path (get_name this)
  end.

(** [Node::construct(element, parent, render_tree)] *)
Definition construct (element : AbstractElement) (parent : option Path.t) : Node :=
  mkNode parent element [] [] [].
(** [RootNode::construct(render_tree)] *)
Definition construct_root : Node := construct (mkElement "" NopElement) None.

Definition children_names (this : Node) : list string :=
  map get_name (m_children this).
Definition template_names (this : Node) : list string :=
  map get_name (m_templates this).

Fixpoint try_get_by_name (nodes : list Node) (with_name : string) : option Node :=
  match nodes with
  | [] => None
  | node :: rest =>
    if String.eqb (get_name node) with_name then Some node
    else try_get_by_name rest with_name
  end.
Definition try_get_template (this : Node) (with_name : string) : option Node :=
  try_get_by_name (m_templates this) with_name.
Definition try_get_child (this : Node) (with_name : string) : option Node :=
  try_get_by_name (m_children this) with_name.

Fixpoint insertion_index_loop (templates : list Node) (indexes : list nat)
    (with_name : string) : result nat :=
  match templates with
  | [] => Throw assertion_failed
  | template_node :: templates' =>
    if String.eqb (get_name template_node) with_name then
      match indexes with
      | index :: _ => Ok index
      | [] => Throw out_of_range
      end
    else insertion_index_loop templates' (tl indexes) with_name
  end.
Definition compute_child_insertion_index (this : Node) (with_name : string)
    : result nat :=
  insertion_index_loop (m_templates this) (m_template_insertion_indexes this) with_name.

(** [m_children.insert(m_children.begin() + insertion_index, node)] *)
Definition vector_insert (nodes : list Node) (insertion_index : nat) (node : Node)
    : list Node :=
  take insertion_index nodes ++ node :: drop insertion_index nodes.

(** [add_child(node, maybe_insertion_index)]; equality of node pointers is
    equality of the paths of the nodes. *)
Definition add_child (this : Node) (render_tree : RenderTree.t) (node : Node)
    (maybe_insertion_index : option nat) : result (Node * RenderTree.t) :=
  assert (forallb (fun child_node =>
            negb (String.eqb (get_name child_node) (get_name node)))
          (m_children this));;
  assert (bool_decide (m_parent node = Some (path this)));;
  assert (forallb (fun child_node =>
            bool_decide (m_parent child_node = Some (path node)))
          (m_children node));;
  '(indexes, children) ←
    match maybe_insertion_index with
    | Some insertion_index =>
      assert (insertion_index <=? length (m_children this))%nat;;
      Ok (map (fun template_insertion_index =>
                 if (insertion_index <=? template_insertion_index)%nat
                 then (template_insertion_index + 1)%nat
                 else template_insertion_index)
              (m_template_insertion_indexes this),
          vector_insert (m_children this) insertion_index node)
    | None => Ok (m_template_insertion_indexes this, m_children this ++ [node])
    end;
  let this := mkNode (m_parent this) (m_element this) indexes (m_templates this)
                     children in
  Ok (this, RenderTree.invalidate_parent_and_child_pos render_tree (path this)).

(** [add_template]: the new template is a node just allocated, so it
    differs from every stored one. *)
Definition add_template (this : Node) (template_node : Node) : Node :=
  mkNode (m_parent this) (m_element this)
         (m_template_insertion_indexes this ++ [length (m_children this)])
         (m_templates this ++ [template_node])
         (m_children this).

Definition set_name (this : Node) (new_name : string) : Node :=
  mkNode (m_parent this) (element_set_name (m_element this) new_name)
         (m_template_insertion_indexes this) (m_templates this) (m_children this).

Definition set_parent (this : Node) (render_tree : RenderTree.t)
    (new_parent : option Path.t) : Node * RenderTree.t :=
  let render_tree :=
    RenderTree.invalidate_parent_and_child_pos render_tree
      (Path.without_last (path this)) in
  (mkNode new_parent (m_element this) (m_template_insertion_indexes this)
          (m_templates this) (m_children this),
   render_tree).

(** [clone_into_parent] with [copy_children_from_node] inlined, as the two
    functions call each other. *)
Fixpoint clone_into_parent (this : Node) (render_tree : RenderTree.t)
    (new_name : string) (new_parent : option Path.t)
    : result (Node * RenderTree.t) :=
  let new_node := mkNode (m_parent this) (element_clone (m_element this)) [] [] [] in
  let new_node := set_name new_node new_name in
  let '(new_node, render_tree) := set_parent new_node render_tree new_parent in
  '(new_node, render_tree) ← foldM
    (fun (acc : Node * RenderTree.t) (child_node : Node) =>
       let '(new_node, render_tree) := acc in
       '(cloned, render_tree) ←
         clone_into_parent child_node render_tree (get_name child_node)
                           (Some (path new_node));
       add_child new_node render_tree cloned None)
    (m_children this) (new_node, render_tree);
  '(new_node, render_tree) ← foldM
    (fun (acc : Node * RenderTree.t) (template_node : Node) =>
       let '(new_node, render_tree) := acc in
       '(cloned, render_tree) ←
         clone_into_parent template_node render_tree (get_name template_node)
                           (Some (path new_node));
       Ok (add_template new_node cloned, render_tree))
    (m_templates this) (new_node, render_tree);
  Ok (mkNode (m_parent new_node) (m_element new_node)
             (m_template_insertion_indexes this)
             (m_templates new_node) (m_children new_node),
      render_tree).

Definition construct_child (this : Node) (render_tree : RenderTree.t)
    (element : AbstractElement) : result (Node * RenderTree.t) :=
  let node := construct element (Some (path this)) in
  add_child this render_tree node None.

Definition construct_template (this : Node) (element : AbstractElement) : Node :=
  let node := construct element (Some (path this)) in
  add_template this node.

Definition try_make_template (this : Node) (render_tree : RenderTree.t)
    (template_name new_name : string) : result (Node * RenderTree.t) :=
  match try_get_template this template_name with
  | None =>
    Throw (invalid_argument ("Could not find template with name " ++ template_name))
  | Some template =>
    '(constructed_child, render_tree) ←
      clone_into_parent template render_tree new_name (Some (path this));
    insertion_index ← compute_child_insertion_index this template_name;
    add_child this render_tree constructed_child (Some insertion_index)
  end.

(** The template scenario on the node [this]: add a template [t] holding a
    box, construct the children [a] and [c], then make [b] from the
    template. *)
Definition template_scenario (this : Node) (render_tree : RenderTree.t)
    (kind_a kind_c : ElementKind) : result (Node * RenderTree.t) :=
  let this := construct_template this (mkElement "t" BoxElement) in
  '(this, render_tree) ← construct_child this render_tree (mkElement "a" kind_a);
  '(this, render_tree) ← construct_child this render_tree (mkElement "c" kind_c);
  try_make_template this render_tree "t" "b".

(** The insertion indexes recorded for the templates: one for every
    template, none past the end of the children. *)
Definition indexes_in_range (this : Node) : Prop :=
  length (m_template_insertion_indexes this) = length (m_templates this) /\
  Forall (fun index => (index <= length (m_children this))%nat)
         (m_template_insertion_indexes this).

(** No node of the tree, templates included, has two children of one name. *)
#[local] Unset Elimination Schemes.
Inductive names_distinct : Node -> Prop :=
| names_distinct_node (parent : option Path.t) (element : AbstractElement)
    (indexes : list nat) (templates children : list Node) :
    NoDup (map get_name children) ->
    Forall names_distinct templates ->
    Forall names_distinct children ->
    names_distinct (mkNode parent element indexes templates children).
#[local] Set Elimination Schemes.

(** The copy of a node under a new name and a new parent: the kinds, the
    names below the node, the templates and the insertion indexes of the
    node, with every parent set to the copy of the parent. *)
Fixpoint copy_of (this : Node) (new_name : string) (new_parent : option Path.t)
    : Node :=
  match this with
  | mkNode _ element indexes templates children =>
    let new_element := mkElement new_name (m_kind element) in
    let new_path :=
      match new_parent with
      | None => Path.mk []
      | Some parent_path => Path.append parent_path new_name
      end in
    mkNode new_parent new_element indexes
      (map (fun template_node =>
              copy_of template_node (m_name (m_element template_node)) (Some new_path))
           templates)
      (map (fun child_node =>
              copy_of child_node (m_name (m_element child_node)) (Some new_path))
           children)
  end.
End NodeOps.

(** ** [ScaleFeatureSet] (feature.hpp, feature.cpp) *)

Record SizeFeature : Type := mkSize {
  m_width : RelativeFloatValue.t;
  m_height : RelativeFloatValue.t;
  m_depth : RelativeFloatValue.t }.

Record AxisFeature : Type := mkAxis { m_axis : TypedValue Axis }.

Module ScaleFeatureSet.
Record t : Type := mk {
  size_feature : SizeFeature;
  axis_feature : AxisFeature }.

Definition width (this : t) : float :=
  RelativeFloatValue.value (m_width (size_feature this)).
Definition height (this : t) : float :=
  RelativeFloatValue.value (m_height (size_feature this)).
Definition depth (this : t) : float :=
  RelativeFloatValue.value (m_depth (size_feature this)).
Definition width_is_defaulted (this : t) : bool :=
  RelativeFloatValue.is_defaulted (m_width (size_feature this)).
Definition height_is_defaulted (this : t) : bool :=
  RelativeFloatValue.is_defaulted (m_height (size_feature this)).
Definition depth_is_defaulted (this : t) : bool :=
  RelativeFloatValue.is_defaulted (m_depth (size_feature this)).
Definition lengths (this : t) : float * float * float :=
  (width this, height this, depth this).
Definition axis (this : t) : Axis := m_value (m_axis (axis_feature this)).
Definition axis_is_defaulted (this : t) : bool :=
  m_defaulted (m_axis (axis_feature this)).

(** [std::min({a, b, c})]: the first of the smallest elements. *)
Definition min3 (a b c : float) : float :=
  let smallest := if F32.ltb b a then b else a in
  if F32.ltb c smallest then c else smallest.

Definition compute_scale_factor (this : t) (width height depth : float)
    : result float :=
  assert (negb (F32.isnan width) && negb (F32.isnan height) &&
          negb (F32.isnan depth));;
  let unconstrained_width := width_is_defaulted this in
  let unconstrained_height := height_is_defaulted this in
  let unconstrained_depth := depth_is_defaulted this in
  if unconstrained_width && unconstrained_height && unconstrained_depth
  then Ok F32.one
  else
    let '(target_width, target_height, target_depth) := lengths this in
    let inf := F32.inf in
    let width_factor :=
      if unconstrained_width || negb (F32.isnormal depth) then inf
      else F32.div target_width width in
    let height_factor :=
      if unconstrained_height || negb (F32.isnormal height) then inf
      else F32.div target_height height in
    let depth_factor :=
      if unconstrained_depth || negb (F32.isnormal depth) then inf
      else F32.div target_depth depth in
    assert (negb (F32.isnan width_factor) && negb (F32.isnan height_factor) &&
            negb (F32.isnan depth_factor));;
    if axis_is_defaulted this then
      let calc_factor := min3 width_factor height_factor depth_factor in
      Ok (if F32.eqb calc_factor inf then F32.one else calc_factor)
    else
      let factor :=
        match axis this with
        | X => width_factor
        | Y => height_factor
        | Z_ => depth_factor
        end in
      assert (F32.isnormal factor);;
      Ok factor.
End ScaleFeatureSet.

(** ** [HideShowElement] (feature.hpp, layout.hpp, layout.cpp) *)

Module HideShowFeature.
Record t : Type := mk {
  m_hide_distance : FloatValue;
  m_show_distance : FloatValue;
  m_clamp_descendant_hide_distances : TypedValue bool;
  m_clamp_descendant_show_distances : TypedValue bool }.

Definition hide_distance (this : t) : float := m_value (m_hide_distance this).
Definition show_distance (this : t) : float := m_value (m_show_distance this).
Definition hide_and_show_distances (this : t) : float * float :=
  (hide_distance this, show_distance this).
Definition clamp_descendant_hide_distances (this : t) : bool :=
  m_value (m_clamp_descendant_hide_distances this).
Definition clamp_descendant_show_distances (this : t) : bool :=
  m_value (m_clamp_descendant_show_distances this).
End HideShowFeature.

Module HideShowElement.
(** What the loop of [render] does to the geometry of one descendant
    before it is stored again. *)
Definition clamp_distances (this : HideShowFeature.t) (descendant_geometry : Geometry.t)
    : Geometry.t :=
  let '(hide_distance, show_distance) := HideShowFeature.hide_and_show_distances this in
  let descendant_geometry :=
    if HideShowFeature.clamp_descendant_hide_distances this &&
       F32.ltb (Geometry.m_hide_distance descendant_geometry) hide_distance
    then Geometry.set_hide_distance descendant_geometry hide_distance
    else descendant_geometry in
  let descendant_geometry :=
    if HideShowFeature.clamp_descendant_show_distances this &&
       F32.ltb (Geometry.m_show_distance descendant_geometry) show_distance
    then Geometry.set_show_distance descendant_geometry show_distance
    else descendant_geometry in
  descendant_geometry.

Definition render (this : HideShowFeature.t) (path : Path.t)
    (render_tree : RenderTree.t) : result RenderTree.t :=
  descendant_path_and_geometries ← RenderTree.descendants_of render_tree path false;
  Ok (fold_left
        (fun (render_tree : RenderTree.t) (descendant : Path.t * Geometry.t) =>
           let '(descendant_path, descendant_geometry) := descendant in
           RenderTree.update render_tree descendant_path
             (clamp_distances this descendant_geometry))
        descendant_path_and_geometries render_tree).
End HideShowElement.

(** ** [NodeTransaction] (transaction.hpp)

    The transaction turns the differences between the tree it rendered and
    the tree it copied when it was opened into events.  It dereferences the
    optional returned by [get] without a test; [None] stands for the
    dereference of an empty optional. *)

Module NodeTransaction.
Definition event_of_difference (m_old_render_tree new_render_tree : RenderTree.t)
    (path_and_difference : Path.t * RenderDifferences) : option Event :=
  let '(path, difference) := path_and_difference in
  match difference with
  | FirstMissing =>
    geometry ← RenderTree.get m_old_render_tree path; Some (mkEvent path geometry Remove)
  | SecondMissing =>
    geometry ← RenderTree.get new_render_tree path; Some (mkEvent path geometry Add)
  | Pos =>
    geometry ← RenderTree.get new_render_tree path; Some (mkEvent path geometry Move)
  | Bounds_ =>
    geometry ← RenderTree.get new_render_tree path; Some (mkEvent path geometry Resize)
  | Color =>
    geometry ← RenderTree.get new_render_tree path; Some (mkEvent path geometry Recolor)
  | Text =>
    geometry ← RenderTree.get new_render_tree path; Some (mkEvent path geometry Retext)
  end.

(** The loop over the differences, on the event server. *)
Fixpoint construct_events (m_old_render_tree new_render_tree : RenderTree.t)
    (differences : list (Path.t * RenderDifferences))
    (shared_event_server : EventServer.t) : option EventServer.t :=
  match differences with
  | [] => Some shared_event_server
  | path_and_difference :: differences' =>
    event ← event_of_difference m_old_render_tree new_render_tree path_and_difference;
    construct_events m_old_render_tree new_render_tree differences'
      (EventServer.add_event shared_event_server event)
  end.

(** [try_update_events_based_on_render_tree_differences]: the value
    returned and the event server, which is [None] once it was destroyed. *)
Definition try_update_events_based_on_render_tree_differences
    (m_old_render_tree new_render_tree : RenderTree.t)
    (event_server : option EventServer.t) : option (bool * option EventServer.t) :=
  let differences := RenderTree.differences_from new_render_tree m_old_render_tree in
  match event_server with
  | None => Some (false, None)
  | Some shared_event_server =>
    shared_event_server ←
      construct_events m_old_render_tree new_render_tree differences shared_event_server;
    Some (true, Some shared_event_server)
  end.

(** The type of the event constructed for a difference. *)
Definition event_type_of (difference : RenderDifferences) : EventType :=
  match difference with
  | FirstMissing => Remove
  | SecondMissing => Add
  | Pos => Move
  | Bounds_ => Resize
  | Color => Recolor
  | Text => Retext
  end.
End NodeTransaction.

(* ===================================================================== *)
(** * Part II: properties *)
(* ===================================================================== *)

(** ** Comparison of floats *)

Lemma f32_compare_antisym (a b : float) :
  SFcompare b a = option_map CompOpp (SFcompare a b).
Proof.
  destruct a as [sa|sa| |sa ma ea], b as [sb|sb| |sb mb eb]; simpl;
    try reflexivity;
    try (destruct sa; reflexivity);
    try (destruct sb; reflexivity);
    try (destruct sa, sb; reflexivity).
  destruct sa, sb; simpl; try reflexivity.
  - rewrite (Z.compare_antisym ea eb).
    destruct (ea ?= eb)%Z eqn:E; simpl; try reflexivity.
    rewrite (Pos.compare_cont_antisym ma mb Eq). simpl.
    now destruct (Pos.compare_cont Eq ma mb).
  - rewrite (Z.compare_antisym ea eb).
    destruct (ea ?= eb)%Z eqn:E; simpl; try reflexivity.
    rewrite (Pos.compare_cont_antisym ma mb Eq). simpl.
    now destruct (Pos.compare_cont Eq ma mb).
Qed.

Lemma f32_compare_nan_free (a b : float) :
  F32.isnan a = false -> F32.isnan b = false -> exists c, SFcompare a b = Some c.
Proof.
  destruct a, b; simpl; intros; try discriminate; eauto.
Qed.

(** [a > b] and [b > a] exclude each other. *)
Lemma f32_gtb_asym (a b : float) : F32.gtb a b = true -> F32.gtb b a = false.
Proof.
  unfold F32.gtb, SFltb. rewrite (f32_compare_antisym a b).
  destruct (SFcompare a b) as [[]|]; simpl; congruence.
Qed.

(** Without NaN, two floats neither of which is greater are equal. *)
Lemma f32_not_gtb_eqb (a b : float) :
  F32.isnan a = false -> F32.isnan b = false ->
  F32.gtb a b = false -> F32.gtb b a = false -> F32.eqb a b = true.
Proof.
  intros Ha Hb. destruct (f32_compare_nan_free a b Ha Hb) as [c Hc].
  unfold F32.gtb, F32.eqb, SFltb, SFeqb. rewrite (f32_compare_antisym a b), Hc.
  destruct c; simpl; congruence.
Qed.

Lemma f32_eqb_refl (a : float) : F32.isnan a = false -> F32.eqb a a = true.
Proof.
  intros Ha. apply f32_not_gtb_eqb; trivial;
    destruct (F32.gtb a a) eqn:E; trivial; now rewrite (f32_gtb_asym _ _ E) in E.
Qed.

Lemma f32_eqb_sym (a b : float) : F32.eqb a b = F32.eqb b a.
Proof.
  unfold F32.eqb, SFeqb. rewrite (f32_compare_antisym b a).
  destruct (SFcompare b a) as [[]|]; reflexivity.
Qed.

(** The selection of the smaller (or larger) of two floats does not depend
    on the order of the operands, up to [==]. *)
Lemma f32_min_select_comm (a b : float) :
  F32.isnan a = false -> F32.isnan b = false ->
  F32.eqb (if F32.gtb a b then b else a) (if F32.gtb b a then a else b) = true.
Proof.
  intros Ha Hb. destruct (F32.gtb a b) eqn:E1.
  - rewrite (f32_gtb_asym _ _ E1). now apply f32_eqb_refl.
  - destruct (F32.gtb b a) eqn:E2; [now apply f32_eqb_refl|]. now apply f32_not_gtb_eqb.
Qed.

Lemma f32_max_select_comm (a b : float) :
  F32.isnan a = false -> F32.isnan b = false ->
  F32.eqb (if F32.gtb a b then a else b) (if F32.gtb b a then b else a) = true.
Proof.
  intros Ha Hb. destruct (F32.gtb a b) eqn:E1.
  - rewrite (f32_gtb_asym _ _ E1). now apply f32_eqb_refl.
  - destruct (F32.gtb b a) eqn:E2; [now apply f32_eqb_refl|].
    rewrite f32_eqb_sym. now apply f32_not_gtb_eqb.
Qed.

Lemma f32_mul_comm (a b : float) : F32.mul a b = F32.mul b a.
Proof.
  unfold F32.mul, SFmul.
  destruct a as [sa|sa| |sa ma ea], b as [sb|sb| |sb mb eb];
    try reflexivity; try (now rewrite xorb_comm).
  now rewrite xorb_comm, Pos.mul_comm, Z.add_comm.
Qed.


(** ** Bounds *)

Lemma point_eqb_refl (p : Point.t) : Point.is_nan p = false -> Point.eqb p p = true.
Proof.
  unfold Point.is_nan, Point.eqb. intros H.
  apply orb_false_elim in H as [H Hz]. apply orb_false_elim in H as [Hx Hy].
  now rewrite !f32_eqb_refl.
Qed.

Lemma bounds_eqb_refl (a : Bounds.t) : Bounds.is_nan a = false -> Bounds.eqb a a = true.
Proof.
  unfold Bounds.is_nan, Bounds.eqb. intros H.
  apply orb_false_elim in H as [Hb He].
  now rewrite !point_eqb_refl.
Qed.

Lemma point_eqb_trans_origin (p q : Point.t) :
  Point.eqb p Point.origin = true -> Point.eqb q Point.origin = true ->
  Point.eqb p q = true.
Proof.
  destruct p as [px py pz], q as [qx qy qz]. unfold Point.eqb; simpl.
  rewrite !andb_true_iff. intros [[Hx Hy] Hz] [[Kx Ky] Kz].
  assert (zero_eq : forall u v, F32.eqb u F32.zero = true ->
                                F32.eqb v F32.zero = true -> F32.eqb u v = true).
  { intros u v. destruct u as [[]|[]| |[] ? ?], v as [[]|[]| |[] ? ?];
      cbv; congruence. }
  auto.
Qed.

(** The zero bounds are a left identity of the union. *)
Lemma bounds_add_zero_l (a : Bounds.t) : Bounds.add Bounds.zero a = a.
Proof. destruct a as [[b e]]. reflexivity. Qed.

(** The union commutes when neither operand is taken for "no bounds". *)
Lemma bounds_add_comm_nonzero (a b : Bounds.t) :
  Bounds.is_nan a = false -> Bounds.is_nan b = false ->
  Bounds.is_zero a = false -> Bounds.is_zero b = false ->
  Bounds.eqb (Bounds.add a b) (Bounds.add b a) = true.
Proof.
  unfold Bounds.add, Bounds.add_assign, Bounds.is_zero, Bounds.is_nan, Point.is_nan.
  destruct a as [[[abx aby abz] [aex aey aez]]], b as [[[bbx bby bbz] [bex bey bez]]].
  unfold Bounds.base, Bounds.end_; simpl.
  intros Ha Hb Za Zb. rewrite Za, Zb.
  repeat match goal with
         | H : _ || _ = false |- _ => apply orb_false_elim in H as [? ?]
         end.
  unfold Bounds.eqb, Point.eqb; simpl.
  rewrite !f32_min_select_comm, !f32_max_select_comm by assumption.
  reflexivity.
Qed.

Lemma bounds_add_comm_zero (a b : Bounds.t) :
  Bounds.is_zero a = true -> Bounds.is_zero b = true ->
  Bounds.eqb (Bounds.add a b) (Bounds.add b a) = true.
Proof.
  unfold Bounds.add, Bounds.add_assign. intros Za Zb.
  unfold Bounds.is_zero in Za, Zb. rewrite Za, Zb.
  apply andb_true_iff in Za as [Za1 Za2]. apply andb_true_iff in Zb as [Zb1 Zb2].
  unfold Bounds.eqb, Bounds.base, Bounds.end_ in *; simpl.
  now rewrite !point_eqb_trans_origin.
Qed.

(** C5, as stated, fails: the union of the box from (1,1,1) to (2,2,2) with
    the zero bounds reaches down to the origin, so the zero bounds are not a
    right identity, and the two orders of the operands give different
    bounds. *)
Lemma bounds_union_counterexample :
  let one := F32.of_Z 1 in
  let two := F32.of_Z 2 in
  let a := Bounds.of_points (Point.mk one one one) (Point.mk two two two) in
  Bounds.eqb (Bounds.add a Bounds.zero) a = false /\
  Bounds.eqb (Bounds.add a Bounds.zero) (Bounds.add Bounds.zero a) = false.
Proof. split; vm_compute; reflexivity. Qed.

(** C5 (amended): on bounds without NaN coordinates the zero bounds are a
    left identity of the union, [zero + a == a], and the union commutes,
    [a + b == b + a], whenever both operands or neither of them pass the
    "no bounds" test of [operator+=]. *)
Theorem bounds_union_left_identity_and_comm (a b : Bounds.t) :
  Bounds.is_nan a = false -> Bounds.is_nan b = false ->
  Bounds.eqb (Bounds.add Bounds.zero a) a = true /\
  (Bounds.is_zero a = Bounds.is_zero b ->
   Bounds.eqb (Bounds.add a b) (Bounds.add b a) = true).
Proof.
  intros Ha Hb. split.
  - rewrite bounds_add_zero_l. now apply bounds_eqb_refl.
  - intros Hz. destruct (Bounds.is_zero a) eqn:Za; symmetry in Hz.
    + now apply bounds_add_comm_zero.
    + now apply bounds_add_comm_nonzero.
Qed.

Lemma bounds_union_left_identity_and_comm_witness :
  let one := F32.of_Z 1 in
  let two := F32.of_Z 2 in
  let three := F32.of_Z 3 in
  let a := Bounds.of_points (Point.mk one one one) (Point.mk two two two) in
  let b := Bounds.of_points (Point.mk (F32.neg one) two one) (Point.mk three three three) in
  Bounds.is_nan a = false /\ Bounds.is_nan b = false /\
  Bounds.is_zero a = Bounds.is_zero b /\
  Bounds.eqb (Bounds.add Bounds.zero a) a = true /\
  Bounds.eqb (Bounds.add a b) (Bounds.add b a) = true.
Proof.
  intros one two three a b.
  assert (Ha : Bounds.is_nan a = false) by reflexivity.
  assert (Hb : Bounds.is_nan b = false) by reflexivity.
  assert (Hz : Bounds.is_zero a = Bounds.is_zero b) by reflexivity.
  pose proof (bounds_union_left_identity_and_comm a b Ha Hb) as [H1 H2].
  exact (conj Ha (conj Hb (conj Hz (conj H1 (H2 Hz))))).
Defined.


(** ** Geometry: combining two geometries *)

Lemma to_unsigned_int_bounds (i n : Z) :
  0 <= i -> 0 <= n -> 0 <= to_unsigned_int (i + n) <= i + n.
Proof.
  intros Hi Hn. unfold to_unsigned_int, UINT_MODULUS. split.
  - apply Z.mod_pos_bound. lia.
  - apply Z.mod_le; lia.
Qed.

Lemma to_unsigned_int_exact (z : Z) :
  0 <= z < UINT_MODULUS -> to_unsigned_int z = z.
Proof. intros H. unfold to_unsigned_int. now apply Z.mod_small. Qed.

Lemma face_in_range_weaken (n m : Z) (f : Face) :
  n <= m -> Geometry.face_in_range n f -> Geometry.face_in_range m f.
Proof.
  destruct f as [[i0 i1] i2]. unfold Geometry.face_in_range. lia.
Qed.

Lemma combine_with_vertexes (this other : Geometry.t) :
  length (Geometry.m_vertexes (Geometry.combine_with this other)) =
  (length (Geometry.m_vertexes this) + length (Geometry.m_vertexes other))%nat.
Proof.
  unfold Geometry.combine_with, Geometry.make; simpl.
  now rewrite length_app, !length_map.
Qed.

(** C10: combining two geometries whose triangles only index their own
    vertexes gives a geometry with the vertexes of both, whose triangles
    (those of the first operand followed by those of the second, each index
    of the latter moved up by the vertex count of the first in [unsigned int]
    arithmetic) only index the combined vertexes; the move is exact as long
    as the combined vertex count fits an [unsigned int]. *)
Theorem combine_with_triangles_in_range (this other : Geometry.t) :
  Geometry.triangles_in_range this ->
  Geometry.triangles_in_range other ->
  let combined := Geometry.combine_with this other in
  let n := Z.of_nat (length (Geometry.m_vertexes this)) in
  length (Geometry.m_vertexes combined) =
    (length (Geometry.m_vertexes this) + length (Geometry.m_vertexes other))%nat /\
  Geometry.triangles_in_range combined /\
  Geometry.m_triangles combined =
    Geometry.m_triangles this ++
    map (fun f : Face =>
           let '(i0, i1, i2) := f in
           (to_unsigned_int (i0 + n), to_unsigned_int (i1 + n),
            to_unsigned_int (i2 + n)))
        (Geometry.m_triangles other) /\
  (Z.of_nat (length (Geometry.m_vertexes combined)) <= UINT_MODULUS ->
   Geometry.m_triangles combined =
     Geometry.m_triangles this ++
     map (fun f : Face => let '(i0, i1, i2) := f in (i0 + n, i1 + n, i2 + n))
         (Geometry.m_triangles other)).
Proof.
  intros Hthis Hother combined n.
  pose proof (combine_with_vertexes this other) as Hlen.
  fold combined in Hlen.
  split; [exact Hlen|]. split; [|split].
  - unfold Geometry.triangles_in_range. rewrite Hlen.
    unfold combined, Geometry.combine_with, Geometry.make; simpl.
    apply Forall_app. split.
    + eapply Forall_impl; [exact Hthis|].
      intros f. apply face_in_range_weaken. lia.
    + apply List.Forall_map. eapply Forall_impl; [exact Hother|].
      intros [[i0 i1] i2]. unfold Geometry.face_in_range.
      fold n. intros (H0 & H1 & H2).
      pose proof (to_unsigned_int_bounds i0 n).
      pose proof (to_unsigned_int_bounds i1 n).
      pose proof (to_unsigned_int_bounds i2 n).
      lia.
  - reflexivity.
  - intros Hfit. rewrite Hlen in Hfit.
    unfold combined, Geometry.combine_with, Geometry.make; simpl. fold n.
    f_equal. apply List.map_ext_Forall. eapply Forall_impl; [exact Hother|].
    intros [[i0 i1] i2]. unfold Geometry.face_in_range. intros (H0 & H1 & H2).
    rewrite !to_unsigned_int_exact by lia. reflexivity.
Qed.

Lemma combine_with_triangles_in_range_witness :
  let zero := F32.zero in
  let one := F32.of_Z 1 in
  let triangle :=
    Geometry.make [Point.mk zero zero zero; Point.mk one zero zero; Point.mk zero one zero]
                  [(0, 1, 2)] Point.origin RGBA.default_color F32.zero F32.inf "" in
  Geometry.triangles_in_range triangle /\
  Geometry.triangles_in_range (Geometry.combine_with triangle triangle) /\
  Geometry.m_triangles (Geometry.combine_with triangle triangle) = [(0, 1, 2); (3, 4, 5)].
Proof.
  intros zero one triangle.
  assert (Hin : Geometry.triangles_in_range triangle).
  { repeat constructor; simpl; lia. }
  pose proof (combine_with_triangles_in_range triangle triangle Hin Hin)
    as (_ & Hrange & Htri & _).
  exact (conj Hin (conj Hrange Htri)).
Defined.

(** ** Relative float values *)

(** C1: the value computed by [compute_relative_value] against ancestor
    values in which every consulted name is bound to a float.  The amount is
    multiplier times stored value when the value is neither relative nor a
    percentage, the multiplier itself when it is a percentage and not
    relative, and the ancestor float of [relative_name] times the multiplier
    when it is relative; a percentage takes that amount, as a percent, of the
    ancestor float bound to the value's own name:
    [ancestor * (amount / 100)]. *)
Theorem compute_relative_value_cases (this : RelativeFloatValue.t)
    (known_values : AncestorValues.t) :
  let multiplier := RelativeFloatValue.m_multiplier this in
  let percent_of (amount ancestor : float) :=
    F32.mul ancestor (F32.div amount F32.hundred) in
  (RelativeFloatValue.is_relative this = false ->
   RelativeFloatValue.m_is_percentage this = false ->
   RelativeFloatValue.compute_relative_value this known_values =
     Ok (F32.mul multiplier (RelativeFloatValue.value this))) /\
  (forall ancestor,
   RelativeFloatValue.is_relative this = false ->
   RelativeFloatValue.m_is_percentage this = true ->
   AncestorValues.get_float known_values (RelativeFloatValue.name this) = Ok ancestor ->
   RelativeFloatValue.compute_relative_value this known_values =
     Ok (percent_of multiplier ancestor)) /\
  (forall relative_name known,
   RelativeFloatValue.m_relative_name this = Some relative_name ->
   RelativeFloatValue.m_is_percentage this = false ->
   AncestorValues.get_float known_values relative_name = Ok known ->
   RelativeFloatValue.compute_relative_value this known_values =
     Ok (F32.mul known multiplier)) /\
  (forall relative_name known ancestor,
   RelativeFloatValue.m_relative_name this = Some relative_name ->
   RelativeFloatValue.m_is_percentage this = true ->
   AncestorValues.get_float known_values relative_name = Ok known ->
   AncestorValues.get_float known_values (RelativeFloatValue.name this) = Ok ancestor ->
   RelativeFloatValue.compute_relative_value this known_values =
     Ok (percent_of (F32.mul known multiplier) ancestor)).
Proof.
  intros multiplier percent_of.
  unfold RelativeFloatValue.compute_relative_value, RelativeFloatValue.is_relative,
    RelativeFloatValue.relative_name.
  repeat split.
  - intros Hrel Hpct. rewrite Hpct.
    destruct (RelativeFloatValue.m_relative_name this); [discriminate|]. simpl.
    now rewrite f32_mul_comm.
  - intros ancestor Hrel Hpct Hanc. rewrite Hpct.
    destruct (RelativeFloatValue.m_relative_name this); [discriminate|]. simpl.
    now rewrite Hanc.
  - intros relative_name known Hrel Hpct Hknown. rewrite Hrel, Hpct. simpl.
    now rewrite Hknown.
  - intros relative_name known ancestor Hrel Hpct Hknown Hanc.
    rewrite Hrel, Hpct. simpl. rewrite Hknown. simpl. now rewrite Hanc.
Qed.

Lemma compute_relative_value_cases_witness :
  let ten := F32.of_Z 10 in
  let forty := F32.of_Z 40 in
  let fifty := F32.of_Z 50 in
  let width :=
    RelativeFloatValue.mk (mkValue "width" "w" F32.one false) fifty true (Some "h") in
  let known_values :=
    [("height", AFloatValue (mkValue "height" "h" ten false));
     ("width", AFloatValue (mkValue "width" "w" forty false))] in
  RelativeFloatValue.compute_relative_value width known_values =
    Ok (F32.mul forty (F32.div (F32.mul ten fifty) F32.hundred)) /\
  F32.mul forty (F32.div (F32.mul ten fifty) F32.hundred) = F32.of_Z 200.
Proof.
  intros ten forty fifty width known_values. split.
  - apply (proj2 (proj2 (proj2
      (compute_relative_value_cases width known_values))) "h" ten forty);
      reflexivity.
  - vm_compute. reflexivity.
Defined.

(** ** The scale factor *)

(** C4: the width factor of [compute_scale_factor] is guarded by the
    normality of [depth], not of [width].  With a width attribute of 4 (the
    only attribute set) and measured lengths 2, 1 and 0, the target over the
    current width is the finite factor 2, yet the result is 1. *)
Lemma compute_scale_factor_width_guarded_by_depth :
  let four := F32.of_Z 4 in
  let this :=
    ScaleFeatureSet.mk
      (mkSize (RelativeFloatValue.mk (mkValue "width" "w" four false) F32.one false None)
              (RelativeFloatValue.make "height" "h" F32.one true)
              (RelativeFloatValue.make "depth" "d" F32.one true))
      (mkAxis (mkValue "axis" "axis" X true)) in
  ScaleFeatureSet.compute_scale_factor this (F32.of_Z 2) (F32.of_Z 1) F32.zero = Ok F32.one /\
  F32.div four (F32.of_Z 2) = F32.of_Z 2 /\
  F32.isfinite (F32.of_Z 2) = true /\
  F32.eqb (F32.of_Z 2) F32.one = false.
Proof. repeat split; vm_compute; reflexivity. Qed.

(** ** Paths: construction *)

Lemma string_find_bounds (ch : ascii) (s : string) (pos i : nat) :
  string_find ch s pos = Some i -> (pos <= i < String.length s)%nat.
Proof.
  revert pos i. induction s as [|c s IH]; intros pos i; simpl; [discriminate|].
  destruct pos as [|pos'].
  - destruct (Ascii.eqb c ch).
    + intros [= <-]. lia.
    + destruct (string_find ch s 0) as [j|] eqn:E; simpl; [|discriminate].
      intros [= <-]. apply IH in E. lia.
  - destruct (string_find ch s pos') as [j|] eqn:E; simpl; [|discriminate].
    intros [= <-]. apply IH in E. lia.
Qed.

(** The loop runs to its end within its budget, only throws
    [std::invalid_argument], and only appends parts that match. *)
Lemma of_string_loop_checked (fuel : nat) (dot_string : string) :
  forall (prev_pos : nat) (parts : list string),
  (prev_pos <= String.length dot_string < fuel + prev_pos)%nat ->
  valid_parts parts ->
  match Path.of_string_loop fuel dot_string prev_pos parts with
  | Ok (_, parts') => valid_parts parts'
  | Throw e => exists what, e = invalid_argument what
  end.
Proof.
  induction fuel as [|fuel IH]; intros prev_pos parts Hfuel Hparts; simpl.
  - lia.
  - destruct (string_find "." dot_string prev_pos) as [pos|] eqn:E; [|exact Hparts].
    apply string_find_bounds in E.
    destruct (string_empty _); [eauto|].
    destruct (Path.is_valid_path_part _) eqn:V; simpl.
    + apply IH; [lia|]. apply Forall_app. split; [exact Hparts|].
      constructor; [exact V|constructor].
    + unfold Path.throw_invalid_part_exception. eauto.
Qed.

(** C6, as stated, fails: the constructors from a list of parts store the
    parts unchecked, so a path with a part outside the regex is built. *)
Lemma path_of_parts_unchecked_counterexample :
  Path.m_parts (Path.of_parts ["a.b"; ""]) = ["a.b"; ""] /\
  ~ valid_parts (Path.m_parts (Path.of_parts ["a.b"; ""])).
Proof.
  split; [reflexivity|]. intros H. inversion H as [|? ? Hhead _]. discriminate Hhead.
Qed.

(** ** Paths: the dot form is read back *)

#[local] Arguments String.append !_ _ /.

Lemma string_append_assoc (a b c : string) : (a +:+ b) +:+ c = a +:+ (b +:+ c).
Proof. induction a as [|ch a IH]; simpl; [reflexivity|now rewrite IH]. Qed.

Lemma string_append_nil_r (a : string) : a +:+ "" = a.
Proof. induction a as [|ch a IH]; simpl; [reflexivity|now rewrite IH]. Qed.

Lemma string_length_append (a b : string) :
  String.length (a +:+ b) = (String.length a + String.length b)%nat.
Proof. induction a as [|ch a IH]; simpl; [reflexivity|now rewrite IH]. Qed.

Lemma string_find_append_skip (ch : ascii) (a b : string) (k : nat) :
  string_find ch (a +:+ b) (String.length a + k) =
  option_map (Nat.add (String.length a)) (string_find ch b k).
Proof.
  induction a as [|c a IH]; simpl.
  - now destruct (string_find ch b k).
  - rewrite IH. now destruct (string_find ch b k).
Qed.

Lemma string_find_dotless_cons (c : ascii) (part : string) :
  string_find "." (String c part) 0 = None ->
  Ascii.eqb c "." = false /\ string_find "." part 0 = None.
Proof.
  simpl. destruct (Ascii.eqb c "."); [discriminate|].
  destruct (string_find "." part 0); [discriminate|]. now split.
Qed.

Lemma string_find_part_end (part rest : string) :
  string_find "." part 0 = None ->
  string_find "." (part +:+ String "." rest) 0 = Some (String.length part).
Proof.
  induction part as [|c part IH]; intros Hdotless; simpl; [reflexivity|].
  apply string_find_dotless_cons in Hdotless as [-> Hpart]. now rewrite IH.
Qed.

Lemma substring_prefix (part rest : string) :
  String.substring 0 (String.length part) (part +:+ rest) = part.
Proof.
  induction part as [|c part IH]; simpl.
  - now destruct rest.
  - now rewrite IH.
Qed.

Lemma substring_skip (a s : string) (len : nat) :
  String.substring (String.length a) len (a +:+ s) = String.substring 0 len s.
Proof. induction a as [|c a IH]; simpl; [reflexivity|exact IH]. Qed.

Lemma substring_whole (s : string) : String.substring 0 (String.length s) s = s.
Proof. induction s as [|c s IH]; simpl; [reflexivity|now rewrite IH]. Qed.

Lemma valid_part_dotless (part : string) :
  Path.is_valid_path_part part = true -> string_find "." part 0 = None.
Proof.
  unfold Path.is_valid_path_part. intros [_ Hall]%andb_true_iff.
  induction part as [|c part IH]; [reflexivity|]. simpl in *.
  apply andb_true_iff in Hall as [Hc Hall].
  destruct (Ascii.eqb_spec c ".") as [->|_]; [discriminate Hc|].
  now rewrite IH.
Qed.

Lemma of_string_from_last (fuel : nat) (read part : string) (parts : list string) :
  string_find "." part 0 = None ->
  of_string_from (S fuel) (read +:+ part) (String.length read) parts =
  if negb (Path.is_valid_path_part part) then Path.throw_invalid_part_exception part
  else Ok (Path.mk (parts ++ [part])).
Proof.
  intros Hdotless. unfold of_string_from. simpl.
  pose proof (string_find_append_skip "." read part 0) as Hfind.
  rewrite Nat.add_0_r, Hdotless in Hfind. rewrite Hfind. simpl.
  unfold string_substr_from.
  rewrite string_length_append, substring_skip.
  replace (String.length read + String.length part - String.length read)%nat
    with (String.length part) by lia.
  now rewrite substring_whole.
Qed.

Lemma of_string_from_next (fuel : nat) (read part rest : string)
    (parts : list string) :
  string_find "." part 0 = None ->
  of_string_from (S fuel) (read +:+ part +:+ String "." rest) (String.length read) parts =
  if string_empty part then
    Throw (invalid_argument ("Path given has '..' within it: " +:+
                             (read +:+ part +:+ String "." rest)))
  else if negb (Path.is_valid_path_part part) then
    Path.throw_invalid_part_exception part
  else of_string_from fuel (read +:+ part +:+ String "." rest)
         (String.length (read +:+ part +:+ ".")) (parts ++ [part]).
Proof.
  intros Hdotless. unfold of_string_from at 1. simpl.
  pose proof (string_find_append_skip "." read (part +:+ String "." rest) 0) as Hfind.
  rewrite Nat.add_0_r, (string_find_part_end part rest Hdotless) in Hfind.
  rewrite Hfind. simpl. unfold string_substr.
  replace (String.length read + String.length part - String.length read)%nat
    with (String.length part) by lia.
  rewrite substring_skip, substring_prefix.
  destruct (string_empty part); [reflexivity|].
  destruct (Path.is_valid_path_part part); simpl; [|reflexivity].
  unfold of_string_from.
  rewrite !string_length_append. simpl.
  now replace (String.length read + String.length part + 1)%nat
    with (String.length read + (String.length part + 1))%nat by lia.
Qed.

(** Reading the dot form of parts that match gives the parts back. *)
Lemma of_string_from_accepts (later : list string) :
  forall (fuel : nat) (read part : string) (parts : list string),
  (length later < fuel)%nat ->
  valid_parts (part :: later) ->
  of_string_from fuel (read +:+ part +:+ Path.dotted later) (String.length read) parts =
  Ok (Path.mk (parts ++ part :: later)).
Proof.
  induction later as [|next later IH]; intros fuel read part parts Hfuel Hvalid;
    destruct fuel as [|fuel]; try (simpl in Hfuel; lia);
    inversion Hvalid as [|? ? Hpart Hlater]; subst.
  - simpl Path.dotted. rewrite string_append_nil_r.
    rewrite of_string_from_last by now apply valid_part_dotless.
    now rewrite Hpart.
  - simpl Path.dotted.
    change ("." +:+ next +:+ Path.dotted later)
      with (String "." (next +:+ Path.dotted later)).
    rewrite of_string_from_next by now apply valid_part_dotless.
    assert (Hnonempty : string_empty part = false).
    { unfold Path.is_valid_path_part in Hpart.
      apply andb_true_iff in Hpart as [Hne _]. now destruct (string_empty part). }
    rewrite Hnonempty, Hpart. simpl negb. cbv iota.
    replace (read +:+ part +:+ String "." (next +:+ Path.dotted later))
      with ((read +:+ part +:+ ".") +:+ next +:+ Path.dotted later).
    + rewrite IH; [|simpl in Hfuel; lia|exact Hlater].
      now rewrite <- app_assoc.
    + now rewrite !string_append_assoc.
Qed.

(** Reading the dot form of parts one of which does not match fails. *)
Lemma of_string_from_rejects (later : list string) :
  forall (fuel : nat) (read part : string) (parts : list string),
  (length later < fuel)%nat ->
  dotless_parts (part :: later) ->
  ~ valid_parts (part :: later) ->
  exists what,
    of_string_from fuel (read +:+ part +:+ Path.dotted later) (String.length read) parts =
    Throw (invalid_argument what).
Proof.
  induction later as [|next later IH]; intros fuel read part parts Hfuel Hdotless Hinvalid;
    destruct fuel as [|fuel]; try (simpl in Hfuel; lia);
    inversion Hdotless as [|? ? Hpart Hlater]; subst.
  - simpl Path.dotted. rewrite string_append_nil_r.
    rewrite of_string_from_last by exact Hpart.
    destruct (Path.is_valid_path_part part) eqn:V; simpl.
    + destruct Hinvalid. now repeat constructor.
    + unfold Path.throw_invalid_part_exception. eauto.
  - simpl Path.dotted.
    change ("." +:+ next +:+ Path.dotted later)
      with (String "." (next +:+ Path.dotted later)).
    rewrite of_string_from_next by exact Hpart.
    destruct (string_empty part); [eauto|].
    destruct (Path.is_valid_path_part part) eqn:V; simpl.
    + replace (read +:+ part +:+ String "." (next +:+ Path.dotted later))
        with ((read +:+ part +:+ ".") +:+ next +:+ Path.dotted later)
        by now rewrite !string_append_assoc.
      apply IH; [simpl in Hfuel; lia|exact Hlater|].
      intros Hvalid. apply Hinvalid. now constructor.
    + unfold Path.throw_invalid_part_exception. eauto.
Qed.

Lemma of_string_dotted (part : string) (later : list string) :
  part :: later <> [""] ->
  Path.of_string (Path.dotted (part :: later)) =
  of_string_from (S (String.length (Path.dotted (part :: later))))
    ("." +:+ part +:+ Path.dotted later) (String.length ".") [].
Proof.
  intros Hne. unfold Path.of_string. simpl Path.dotted.
  change ("." +:+ part +:+ Path.dotted later)
    with (String "." (part +:+ Path.dotted later)).
  assert (Hdot : String.eqb (String "." (part +:+ Path.dotted later)) "." = false).
  { apply String.eqb_neq. intros [= Heq]. apply Hne.
    destruct part; [|discriminate]. destruct later; [reflexivity|discriminate]. }
  rewrite Hdot. reflexivity.
Qed.

Lemma dotted_length (parts : list string) :
  (length parts <= String.length (Path.dotted parts))%nat.
Proof.
  induction parts as [|part parts IH]; simpl; [lia|].
  rewrite string_length_append. lia.
Qed.

Lemma of_string_accepts (parts : list string) :
  valid_parts parts ->
  Path.of_string (Path.to_dot_string (Path.mk parts)) = Ok (Path.mk parts).
Proof.
  intros Hvalid. destruct parts as [|part later]; [reflexivity|].
  change (Path.to_dot_string (Path.mk (part :: later)))
    with (Path.dotted (part :: later)).
  rewrite of_string_dotted.
  - apply (of_string_from_accepts later _ "." part []); [|exact Hvalid].
    pose proof (dotted_length (part :: later)). simpl length in *. lia.
  - intros [= -> ->]. inversion Hvalid as [|? ? Hpart _]. discriminate Hpart.
Qed.

Lemma of_string_rejects (parts : list string) :
  dotless_parts parts -> ~ valid_parts parts -> parts <> [""] ->
  exists what,
    Path.of_string (Path.to_dot_string (Path.mk parts)) = Throw (invalid_argument what).
Proof.
  intros Hdotless Hinvalid Hne. destruct parts as [|part later].
  - destruct Hinvalid. constructor.
  - change (Path.to_dot_string (Path.mk (part :: later)))
      with (Path.dotted (part :: later)).
    rewrite of_string_dotted by exact Hne.
    apply (of_string_from_rejects later _ "." part []); trivial.
    pose proof (dotted_length (part :: later)). simpl length in *. lia.
Qed.

Lemma leading_dot_position (c : ascii) :
  match Some c with
  | Some "."%char => 1%nat
  | _ => 0%nat
  end = if Ascii.eqb c "." then 1%nat else 0%nat.
Proof. destruct c as [[] [] [] [] [] [] [] []]; reflexivity. Qed.

(** A string that does not start with a dot is read from its start. *)
Lemma of_string_undotted (c : ascii) (part : string) (later : list string) :
  Ascii.eqb c "." = false ->
  Path.of_string (String c part +:+ Path.dotted later) =
  of_string_from (S (String.length (String c part +:+ Path.dotted later)))
    ("" +:+ String c part +:+ Path.dotted later) (String.length "") [].
Proof.
  intros Hc. unfold Path.of_string.
  change (String c part +:+ Path.dotted later)
    with (String c (part +:+ Path.dotted later)).
  cbn [string_empty orb String.get].
  assert (Hdot : String.eqb (String c (part +:+ Path.dotted later)) "." = false).
  { apply String.eqb_neq. intros [= -> _]. discriminate Hc. }
  rewrite Hdot, leading_dot_position, Hc. reflexivity.
Qed.

(** Every string is the dot form, without the first dot, of parts that
    hold no dot. *)
Lemma dot_string_parts (dot_string : string) :
  exists part later,
    dotless_parts (part :: later) /\ dot_string = part +:+ Path.dotted later.
Proof.
  induction dot_string as [|c dot_string (part & later & Hdotless & ->)].
  - exists ""%string, []. split; [repeat constructor|reflexivity].
  - destruct (Ascii.eqb_spec c ".") as [->|Hc].
    + exists ""%string, (part :: later). split; [|reflexivity].
      constructor; [reflexivity|exact Hdotless].
    + exists (String c part), later. split; [|reflexivity].
      inversion Hdotless as [|? ? Hpart Hlater]; subst.
      constructor; [|exact Hlater]. simpl.
      apply Ascii.eqb_neq in Hc. now rewrite Hc, Hpart.
Qed.

(** C6 (amended): the construction of a path from a dot string checks
    every part against the part regex: it fails with [std::invalid_argument]
    or yields a path all of whose parts match; the dot form of parts that
    match is read back as these parts, and the dot form of parts one of
    which does not match is refused.  The parts of a dot string are what
    stands between its dots, a first dot apart: every string but the empty
    one and the single dot, which give the empty path, is made of such
    parts in one of the two ways, with or without a first dot, and the
    construction yields these parts when all of them match and fails when
    one of them does not. *)
Theorem path_of_string_checked (dot_string : string) (parts : list string)
    (lead part : string) (later : list string) :
  match Path.of_string dot_string with
  | Ok path => valid_parts (Path.m_parts path)
  | Throw e => exists what, e = invalid_argument what
  end /\
  (valid_parts parts ->
   Path.of_string (Path.to_dot_string (Path.mk parts)) = Ok (Path.mk parts)) /\
  (dotless_parts parts -> ~ valid_parts parts -> parts <> [""] ->
   exists what,
     Path.of_string (Path.to_dot_string (Path.mk parts)) =
     Throw (invalid_argument what)) /\
  (dotless_parts (part :: later) ->
   lead = "."%string /\ part :: later <> [""%string] \/
   lead = ""%string /\ part <> ""%string ->
   (valid_parts (part :: later) ->
    Path.of_string (lead +:+ part +:+ Path.dotted later) = Ok (Path.mk (part :: later))) /\
   (~ valid_parts (part :: later) ->
    exists what,
      Path.of_string (lead +:+ part +:+ Path.dotted later) =
      Throw (invalid_argument what))) /\
  (Path.of_string "" = Ok (Path.mk []) /\ Path.of_string "." = Ok (Path.mk [])) /\
  (dot_string = ""%string \/ dot_string = "."%string \/
   exists lead' part' later',
     dot_string = (lead' +:+ part' +:+ Path.dotted later')%string /\
     dotless_parts (part' :: later') /\
     (lead' = "."%string /\ part' :: later' <> [""%string] \/
      lead' = ""%string /\ part' <> ""%string)).
Proof.
  split; [|split; [apply of_string_accepts|split; [apply of_string_rejects|]]].
  2: { split; [|split; [split; reflexivity|]].
       - intros Hdotless [[-> Hne]|[-> Hne]].
         + change ("." +:+ part +:+ Path.dotted later)
             with (Path.to_dot_string (Path.mk (part :: later))).
           split; [apply of_string_accepts|].
           intros Hinvalid. now apply of_string_rejects.
         + destruct part as [|c part]; [contradiction|].
           inversion Hdotless as [|? ? Hpart _]; subst.
           apply string_find_dotless_cons in Hpart as [Hc _].
           change ("" +:+ String c part +:+ Path.dotted later)
             with (String c part +:+ Path.dotted later).
           rewrite of_string_undotted by exact Hc.
           assert (Hfuel : (length later <
                            S (String.length (String c part +:+ Path.dotted later)))%nat).
           { rewrite string_length_append. pose proof (dotted_length later). lia. }
           split.
           * intros Hvalid.
             exact (of_string_from_accepts later _ "" (String c part) [] Hfuel Hvalid).
           * intros Hinvalid.
             exact (of_string_from_rejects later _ "" (String c part) [] Hfuel
                      Hdotless Hinvalid).
       - destruct (dot_string_parts dot_string) as (part' & later' & Hdotless & ->).
         destruct part' as [|c part'].
         + destruct later' as [|next later']; [now left|].
           destruct (decide (next :: later' = [""%string])) as [[= -> ->]|Hne];
             [right; now left|].
           right; right. exists "."%string, next, later'.
           split; [reflexivity|]. split; [|now left].
           now inversion Hdotless.
         + right; right. exists ""%string, (String c part'), later'.
           split; [reflexivity|]. split; [exact Hdotless|]. right. now split. }
  unfold Path.of_string.
  destruct (string_empty dot_string || String.eqb dot_string "."); [constructor|].
  set (prev_pos := match String.get 0 dot_string with
                   | Some "."%char => 1%nat
                   | _ => 0%nat
                   end).
  assert (Hprev : (prev_pos <= String.length dot_string)%nat).
  { subst prev_pos. destruct dot_string as [|c s]; simpl; [lia|].
    destruct c as [[] [] [] [] [] [] [] []]; lia. }
  pose proof (of_string_loop_checked (S (String.length dot_string)) dot_string
                prev_pos [] ltac:(lia) ltac:(constructor)) as H.
  destruct (Path.of_string_loop _ _ _ _) as [[prev_pos' parts']|e]; simpl; [|exact H].
  destruct (Path.is_valid_path_part _) eqn:V; simpl.
  - apply Forall_app. split; [exact H|]. constructor; [exact V|constructor].
  - unfold Path.throw_invalid_part_exception. eauto.
Qed.

Lemma path_of_string_checked_witness :
  Path.of_string ".rack-1.node:2" = Ok (Path.mk ["rack-1"; "node:2"]) /\
  (exists what, Path.of_string ".rack 1.node" = Throw (invalid_argument what)) /\
  Path.of_string "rack-1.node:2" = Ok (Path.mk ["rack-1"; "node:2"]) /\
  (exists what, Path.of_string "/rack.node" = Throw (invalid_argument what)) /\
  (exists what, Path.of_string "rack..node" = Throw (invalid_argument what)).
Proof.
  split; [|split; [|split; [|split]]].
  - apply (proj1 (proj2 (path_of_string_checked "" ["rack-1"; "node:2"] "" "" []))).
    repeat constructor.
  - apply (proj1 (proj2 (proj2 (path_of_string_checked "" ["rack 1"; "node"] "" "" [])))).
    + repeat constructor.
    + intros H. inversion H as [|? ? Hhead _]. discriminate Hhead.
    + discriminate.
  - apply (proj1 (proj2 (proj2 (proj2
      (path_of_string_checked "" [] "" "rack-1" ["node:2"%string]))))).
    + repeat constructor.
    + right. split; [reflexivity|discriminate].
    + repeat constructor.
  - apply (proj1 (proj2 (proj2 (proj2
      (path_of_string_checked "" [] "" "/rack" ["node"%string]))))).
    + repeat constructor.
    + right. split; [reflexivity|discriminate].
    + intros H. inversion H as [|? ? Hhead _]. discriminate Hhead.
  - apply (proj1 (proj2 (proj2 (proj2
      (path_of_string_checked "" [] "" "rack" [""%string; "node"%string]))))).
    + repeat constructor.
    + right. split; [reflexivity|discriminate].
    + intros H. inversion H as [|? ? _ Hrest]. inversion Hrest as [|? ? Hhead _].
      discriminate Hhead.
Defined.

(** ** The order of paths *)

Lemma string_lt_asym (a b : string) : string_lt a b = true -> string_lt b a = false.
Proof.
  unfold string_lt. rewrite (String.compare_antisym b a).
  destruct (String.compare a b); simpl; congruence.
Qed.

Lemma string_lt_irrefl (a : string) : string_lt a a = false.
Proof.
  destruct (string_lt a a) eqn:E; [|reflexivity].
  now rewrite (string_lt_asym _ _ E) in E.
Qed.

Lemma string_lt_total (a b : string) :
  string_lt a b = false -> string_lt b a = false -> a = b.
Proof.
  unfold string_lt. rewrite (String.compare_antisym b a).
  destruct (String.compare a b) eqn:E; simpl; try discriminate.
  intros _ _. now apply String.compare_eq_iff.
Qed.

Lemma comparison_parts_antisym (ours others : list string) :
  Path.comparison_parts others ours = - Path.comparison_parts ours others.
Proof.
  revert others. induction ours as [|p ours IH]; intros [|q others]; simpl;
    try reflexivity.
  unfold string_gt.
  destruct (string_lt p q) eqn:E1.
  - rewrite (string_lt_asym _ _ E1). reflexivity.
  - destruct (string_lt q p) eqn:E2; [reflexivity|]. apply IH.
Qed.

Lemma comparison_antisym (p q : Path.t) :
  Path.comparison q p = - Path.comparison p q.
Proof.
  unfold Path.comparison.
  destruct (Nat.ltb_spec (Path.size q) (Path.size p)),
           (Nat.ltb_spec (Path.size p) (Path.size q)); try lia.
  apply comparison_parts_antisym.
Qed.

Lemma path_ltb_asym (p q : Path.t) : Path.ltb p q = true -> Path.ltb q p = false.
Proof.
  unfold Path.ltb. rewrite (comparison_antisym p q). lia.
Qed.

Lemma path_ltb_irrefl (p : Path.t) : Path.ltb p p = false.
Proof.
  destruct (Path.ltb p p) eqn:E; [|reflexivity].
  now rewrite (path_ltb_asym _ _ E) in E.
Qed.

Lemma comparison_parts_eq (ours others : list string) :
  length ours = length others ->
  Path.comparison_parts ours others = 0 -> ours = others.
Proof.
  revert others. induction ours as [|p ours IH]; intros [|q others]; simpl;
    try discriminate; [reflexivity|].
  intros [= Hlen]. unfold string_gt.
  destruct (string_lt q p) eqn:E1; [discriminate|].
  destruct (string_lt p q) eqn:E2; [discriminate|].
  intros H. f_equal; [now apply string_lt_total | now apply IH].
Qed.

(** Two paths neither of which is less than the other are the same path. *)
Lemma path_ltb_total (p q : Path.t) :
  Path.ltb p q = false -> Path.ltb q p = false -> p = q.
Proof.
  unfold Path.ltb. rewrite (comparison_antisym p q).
  intros H1 H2. assert (H : Path.comparison p q = 0) by lia.
  clear H1 H2. unfold Path.comparison in H.
  destruct (Nat.ltb_spec (Path.size q) (Path.size p)); [discriminate|].
  destruct (Nat.ltb_spec (Path.size p) (Path.size q)); [discriminate|].
  destruct p as [ps], q as [qs]. f_equal. unfold Path.size in *; simpl in *.
  apply comparison_parts_eq; [lia | exact H].
Qed.

(** ** The diff of two render trees *)

Lemma paths_reported_app (tag : RenderDifferences)
    (xs ys : list (Path.t * RenderDifferences)) :
  paths_reported tag (xs ++ ys) = paths_reported tag xs ++ paths_reported tag ys.
Proof. unfold paths_reported. now rewrite List.filter_app, map_app. Qed.

Lemma paths_reported_field_differences (tag : RenderDifferences) (path : Path.t)
    (first_geometry last_geometry : Geometry.t) :
  tag = FirstMissing \/ tag = SecondMissing ->
  paths_reported tag
    (RenderTree.field_differences path first_geometry last_geometry) = [].
Proof.
  intros Htag. unfold RenderTree.field_differences.
  rewrite !paths_reported_app.
  destruct (Point.neqb _ _), (Bounds.neqb _ _), (RGBA.neqb _ _),
    (negb (String.eqb _ _)); destruct Htag as [-> | ->]; reflexivity.
Qed.

Lemma paths_reported_all_same (tag : RenderDifferences) (m : PathMap.t) :
  paths_reported tag (map (fun entry => (fst entry, tag)) m) = PathMap.keys m.
Proof.
  unfold paths_reported, PathMap.keys.
  induction m as [|[path geometry] m IH]; simpl; [reflexivity|].
  rewrite bool_decide_true by reflexivity. simpl. now f_equal.
Qed.

Lemma paths_reported_all_other (tag other : RenderDifferences) (m : PathMap.t) :
  other <> tag ->
  paths_reported tag (map (fun entry => (fst entry, other)) m) = [].
Proof.
  intros Hne. unfold paths_reported.
  induction m as [|[path geometry] m IH]; simpl; [reflexivity|].
  rewrite bool_decide_false by exact Hne. exact IH.
Qed.

Lemma differences_loop_missing_symmetric (first last : PathMap.t) :
  paths_reported FirstMissing (RenderTree.differences_loop first last) =
  paths_reported SecondMissing (RenderTree.differences_loop last first).
Proof.
  revert last. induction first as [|[first_path first_geometry] first IHfirst].
  - intros last. destruct last as [|[last_path last_geometry] last]; [reflexivity|].
    change (RenderTree.differences_loop [] ((last_path, last_geometry) :: last))
      with (map (fun e : Path.t * Geometry.t => (fst e, FirstMissing))
                ((last_path, last_geometry) :: last)).
    change (RenderTree.differences_loop ((last_path, last_geometry) :: last) [])
      with (map (fun e : Path.t * Geometry.t => (fst e, SecondMissing))
                ((last_path, last_geometry) :: last)).
    now rewrite !paths_reported_all_same.
  - intros last. induction last as [|[last_path last_geometry] last IHlast].
    + change (RenderTree.differences_loop ((first_path, first_geometry) :: first) [])
        with (map (fun e : Path.t * Geometry.t => (fst e, SecondMissing))
                  ((first_path, first_geometry) :: first)).
      change (RenderTree.differences_loop [] ((first_path, first_geometry) :: first))
        with (map (fun e : Path.t * Geometry.t => (fst e, FirstMissing))
                  ((first_path, first_geometry) :: first)).
      now rewrite !paths_reported_all_other by discriminate.
    + simpl. destruct (Path.ltb first_path last_path) eqn:E1.
      * rewrite (path_ltb_asym _ _ E1).
        change (paths_reported FirstMissing
                  (RenderTree.differences_loop first ((last_path, last_geometry) :: last)) =
                paths_reported SecondMissing
                  (RenderTree.differences_loop ((last_path, last_geometry) :: last) first)).
        apply IHfirst.
      * destruct (Path.ltb last_path first_path) eqn:E2.
        -- change (last_path :: paths_reported FirstMissing
                     (RenderTree.differences_loop ((first_path, first_geometry) :: first) last) =
                   last_path :: paths_reported SecondMissing
                     (RenderTree.differences_loop last ((first_path, first_geometry) :: first))).
           f_equal. exact IHlast.
        -- rewrite !paths_reported_app.
           rewrite !paths_reported_field_differences by auto. simpl.
           apply IHfirst.
Qed.

(** C7: the paths that [a.differences_from(b)] reports as [FirstMissing]
    are the paths that [b.differences_from(a)] reports as [SecondMissing],
    in the same order and hence as sets. *)
Theorem differences_from_missing_symmetric (a b : RenderTree.t) :
  paths_reported FirstMissing (RenderTree.differences_from a b) =
  paths_reported SecondMissing (RenderTree.differences_from b a) /\
  forall path : Path.t,
    In path (paths_reported FirstMissing (RenderTree.differences_from a b)) <->
    In path (paths_reported SecondMissing (RenderTree.differences_from b a)).
Proof.
  pose proof (differences_loop_missing_symmetric
                (RenderTree.m_rendered a) (RenderTree.m_rendered b)) as H.
  unfold RenderTree.differences_from. split; [exact H|].
  intros path. now rewrite H.
Qed.

(** ** The event server: what a listener observes *)

Lemma skip_filtered_ge (filter : EventFilter) (events : list Event) (index : nat) :
  (index <= EventServer.skip_filtered filter events index)%nat.
Proof.
  revert index. induction events as [|event events IH]; intros index; simpl; [lia|].
  destruct filter; [lia|].
  destruct (negb _); [|lia]. specialize (IH (S index)). lia.
Qed.

Lemma index_of_next_event_ge (this : EventServer.t) (pos : EventServer.ListenerPosition) :
  (EventServer.index pos <= EventServer.index_of_next_event this pos)%nat.
Proof. apply skip_filtered_ge. Qed.

Lemma try_pop_event_cursor (this : EventServer.t)
    (popper token : EventServer.ListenerToken) :
  match EventServer.try_pop_event this popper with
  | Ok (Some event, this') =>
    let ds := [(popper, default 0%nat (EventServer.next_index this popper), event)] in
    cursor_step token this this' ds /\ delivered_from this ds /\
    EventServer.m_events this' = EventServer.m_events this
  | Ok (None, this') => this' = this
  | Throw _ => True
  end.
Proof.
  unfold EventServer.try_pop_event, EventServer.event_available,
    EventServer.pop_event, EventServer.listener_at, EventServer.next_index.
  destruct (EventServer.m_listener_pos this !! popper) as [pos|] eqn:Hpos;
    simpl; [|exact I].
  destruct (negb _); simpl; [reflexivity|].

  destruct (EventServer.m_events this !! _) as [event|] eqn:Hevent; simpl; [|exact I].
  split; [|split; [|reflexivity]].
  - unfold cursor_step, EventServer.indices_of, EventServer.cursor; simpl.
    destruct (Z.eqb_spec popper token) as [->|Hne]; simpl.
    + right. eexists. split; [reflexivity|].
      rewrite Hpos, lookup_insert_eq; simpl.
      split; [apply index_of_next_event_ge | lia].
    + left. split; [reflexivity|]. now rewrite lookup_insert_ne.
  - repeat constructor. exact Hevent.
Qed.

Lemma step_cursor (this : EventServer.t) (op : EventServer.operation)
    (token : EventServer.ListenerToken) :
  cursor_step token this (snd (EventServer.step this op)) (fst (EventServer.step this op)) /\
  delivered_from this (fst (EventServer.step this op)) /\
  exists appended,
    EventServer.m_events (snd (EventServer.step this op)) =
    EventServer.m_events this ++ appended.
Proof.
  assert (Hnone : forall s, cursor_step token s s []).
  { intros s. left. split; [reflexivity | lia]. }
  destruct op as [event|popper|popper]; simpl.
  - split; [|split].
    + left. split; [reflexivity|]. unfold EventServer.cursor; simpl. lia.
    + constructor.
    + now exists [event].
  - pose proof (try_pop_event_cursor this popper token) as H.
    destruct (EventServer.try_pop_event this popper) as [[[event|] this']|e]; simpl.
    + destruct H as (H1 & H2 & H3). repeat split; trivial.
      exists []. now rewrite app_nil_r.
    + subst this'. repeat split; [apply Hnone|constructor|].
      exists []. now rewrite app_nil_r.
    + repeat split; [apply Hnone|constructor|]. exists []. now rewrite app_nil_r.
  - pose proof (try_pop_event_cursor this popper token) as H.
    change (EventServer.wait_for_event this popper)
      with (EventServer.try_pop_event this popper).
    destruct (EventServer.try_pop_event this popper) as [[[event|] this']|e]; simpl.
    + destruct H as (H1 & H2 & H3). repeat split; trivial.
      exists []. now rewrite app_nil_r.
    + subst this'. repeat split; [apply Hnone|constructor|].
      exists []. now rewrite app_nil_r.
    + repeat split; [apply Hnone|constructor|]. exists []. now rewrite app_nil_r.
Qed.

Lemma indices_of_app (token : EventServer.ListenerToken)
    (ds ds' : list EventServer.delivery) :
  EventServer.indices_of token (ds ++ ds') =
  EventServer.indices_of token ds ++ EventServer.indices_of token ds'.
Proof. unfold EventServer.indices_of. now rewrite List.filter_app, map_app. Qed.

Lemma run_cons (this : EventServer.t) (op : EventServer.operation)
    (ops : list EventServer.operation) :
  EventServer.run this (op :: ops) =
  (fst (EventServer.step this op) ++ fst (EventServer.run (snd (EventServer.step this op)) ops),
   snd (EventServer.run (snd (EventServer.step this op)) ops)).
Proof.
  simpl. destruct (EventServer.step this op) as [ds this']; simpl.
  now destruct (EventServer.run this' ops).
Qed.

Lemma run_monotone (token : EventServer.ListenerToken)
    (ops : list EventServer.operation) :
  forall this : EventServer.t,
  let ds := fst (EventServer.run this ops) in
  let final := snd (EventServer.run this ops) in
  StronglySorted lt (EventServer.indices_of token ds) /\
  Forall (fun i => (EventServer.cursor this token <= i)%nat)
         (EventServer.indices_of token ds) /\
  delivered_from final ds /\
  exists appended, EventServer.m_events final = EventServer.m_events this ++ appended.
Proof.
  induction ops as [|op ops IH]; intros this.
  - simpl. repeat split; try constructor. exists []. now rewrite app_nil_r.
  - cbv zeta. rewrite run_cons. cbn [fst snd].
    destruct (step_cursor this op token) as (Hstep & Hfrom & appended & Happ).
    destruct (IH (snd (EventServer.step this op)))
      as (Hsorted & Hge & Hfrom' & appended' & Happ').
    cbv zeta in Hsorted, Hge, Hfrom', Happ'.
    rewrite indices_of_app. split; [|split; [|split]].
    + destruct Hstep as [[-> _]|(i & -> & _ & Hcur)]; simpl; [exact Hsorted|].
      constructor; [exact Hsorted|].
      eapply Forall_impl; [exact Hge|]. simpl. intros j. rewrite Hcur. lia.
    + destruct Hstep as [[-> Hcur]|(i & -> & Hi & Hcur)]; simpl.
      * eapply Forall_impl; [exact Hge|]. simpl. intros j. lia.
      * constructor; [exact Hi|].
        eapply Forall_impl; [exact Hge|]. simpl. intros j. lia.
    + unfold delivered_from in *. apply Forall_app. split; [|exact Hfrom'].
      eapply Forall_impl; [exact Hfrom|]. simpl. intros d Hd.
      rewrite Happ', Happ, <- app_assoc. now apply lookup_app_l_Some.
    + exists (appended ++ appended'). now rewrite Happ', Happ, <- app_assoc.
Qed.

(** C8: along any interleaving of appends and pops, from any state of the
    server, the indices (in append order) of the events delivered to one
    listener are strictly increasing, so no index occurs twice; each
    delivered event is the event appended at its index. *)
Theorem listener_indices_strictly_increasing (this : EventServer.t)
    (ops : list EventServer.operation) (token : EventServer.ListenerToken) :
  let ds := fst (EventServer.run this ops) in
  let final := snd (EventServer.run this ops) in
  StronglySorted lt (EventServer.indices_of token ds) /\
  NoDup (EventServer.indices_of token ds) /\
  Forall (fun d : EventServer.delivery =>
            EventServer.m_events final !! snd (fst d) = Some (snd d)) ds.
Proof.
  destruct (run_monotone token ops this) as (Hsorted & _ & Hfrom & _).
  cbv zeta. split; [exact Hsorted|]. split; [|exact Hfrom].
  clear Hfrom. induction Hsorted as [|i l Hs IH Hall]; constructor; [|exact IH].
  intros Hin. rewrite Forall_forall in Hall. specialize (Hall i Hin). lia.
Qed.

(** ** The render tree: insertion order and map agree *)

Lemma find_In (m : PathMap.t) (path : Path.t) (geometry : Geometry.t) :
  PathMap.find m path = Some geometry -> In path (PathMap.keys m).
Proof.
  induction m as [|[key g] m IH]; simpl; [discriminate|].
  destruct (Path.ltb path key || Path.ltb key path) eqn:E.
  - intros H. right. now apply IH.
  - apply orb_false_elim in E as [E1 E2]. intros _. left.
    symmetry. now apply path_ltb_total.
Qed.

Lemma find_None (m : PathMap.t) (path : Path.t) :
  PathMap.find m path = None -> ~ In path (PathMap.keys m).
Proof.
  induction m as [|[key g] m IH]; simpl; [tauto|].
  destruct (Path.ltb path key || Path.ltb key path) eqn:E; [|discriminate].
  intros H [->|Hin]; [|now apply IH].
  now rewrite path_ltb_irrefl in E.
Qed.

Lemma count_zero (m : PathMap.t) (path : Path.t) :
  (PathMap.count m path =? 0)%nat = true <-> ~ In path (PathMap.keys m).
Proof.
  unfold PathMap.count. destruct (PathMap.find m path) as [g|] eqn:E; simpl.
  - split; [discriminate|]. intros H. destruct H. eapply find_In, E.
  - split; [|reflexivity]. intros _. now apply find_None.
Qed.

Lemma keys_insert_or_assign (m : PathMap.t) (path : Path.t) (geometry : Geometry.t)
    (q : Path.t) :
  In q (PathMap.keys (PathMap.insert_or_assign m path geometry)) <->
  q = path \/ In q (PathMap.keys m).
Proof.
  induction m as [|[key g] m IH]; simpl.
  - split; intros [H|H]; auto.
  - destruct (Path.ltb path key) eqn:E1; simpl.
    + split; intros [H|H]; auto.
    + destruct (Path.ltb key path) eqn:E2; simpl.
      * rewrite IH. split; intros [H|[H|H]]; auto.
      * assert (path = key) by now apply path_ltb_total. subst key.
        intuition congruence.
Qed.

Lemma update_consistent (this : RenderTree.t) (path : Path.t) (geometry : Geometry.t) :
  RenderTree.consistent this ->
  RenderTree.consistent (RenderTree.update this path geometry).
Proof.
  intros [Hnodup Hsame]. unfold RenderTree.consistent, RenderTree.update; simpl.
  destruct (PathMap.count (RenderTree.m_rendered this) path =? 0)%nat eqn:E.
  - apply count_zero in E. split.
    + apply NoDup_app. split; [exact Hnodup|]. split.
      * intros q Hq [->|[]]%list_elem_of_In. apply E, Hsame.
        now apply list_elem_of_In.
      * repeat constructor. intros []%list_elem_of_In.
    + intros q. rewrite in_app_iff, keys_insert_or_assign, Hsame. simpl. intuition.
  - split; [exact Hnodup|]. intros q. rewrite keys_insert_or_assign, Hsame.
    split; [auto|]. intros [->|H]; [|exact H].
    destruct (in_dec Path.eq_dec path (PathMap.keys (RenderTree.m_rendered this)))
      as [Hin|Hnot]; [exact Hin|].
    apply count_zero in Hnot. congruence.
Qed.

(** An update of a path of the tree leaves the insertion order as it is. *)
Lemma update_insertion_order (this : RenderTree.t) (path : Path.t)
    (geometry : Geometry.t) :
  In path (PathMap.keys (RenderTree.m_rendered this)) ->
  RenderTree.m_insertion_order (RenderTree.update this path geometry) =
  RenderTree.m_insertion_order this.
Proof.
  intros Hin. unfold RenderTree.update; simpl.
  destruct (PathMap.count (RenderTree.m_rendered this) path =? 0)%nat eqn:E;
    [|reflexivity].
  apply count_zero in E. contradiction.
Qed.

Lemma keys_offset_at (m : PathMap.t) (path : Path.t) (by_pos : Point.t) :
  PathMap.keys (RenderTree.offset_at m path by_pos) = PathMap.keys m.
Proof.
  induction m as [|[key g] m IH]; simpl; [reflexivity|].
  destruct (Path.ltb path key || Path.ltb key path); simpl; [now f_equal|reflexivity].
Qed.

Lemma move_consistent (this : RenderTree.t) (path : Path.t) (by_pos : Point.t)
    (excluding : option Path.t) (excluding_parent : bool) :
  RenderTree.consistent this ->
  RenderTree.consistent
    (RenderTree.move_parent_and_descendants_by_impl this path by_pos excluding
       excluding_parent).
Proof.
  intros [Hnodup Hsame].
  unfold RenderTree.consistent, RenderTree.move_parent_and_descendants_by_impl; simpl.
  split; [exact Hnodup|]. intros q. rewrite Hsame.
  assert (Hkeys : forall (f : Path.t * Geometry.t -> Path.t * Geometry.t) m,
             (forall e, fst (f e) = fst e) ->
             PathMap.keys (map f m) = PathMap.keys m).
  { intros f m Hf. unfold PathMap.keys. rewrite map_map. apply map_ext. exact Hf. }
  rewrite Hkeys.
  - destruct (negb excluding_parent && _); [now rewrite keys_offset_at|reflexivity].
  - intros [rendered_path rendered_geometry]. now destruct (_ && _).
Qed.

Lemma move_insertion_order (this : RenderTree.t) (path : Path.t) (by_pos : Point.t)
    (excluding : option Path.t) (excluding_parent : bool) :
  RenderTree.m_insertion_order
    (RenderTree.move_parent_and_descendants_by_impl this path by_pos excluding
       excluding_parent) = RenderTree.m_insertion_order this.
Proof. reflexivity. Qed.

(** Reading the geometries of paths of the tree does not throw. *)
Lemma mapM_at_ok (m : PathMap.t) (paths : list Path.t) :
  Forall (fun path => In path (PathMap.keys m)) paths ->
  exists entries,
    mapM (fun our_path =>
            geometry ← PathMap.at_ m our_path; Ok (our_path, geometry)) paths
      = Ok entries /\
    map fst entries = paths.
Proof.
  induction 1 as [|path paths Hin _ IH]; simpl.
  - now exists [].
  - destruct IH as (entries & -> & Hfst). unfold PathMap.at_.
    destruct (PathMap.find m path) as [g|] eqn:E.
    + simpl. exists ((path, g) :: entries). split; [reflexivity|]. simpl. now f_equal.
    + now apply find_None in E.
Qed.

Lemma descendants_of_ok (this : RenderTree.t) (path : Path.t) (including : bool) :
  RenderTree.consistent this ->
  exists entries,
    RenderTree.descendants_of this path including = Ok entries /\
    Forall (fun entry => In (fst entry) (RenderTree.m_insertion_order this)) entries.
Proof.
  intros [_ Hsame]. unfold RenderTree.descendants_of.
  destruct (mapM_at_ok (RenderTree.m_rendered this)
              (List.filter (fun our_path => Path.is_descendant_of our_path path including)
                           (RenderTree.m_insertion_order this)))
    as (entries & Hok & Hfst).
  - apply Forall_forall. intros q Hq%list_elem_of_In. apply List.filter_In in Hq as [Hq _].
    now apply Hsame.
  - exists entries. split; [exact Hok|].
    apply Forall_forall. intros entry Hentry%list_elem_of_In.
    apply (in_map fst) in Hentry. rewrite Hfst in Hentry.
    now apply List.filter_In in Hentry as [Hq _].
Qed.

Lemma children_of_ok (this : RenderTree.t) (path : Path.t) :
  RenderTree.consistent this ->
  exists entries,
    RenderTree.children_of this path = Ok entries /\
    Forall (fun entry =>
              In (fst entry) (RenderTree.m_insertion_order this) /\
              Path.size (fst entry) = S (Path.size path)) entries.
Proof.
  intros [_ Hsame]. unfold RenderTree.children_of.
  destruct (mapM_at_ok (RenderTree.m_rendered this)
              (List.filter (fun our_path => Path.is_child_of our_path path)
                           (RenderTree.m_insertion_order this)))
    as (entries & Hok & Hfst).
  - apply Forall_forall. intros q Hq%list_elem_of_In. apply List.filter_In in Hq as [Hq _].
    now apply Hsame.
  - exists entries. split; [exact Hok|].
    apply Forall_forall. intros entry Hentry%list_elem_of_In.
    apply (in_map fst) in Hentry. rewrite Hfst in Hentry.
    apply List.filter_In in Hentry as [Hq Hchild]. split; [exact Hq|].
    unfold Path.is_child_of in Hchild. apply andb_true_iff in Hchild as [Hsize _].
    apply Nat.eqb_eq in Hsize. lia.
Qed.

Lemma scale_consistent (this : RenderTree.t) (path : Path.t) (factor : float) :
  RenderTree.consistent this ->
  exists this',
    RenderTree.scale_parent_and_descendants_by this path factor = Ok this' /\
    RenderTree.consistent this'.
Proof.
  intros Hcons. unfold RenderTree.scale_parent_and_descendants_by.
  destruct (descendants_of_ok this path true Hcons) as (entries & -> & _). simpl.
  eexists. split; [reflexivity|].
  revert this Hcons. induction entries as [|[p g] entries IH]; intros this Hcons; simpl.
  - exact Hcons.
  - apply IH. now apply update_consistent.
Qed.

(** [rotate_children_of] stays within its budget, keeps the tree consistent
    and does not touch the insertion order. *)
Lemma rotate_children_of_consistent (rotation_pt : Point.t) (rotation : Rotation.t)
    (order : list Path.t) (fuel : nat) :
  forall (this : RenderTree.t) (path : Path.t),
  RenderTree.consistent this ->
  RenderTree.m_insertion_order this = order ->
  (1 <= fuel)%nat ->
  (list_max (map Path.size order) < fuel + Path.size path)%nat ->
  exists this',
    RenderTree.rotate_children_of fuel this path rotation_pt rotation = Ok this' /\
    RenderTree.consistent this' /\
    RenderTree.m_insertion_order this' = order.
Proof.
  induction fuel as [|fuel IH]; intros this path Hcons Horder Hpos Hfuel; [lia|].
  simpl.
  destruct (children_of_ok this path Hcons) as (children & -> & Hchildren). simpl.
  rewrite Horder in Hchildren.
  assert (Hfold : exists this1,
    foldM (fun (this0 : RenderTree.t) (child : Path.t * Geometry.t) =>
             RenderTree.rotate_children_of fuel this0 (fst child) rotation_pt rotation)
          children this = Ok this1 /\
    RenderTree.consistent this1 /\ RenderTree.m_insertion_order this1 = order).
  { clear Hpos. revert this Hcons Horder.
    induction Hchildren as [|child children [Hin Hsize] _ IHc]; intros this Hcons Horder.
    - exists this. split; [reflexivity|]. split; assumption.
    - simpl.
      assert (Hle : (Path.size (fst child) <= list_max (map Path.size order))%nat).
      { pose proof (proj1 (List.list_max_le (map Path.size order)
                             (list_max (map Path.size order))) (le_n _)) as Hall.
        rewrite List.Forall_forall in Hall. apply Hall. now apply in_map. }
      destruct (IH this (fst child) Hcons Horder) as (this1 & -> & Hcons1 & Horder1);
        [lia|lia|].
      simpl. now apply IHc. }
  destruct Hfold as (this1 & -> & Hcons1 & Horder1). simpl.
  unfold RenderTree.get.
  destruct (PathMap.count (RenderTree.m_rendered this1) path <? 1)%nat eqn:Ecount.
  - exists this1. split; [reflexivity|]. split; assumption.
  - destruct (PathMap.find (RenderTree.m_rendered this1) path) as [geometry|] eqn:Efind.
    + eexists. split; [reflexivity|]. split; [now apply update_consistent|].
      rewrite update_insertion_order; [exact Horder1|]. eapply find_In, Efind.
    + exists this1. split; [reflexivity|]. split; assumption.
Qed.

Lemma rotate_consistent (this : RenderTree.t) (path : Path.t) (rotation : Rotation.t) :
  RenderTree.consistent this ->
  exists this',
    RenderTree.rotate_parent_and_descendants_in_place this path rotation = Ok this' /\
    RenderTree.consistent this'.
Proof.
  intros Hcons. unfold RenderTree.rotate_parent_and_descendants_in_place.
  destruct (rotate_children_of_consistent
              (Bounds.center (RenderTree.positioned_bounds_of this path)) rotation
              (RenderTree.m_insertion_order this) (RenderTree.rotation_depth this)
              this path Hcons eq_refl) as (this1 & -> & Hcons1 & _).
  - unfold RenderTree.rotation_depth. lia.
  - unfold RenderTree.rotation_depth. lia.
  - simpl. eexists. split; [reflexivity|]. now apply move_consistent.
Qed.

Lemma apply_consistent (this : RenderTree.t) (op : RenderTree.operation) :
  RenderTree.consistent this ->
  exists this', RenderTree.apply this op = Ok this' /\ RenderTree.consistent this'.
Proof.
  intros Hcons. destruct op; simpl.
  - eexists. split; [reflexivity|]. now apply update_consistent.
  - eexists. split; [reflexivity|]. now apply move_consistent.
  - eexists. split; [reflexivity|]. now apply move_consistent.
  - eexists. split; [reflexivity|]. now apply move_consistent.
  - now apply scale_consistent.
  - now apply rotate_consistent.
  - eexists. split; [reflexivity|]. split; [constructor|]. intros q. reflexivity.
Qed.

(** C9: no sequence of update, move, scale, rotate and invalidate
    operations on an empty render tree throws, and in the tree it leaves the
    insertion order has no repeated path and holds exactly the paths that
    are keys of the path-to-geometry map. *)
Theorem render_tree_insertion_order_consistent (ops : list RenderTree.operation) :
  exists this,
    RenderTree.run RenderTree.empty ops = Ok this /\
    NoDup (RenderTree.m_insertion_order this) /\
    forall path,
      In path (RenderTree.m_insertion_order this) <->
      In path (PathMap.keys (RenderTree.m_rendered this)).
Proof.
  assert (Hrun : forall this, RenderTree.consistent this ->
            exists this', RenderTree.run this ops = Ok this' /\
                          RenderTree.consistent this').
  { unfold RenderTree.run. induction ops as [|op ops IH]; intros this Hcons; simpl.
    - now exists this.
    - destruct (apply_consistent this op Hcons) as (this1 & -> & Hcons1). simpl.
      now apply IH. }
  destruct (Hrun RenderTree.empty) as (this & Hok & Hnodup & Hsame).
  - split; [constructor|]. intros q. reflexivity.
  - exists this. auto.
Qed.

(** ** The node tree: templates *)

Lemma forallb_names_fresh (children : list Node) (name : string) :
  forallb (fun child_node => negb (String.eqb (NodeOps.get_name child_node) name))
          children = true <->
  ~ In name (map NodeOps.get_name children).
Proof.
  induction children as [|child children IH]; simpl.
  - tauto.
  - rewrite andb_true_iff, IH, negb_true_iff, String.eqb_neq. tauto.
Qed.

Lemma NoDup_insert_fresh {A : Type} (l : list A) (x : A) (i : nat) :
  NoDup l -> ~ In x l -> NoDup (take i l ++ x :: drop i l).
Proof.
  intros Hnodup Hfresh. rewrite <- (take_drop i l) in Hnodup, Hfresh.
  rewrite <- list_elem_of_In in Hfresh.
  apply NoDup_app in Hnodup as (Htake & Hdisjoint & Hdrop).
  apply NoDup_app. split; [exact Htake|]. split.
  - intros y Hy [->|Hin]%elem_of_cons.
    + apply Hfresh, elem_of_app. now left.
    + now apply (Hdisjoint y).
  - apply NoDup_cons. split; [|exact Hdrop].
    intros Hin. apply Hfresh, elem_of_app. now right.
Qed.

Lemma add_child_ok (this : Node) (render_tree : RenderTree.t) (node : Node)
    (maybe_insertion_index : option nat) (this' : Node) (render_tree' : RenderTree.t) :
  NodeOps.add_child this render_tree node maybe_insertion_index =
    Ok (this', render_tree') ->
  ~ In (NodeOps.get_name node) (NodeOps.children_names this) /\
  NodeOps.m_parent node = Some (NodeOps.path this) /\
  NodeOps.m_parent this' = NodeOps.m_parent this /\
  NodeOps.m_element this' = NodeOps.m_element this /\
  NodeOps.m_templates this' = NodeOps.m_templates this /\
  match maybe_insertion_index with
  | Some insertion_index =>
    (insertion_index <= length (NodeOps.m_children this))%nat /\
    NodeOps.m_children this' =
      take insertion_index (NodeOps.m_children this) ++
      node :: drop insertion_index (NodeOps.m_children this) /\
    NodeOps.m_template_insertion_indexes this' =
      map (fun index => if (insertion_index <=? index)%nat then (index + 1)%nat
                        else index)
          (NodeOps.m_template_insertion_indexes this)
  | None =>
    NodeOps.m_children this' = NodeOps.m_children this ++ [node] /\
    NodeOps.m_template_insertion_indexes this' =
      NodeOps.m_template_insertion_indexes this
  end.
Proof.
  unfold NodeOps.add_child.
  destruct (forallb _ (NodeOps.m_children this)) eqn:Hfresh; [|discriminate].
  apply forallb_names_fresh in Hfresh.
  cbn [assert mbind result_bind].
  destruct (bool_decide (NodeOps.m_parent node = Some (NodeOps.path this)))
    eqn:Hparent; [|discriminate].
  apply bool_decide_eq_true in Hparent.
  cbn [assert mbind result_bind].
  destruct (forallb _ (NodeOps.m_children node)); [|discriminate].
  cbn [assert mbind result_bind].
  destruct maybe_insertion_index as [insertion_index|].
  - destruct (Nat.leb_spec insertion_index (length (NodeOps.m_children this)))
      as [Hle|]; [|discriminate].
    cbn [assert mbind result_bind]. intros [= <- <-]. cbn. auto 10.
  - cbn [mbind result_bind]. intros [= <- <-]. cbn. auto 10.
Qed.

Lemma insertion_index_loop_in_range (templates : list Node) (indexes : list nat)
    (with_name : string) (bound : nat) :
  length indexes = length templates ->
  Forall (fun index => (index <= bound)%nat) indexes ->
  In with_name (map NodeOps.get_name templates) ->
  exists index,
    NodeOps.insertion_index_loop templates indexes with_name = Ok index /\
    (index <= bound)%nat.
Proof.
  revert indexes. induction templates as [|template templates IH];
    intros indexes Hlen Hrange Hin; [contradiction|].
  destruct indexes as [|index indexes]; [discriminate|].
  apply Forall_cons in Hrange as [Hindex Hrange]. simpl.
  destruct (String.eqb_spec (NodeOps.get_name template) with_name) as [_|Hne].
  - now exists index.
  - destruct Hin as [Heq|Hin]; [contradiction|].
    apply IH; [simpl in Hlen; lia|assumption|assumption].
Qed.

Lemma node_nested_ind (P : Node -> Prop) :
  (forall parent element indexes templates children,
     Forall P templates -> Forall P children ->
     P (mkNode parent element indexes templates children)) ->
  forall this, P this.
Proof.
  intros Hnode. fix IH 1.
  intros [parent element indexes templates children]. apply Hnode.
  - induction templates as [|template templates IHtemplates]; constructor;
      [apply IH|exact IHtemplates].
  - induction children as [|child children IHchildren]; constructor;
      [apply IH|exact IHchildren].
Qed.

Lemma clone_into_parent_eq (this : Node) (render_tree : RenderTree.t)
    (new_name : string) (new_parent : option Path.t) :
  NodeOps.clone_into_parent this render_tree new_name new_parent =
  (let new_node :=
     mkNode (NodeOps.m_parent this) (element_clone (NodeOps.m_element this)) [] [] [] in
   let new_node := NodeOps.set_name new_node new_name in
   let '(new_node, render_tree) := NodeOps.set_parent new_node render_tree new_parent in
   '(new_node, render_tree) ← foldM
     (fun (acc : Node * RenderTree.t) (child_node : Node) =>
        let '(new_node, render_tree) := acc in
        '(cloned, render_tree) ←
          NodeOps.clone_into_parent child_node render_tree (NodeOps.get_name child_node)
                            (Some (NodeOps.path new_node));
        NodeOps.add_child new_node render_tree cloned None)
     (NodeOps.m_children this) (new_node, render_tree);
   '(new_node, render_tree) ← foldM
     (fun (acc : Node * RenderTree.t) (template_node : Node) =>
        let '(new_node, render_tree) := acc in
        '(cloned, render_tree) ←
          NodeOps.clone_into_parent template_node render_tree
                            (NodeOps.get_name template_node)
                            (Some (NodeOps.path new_node));
        Ok (NodeOps.add_template new_node cloned, render_tree))
     (NodeOps.m_templates this) (new_node, render_tree);
   Ok (mkNode (NodeOps.m_parent new_node) (NodeOps.m_element new_node)
              (NodeOps.m_template_insertion_indexes this)
              (NodeOps.m_templates new_node) (NodeOps.m_children new_node),
       render_tree)).
Proof. destruct this; reflexivity. Qed.

Lemma copy_of_name (this : Node) (new_name : string) (new_parent : option Path.t) :
  NodeOps.get_name (NodeOps.copy_of this new_name new_parent) = new_name.
Proof. now destruct this. Qed.

Lemma copy_of_parent (this : Node) (new_name : string) (new_parent : option Path.t) :
  NodeOps.m_parent (NodeOps.copy_of this new_name new_parent) = new_parent.
Proof. now destruct this. Qed.

Lemma copy_of_children_parent (this : Node) (new_name : string)
    (new_parent : option Path.t) :
  forallb (fun child_node =>
             bool_decide (NodeOps.m_parent child_node =
                          Some (NodeOps.path (NodeOps.copy_of this new_name new_parent))))
          (NodeOps.m_children (NodeOps.copy_of this new_name new_parent)) = true.
Proof.
  destruct this as [parent element indexes templates children].
  cbn [NodeOps.copy_of NodeOps.m_children].
  apply forallb_forall. intros child Hin. apply in_map_iff in Hin as (c & <- & _).
  apply bool_decide_eq_true. rewrite copy_of_parent.
  unfold NodeOps.path, NodeOps.get_name. cbn. now destruct new_parent.
Qed.

Lemma copy_of_names (nodes : list Node) (new_path : Path.t) :
  map NodeOps.get_name
      (map (fun node => NodeOps.copy_of node (m_name (NodeOps.m_element node))
                          (Some new_path)) nodes) =
  map NodeOps.get_name nodes.
Proof.
  rewrite map_map. apply map_ext. intros node. now rewrite copy_of_name.
Qed.

(** Cloning a node whose tree has no two children of one name under a node
    succeeds, gives the copy and leaves the render tree empty. *)
Lemma clone_into_parent_copy_of (this : Node) :
  NodeOps.names_distinct this ->
  forall render_tree new_name new_parent,
    NodeOps.clone_into_parent this render_tree new_name new_parent =
    Ok (NodeOps.copy_of this new_name new_parent, RenderTree.empty).
Proof.
  induction this as [parent element indexes templates children IHtemplates IHchildren]
    using node_nested_ind.
  intros Hdistinct render_tree new_name new_parent.
  inversion Hdistinct as [? ? ? ? ? Hnodup Htemplates Hchildren]; subst.
  rewrite clone_into_parent_eq.
  cbn [NodeOps.m_parent NodeOps.m_element NodeOps.m_children NodeOps.m_templates
       NodeOps.m_template_insertion_indexes].
  unfold NodeOps.set_name, NodeOps.set_parent, element_clone, element_set_name.
  cbn [NodeOps.m_parent NodeOps.m_element NodeOps.m_children NodeOps.m_templates
       NodeOps.m_template_insertion_indexes m_kind].
  change (RenderTree.invalidate_parent_and_child_pos render_tree _)
    with RenderTree.empty.
  set (new_element := mkElement new_name (m_kind element)).
  set (new_path := match new_parent with
                   | None => Path.mk []
                   | Some parent_path => Path.append parent_path new_name
                   end).
  set (copy := fun node : Node =>
                 NodeOps.copy_of node (m_name (NodeOps.m_element node)) (Some new_path)).
  assert (Hpath : forall indexes' templates' children',
            NodeOps.path (mkNode new_parent new_element indexes' templates' children') =
            new_path).
  { intros. unfold NodeOps.path, NodeOps.get_name. cbn. now destruct new_parent. }
  match goal with
  | |- context [foldM ?f children _] =>
    assert (Hfold : forall rest done,
              children = done ++ rest ->
              foldM f rest (mkNode new_parent new_element [] [] (map copy done),
                            RenderTree.empty) =
              Ok (mkNode new_parent new_element [] [] (map copy children),
                  RenderTree.empty))
  end.
  { induction rest as [|child rest IHrest]; intros done Hsplit.
    - rewrite app_nil_r in Hsplit. now subst.
    - cbn [foldM]. rewrite Hpath.
      assert (Hin : In child children) by (subst children; apply in_elt).
      rewrite (proj1 (List.Forall_forall _ _) IHchildren child Hin)
        by exact (proj1 (List.Forall_forall _ _) Hchildren child Hin).
      cbn [mbind result_bind].
      unfold NodeOps.add_child. rewrite copy_of_name, copy_of_parent, Hpath.
      cbn [NodeOps.m_children].
      assert (Hfresh : forallb (fun child_node =>
                negb (String.eqb (NodeOps.get_name child_node) (NodeOps.get_name child)))
                (map copy done) = true).
      { apply forallb_names_fresh. unfold copy. rewrite copy_of_names.
        subst children. rewrite map_app in Hnodup. cbn [map] in Hnodup.
        apply NoDup_app in Hnodup as (_ & Hdisjoint & _).
        intros Hin'%list_elem_of_In. apply (Hdisjoint _ Hin'). left. }
      rewrite Hfresh. cbn [assert mbind result_bind].
      rewrite bool_decide_eq_true_2 by reflexivity.
      cbn [assert mbind result_bind].
      pose proof (copy_of_children_parent child (NodeOps.get_name child) (Some new_path))
        as Hparents.
      rewrite Hparents. cbn [assert mbind result_bind].
      cbn [NodeOps.m_parent NodeOps.m_element NodeOps.m_templates
           NodeOps.m_template_insertion_indexes].
      change (RenderTree.invalidate_parent_and_child_pos RenderTree.empty _)
        with RenderTree.empty.
      specialize (IHrest (done ++ [child])).
      rewrite map_app in IHrest. cbn [map] in IHrest.
      apply IHrest. now rewrite <- app_assoc. }
  specialize (Hfold children [] eq_refl). cbn [map] in Hfold.
  rewrite Hfold. cbn [mbind result_bind].
  match goal with
  | |- context [foldM ?f templates _] =>
    assert (Hfold' : forall rest done indexes',
              templates = done ++ rest ->
              exists indexes'',
                foldM f rest (mkNode new_parent new_element indexes' (map copy done)
                                     (map copy children),
                              RenderTree.empty) =
                Ok (mkNode new_parent new_element indexes'' (map copy templates)
                           (map copy children),
                    RenderTree.empty))
  end.
  { induction rest as [|template rest IHrest]; intros done indexes' Hsplit.
    - rewrite app_nil_r in Hsplit. subst. now exists indexes'.
    - cbn [foldM]. rewrite Hpath.
      assert (Hin : In template templates) by (subst templates; apply in_elt).
      rewrite (proj1 (List.Forall_forall _ _) IHtemplates template Hin)
        by exact (proj1 (List.Forall_forall _ _) Htemplates template Hin).
      cbn [mbind result_bind]. unfold NodeOps.add_template.
      cbn [NodeOps.m_parent NodeOps.m_element NodeOps.m_templates NodeOps.m_children
           NodeOps.m_template_insertion_indexes].
      specialize (IHrest (done ++ [template])).
      rewrite map_app in IHrest. cbn [map] in IHrest.
      apply IHrest. now rewrite <- app_assoc. }
  destruct (Hfold' templates [] [] eq_refl) as [indexes'' Htemplates'].
  cbn [map] in Htemplates'. rewrite Htemplates'.
  reflexivity.
Qed.

Lemma try_get_by_name_Some (nodes : list Node) (with_name : string) (node : Node) :
  NodeOps.try_get_by_name nodes with_name = Some node ->
  In node nodes /\ NodeOps.get_name node = with_name.
Proof.
  induction nodes as [|first nodes IH]; simpl; [discriminate|].
  destruct (String.eqb_spec (NodeOps.get_name first) with_name) as [Hname|_].
  - intros [= <-]. auto.
  - intros Hrest. destruct (IH Hrest). auto.
Qed.

(** What [try_make_template] does on a node whose insertion indexes are in
    range. *)
Lemma try_make_template_copy (this : Node) (render_tree : RenderTree.t)
    (template_name new_name : string) :
  NodeOps.indexes_in_range this ->
  match NodeOps.try_get_template this template_name with
  | None =>
    NodeOps.try_make_template this render_tree template_name new_name =
    Throw (invalid_argument ("Could not find template with name " +:+ template_name))
  | Some template =>
    NodeOps.names_distinct template ->
    let copy := NodeOps.copy_of template new_name (Some (NodeOps.path this)) in
    exists index,
      NodeOps.compute_child_insertion_index this template_name = Ok index /\
      (index <= length (NodeOps.m_children this))%nat /\
      NodeOps.clone_into_parent template render_tree new_name
        (Some (NodeOps.path this)) = Ok (copy, RenderTree.empty) /\
      (In new_name (NodeOps.children_names this) ->
       NodeOps.try_make_template this render_tree template_name new_name =
       Throw assertion_failed) /\
      (~ In new_name (NodeOps.children_names this) ->
       NodeOps.try_make_template this render_tree template_name new_name =
       Ok (mkNode (NodeOps.m_parent this) (NodeOps.m_element this)
             (map (fun template_insertion_index =>
                     if (index <=? template_insertion_index)%nat
                     then (template_insertion_index + 1)%nat
                     else template_insertion_index)
                  (NodeOps.m_template_insertion_indexes this))
             (NodeOps.m_templates this)
             (take index (NodeOps.m_children this) ++
              copy :: drop index (NodeOps.m_children this)),
           RenderTree.empty))
  end.
Proof.
  intros [Hlen Hrange]. unfold NodeOps.try_make_template.
  destruct (NodeOps.try_get_template this template_name) as [template|] eqn:Hget;
    [|reflexivity].
  intros Hdistinct.
  set (copy := NodeOps.copy_of template new_name (Some (NodeOps.path this))).
  apply try_get_by_name_Some in Hget as [Hin Hname].
  destruct (insertion_index_loop_in_range (NodeOps.m_templates this)
              (NodeOps.m_template_insertion_indexes this) template_name
              (length (NodeOps.m_children this)) Hlen Hrange)
    as (index & Hindex & Hle).
  { rewrite <- Hname. now apply in_map. }
  exists index. split; [exact Hindex|]. split; [exact Hle|].
  pose proof (clone_into_parent_copy_of template Hdistinct render_tree new_name
                (Some (NodeOps.path this))) as Hclone.
  fold copy in Hclone. split; [exact Hclone|].
  rewrite Hclone. cbn [mbind result_bind].
  unfold NodeOps.compute_child_insertion_index in Hindex |- *. rewrite Hindex.
  cbn [mbind result_bind]. unfold NodeOps.add_child.
  assert (Hcopy_name : NodeOps.get_name copy = new_name) by apply copy_of_name.
  rewrite Hcopy_name. split.
  - intros Hused.
    destruct (forallb _ (NodeOps.m_children this)) eqn:Hfresh; [|reflexivity].
    now apply forallb_names_fresh in Hfresh.
  - intros Hfresh. apply forallb_names_fresh in Hfresh. rewrite Hfresh.
    cbn [assert mbind result_bind].
    rewrite bool_decide_eq_true_2 by apply copy_of_parent.
    cbn [assert mbind result_bind].
    unfold copy at 1 2. rewrite copy_of_children_parent.
    cbn [assert mbind result_bind].
    destruct (Nat.leb_spec index (length (NodeOps.m_children this))) as [_|Hgt];
      [|lia].
    reflexivity.
Qed.

Lemma try_get_by_name_None (nodes : list Node) (with_name : string) :
  NodeOps.try_get_by_name nodes with_name = None ->
  ~ In with_name (map NodeOps.get_name nodes).
Proof.
  induction nodes as [|first nodes IH]; simpl; [tauto|].
  destruct (String.eqb_spec (NodeOps.get_name first) with_name) as [_|Hne];
    [discriminate|].
  intros Hrest [Hfirst|Hin]; [contradiction|]. now apply IH.
Qed.

Lemma construct_child_appends (this : Node) (render_tree : RenderTree.t)
    (element : AbstractElement) :
  ~ In (m_name element) (NodeOps.children_names this) ->
  NodeOps.construct_child this render_tree element =
  Ok (mkNode (NodeOps.m_parent this) (NodeOps.m_element this)
             (NodeOps.m_template_insertion_indexes this) (NodeOps.m_templates this)
             (NodeOps.m_children this ++
              [NodeOps.construct element (Some (NodeOps.path this))]),
      RenderTree.empty).
Proof.
  intros Hfresh. unfold NodeOps.construct_child, NodeOps.add_child.
  change (NodeOps.get_name (NodeOps.construct element (Some (NodeOps.path this))))
    with (m_name element).
  apply forallb_names_fresh in Hfresh. rewrite Hfresh.
  cbn [assert mbind result_bind].
  rewrite bool_decide_eq_true_2 by reflexivity.
  reflexivity.
Qed.

(** C3, as stated, fails: on the root node the scenario leaves the children
    in the order [b, a, c], the template having been added before [a]. *)
Lemma template_scenario_counterexample :
  exists this render_tree,
    NodeOps.template_scenario NodeOps.construct_root RenderTree.empty
      BoxElement BoxElement = Ok (this, render_tree) /\
    NodeOps.children_names this = ["b"; "a"; "c"] /\
    NodeOps.children_names this <> ["a"; "b"; "c"].
Proof.
  eexists. eexists. split; [vm_compute; reflexivity|].
  split; [reflexivity | discriminate].
Qed.

(** C3 (amended): on a node with no children, adding a template [t]
    holding a box, constructing the children [a] and [c], and then making
    [b] from the template leaves the children in the order [b, a, c]: the
    child made from the template goes to the index recorded when the
    template was added, before the children constructed later.  The node
    is any node the operations of the tree can build: its insertion indexes
    are in range and no node below it has two children of one name; it may
    hold templates, one named [t] among them. *)
Theorem template_scenario_children_order (this : Node) (render_tree : RenderTree.t)
    (kind_a kind_c : ElementKind) :
  NodeOps.m_children this = [] ->
  NodeOps.indexes_in_range this ->
  NodeOps.names_distinct this ->
  exists this' render_tree',
    NodeOps.template_scenario this render_tree kind_a kind_c = Ok (this', render_tree') /\
    NodeOps.children_names this' = ["b"; "a"; "c"].
Proof.
  intros Hchildren [Hlen Hrange] Hdistinct.
  destruct this as [parent element indexes templates children].
  cbn [NodeOps.m_children NodeOps.m_templates NodeOps.m_template_insertion_indexes]
    in Hchildren, Hlen, Hrange. subst children.
  inversion Hdistinct as [? ? ? ? ? _ Htemplates _]; subst.
  unfold NodeOps.template_scenario, NodeOps.construct_template, NodeOps.add_template.
  cbn [NodeOps.m_parent NodeOps.m_element NodeOps.m_children NodeOps.m_templates
       NodeOps.m_template_insertion_indexes length].
  set (template_t := NodeOps.construct (mkElement "t" BoxElement)
                       (Some (NodeOps.path (mkNode parent element indexes templates [])))).
  rewrite construct_child_appends by (intros []).
  cbn [mbind result_bind NodeOps.m_parent NodeOps.m_element NodeOps.m_children
       NodeOps.m_templates NodeOps.m_template_insertion_indexes app].
  rewrite construct_child_appends
    by (cbn; intros [H|[]]; discriminate H).
  cbn [mbind result_bind NodeOps.m_parent NodeOps.m_element NodeOps.m_children
       NodeOps.m_templates NodeOps.m_template_insertion_indexes app].
  match goal with
  | |- context [NodeOps.try_make_template ?node _ _ _] => set (this3 := node)
  end.
  assert (Hlen3 : length (NodeOps.m_template_insertion_indexes this3) =
                  length (NodeOps.m_templates this3)).
  { subst this3. cbn. rewrite !length_app, Hlen. reflexivity. }
  assert (Hzero : Forall (fun index => (index <= 0)%nat)
                         (NodeOps.m_template_insertion_indexes this3)).
  { subst this3. cbn. apply Forall_app. split; [exact Hrange|]. now constructor. }
  assert (Hrange3 : NodeOps.indexes_in_range this3).
  { split; [exact Hlen3|]. eapply Forall_impl; [exact Hzero|].
    intros index Hindex. cbn beta in *. lia. }
  pose proof (try_make_template_copy this3 RenderTree.empty "t" "b" Hrange3)
    as Hmake.
  destruct (NodeOps.try_get_template this3 "t") as [template|] eqn:Hget.
  - apply try_get_by_name_Some in Hget as Hfound. destruct Hfound as [Hin Hname].
    assert (Htemplate : NodeOps.names_distinct template).
    { subst this3. cbn [NodeOps.m_templates] in Hin.
      apply in_app_or in Hin as [Hin|[<-|[]]].
      - exact (proj1 (List.Forall_forall _ _) Htemplates template Hin).
      - constructor; constructor. }
    destruct (Hmake Htemplate) as (index & Hindex & _ & _ & _ & Hok).
    destruct (insertion_index_loop_in_range (NodeOps.m_templates this3)
                (NodeOps.m_template_insertion_indexes this3) "t" 0 Hlen3 Hzero)
      as (index' & Hindex' & Hle).
    { rewrite <- Hname. now apply in_map. }
    unfold NodeOps.compute_child_insertion_index in Hindex.
    rewrite Hindex' in Hindex. injection Hindex as <-.
    assert (index' = 0%nat) as -> by lia.
    eexists. eexists. split.
    + apply Hok. subst this3. cbn. intros [H|[H|[]]]; discriminate H.
    + subst this3. unfold NodeOps.children_names.
      cbn [NodeOps.m_children take drop app map].
      rewrite copy_of_name. reflexivity.
  - apply try_get_by_name_None in Hget. destruct Hget.
    subst this3. cbn [NodeOps.m_templates]. rewrite map_app. apply in_or_app.
    right. now left.
Qed.

Lemma template_scenario_children_order_witness :
  exists this' render_tree',
    NodeOps.template_scenario
      (NodeOps.construct_template NodeOps.construct_root (mkElement "t" SphereElement))
      RenderTree.empty BoxElement BoxElement = Ok (this', render_tree') /\
    NodeOps.children_names this' = ["b"; "a"; "c"].
Proof.
  apply template_scenario_children_order.
  - reflexivity.
  - split; [reflexivity|]. repeat constructor.
  - repeat constructor.
Defined.

(** ** The depth first search behind the topological order *)

Lemma color_of_put_color (st : TopologicalSort.state) (u v : nat)
    (c : TopologicalSort.color) :
  TopologicalSort.color_of (TopologicalSort.put_color st u c) v =
  if decide (u = v) then c else TopologicalSort.color_of st v.
Proof.
  unfold TopologicalSort.color_of, TopologicalSort.put_color; simpl.
  destruct (decide (u = v)) as [->|Hne].
  - now rewrite lookup_insert_eq.
  - now rewrite lookup_insert_ne.
Qed.

Lemma color_of_finish_vertex (st : TopologicalSort.state) (u v : nat) :
  TopologicalSort.color_of (TopologicalSort.finish_vertex st u) v =
  if decide (u = v) then TopologicalSort.Black else TopologicalSort.color_of st v.
Proof.
  unfold TopologicalSort.color_of, TopologicalSort.finish_vertex; simpl.
  destruct (decide (u = v)) as [->|Hne].
  - now rewrite lookup_insert_eq.
  - now rewrite lookup_insert_ne.
Qed.

Lemma before_cons {A : Type} (x y z : A) (l : list A) :
  before x y l -> before x y (z :: l).
Proof.
  intros (i & j & Hi & Hj & Hlt). exists (S i), (S j). simpl. repeat split; trivial. lia.
Qed.

Lemma before_head {A : Type} (x y : A) (l : list A) :
  In y l -> before x y (x :: l).
Proof.
  intros Hin%list_elem_of_In. apply list_elem_of_lookup in Hin as [j Hj].
  exists 0%nat, (S j). simpl. repeat split; trivial. lia.
Qed.

Lemma before_trans {A : Type} (x y z : A) (l : list A) :
  NoDup l -> before x y l -> before y z l -> before x z l.
Proof.
  intros Hnodup (i & j & Hi & Hj & Hij) (j' & k & Hj' & Hk & Hjk).
  assert (j = j') by (eapply NoDup_lookup; eassumption). subst j'.
  exists i, k. repeat split; trivial. lia.
Qed.

Lemma before_irrefl {A : Type} (x : A) (l : list A) :
  NoDup l -> ~ before x x l.
Proof.
  intros Hnodup (i & j & Hi & Hj & Hij).
  assert (i = j) by (eapply NoDup_lookup; eassumption). lia.
Qed.

Lemma before_split {A : Type} (x y : A) (l : list A) :
  before x y l -> exists l1 l2 l3, l = l1 ++ x :: l2 ++ y :: l3.
Proof.
  intros (i & j & Hi & Hj & Hij).
  apply list_elem_of_split_length in Hi as (l1 & l2' & -> & Hlen).
  rewrite lookup_app_r in Hj by lia.
  destruct (j - length l1)%nat as [|j'] eqn:E; [lia|]. simpl in Hj.
  apply list_elem_of_split_length in Hj as (l2 & l3 & -> & _).
  now exists l1, l2, l3.
Qed.

(** A map whose keys are vertices has at most as many entries as there are
    vertices. *)
Lemma colors_size_bound (n : nat) (colors : gmap nat TopologicalSort.color) :
  (forall v c, colors !! v = Some c -> (v < n)%nat) -> (size colors <= n)%nat.
Proof.
  intros Hkeys. rewrite <- size_dom.
  assert (Hsub : dom colors ⊆ (set_seq 0 n : gset nat)).
  { intros v Hv. apply elem_of_dom in Hv as [c Hc]. apply elem_of_set_seq.
    specialize (Hkeys v c Hc). lia. }
  apply subseteq_size in Hsub. now rewrite size_set_seq in Hsub.
Qed.

Lemma white_not_stored (g : Graph.t) (st : TopologicalSort.state) (u : nat) :
  TopologicalSort.inv g st ->
  TopologicalSort.color_of st u = TopologicalSort.White ->
  TopologicalSort.colors st !! u = None.
Proof.
  intros (_ & _ & _ & Hkeys) Hwhite. unfold TopologicalSort.color_of in Hwhite.
  destruct (TopologicalSort.colors st !! u) as [c|] eqn:E; [|reflexivity].
  simpl in Hwhite. subst c. now destruct (Hkeys u _ E).
Qed.

Lemma post_refl (g : Graph.t) (st : TopologicalSort.state) :
  TopologicalSort.inv g st -> TopologicalSort.post g st st.
Proof.
  intros Hinv. split; [exact Hinv|]. split; [now exists []|].
  split; [tauto | lia].
Qed.

Lemma post_trans (g : Graph.t) (st1 st2 st3 : TopologicalSort.state) :
  TopologicalSort.post g st1 st2 -> TopologicalSort.post g st2 st3 ->
  TopologicalSort.post g st1 st3.
Proof.
  intros (_ & [f1 H1] & Hg1 & Hs1) (Hinv & [f2 H2] & Hg2 & Hs2).
  split; [exact Hinv|]. split; [|split].
  - exists (f2 ++ f1). now rewrite H2, H1, app_assoc.
  - intros v. now rewrite Hg2, Hg1.
  - lia.
Qed.

(** A black vertex stays black. *)
Lemma post_black (g : Graph.t) (st st' : TopologicalSort.state) (v : nat) :
  TopologicalSort.inv g st -> TopologicalSort.post g st st' ->
  TopologicalSort.color_of st v = TopologicalSort.Black ->
  TopologicalSort.color_of st' v = TopologicalSort.Black.
Proof.
  intros (Hblack & _) ((Hblack' & _) & [finished Hfin] & _) Hv.
  apply Hblack'. rewrite Hfin. apply in_or_app. right. now apply Hblack.
Qed.

Lemma inv_put_gray (g : Graph.t) (st : TopologicalSort.state) (u : nat) :
  TopologicalSort.inv g st ->
  TopologicalSort.color_of st u = TopologicalSort.White ->
  (u < Graph.num_vertices g)%nat ->
  TopologicalSort.inv g (TopologicalSort.put_color st u TopologicalSort.Gray).
Proof.
  intros (Hblack & Hnodup & Hedges & Hkeys) Hwhite Hu.
  split; [|split; [|split]]; simpl; trivial.
  - intros v. rewrite color_of_put_color. destruct (decide (u = v)) as [<-|Hne].
    + split; [discriminate|]. intros Hin. apply Hblack in Hin. congruence.
    + apply Hblack.
  - intros v c. destruct (decide (u = v)) as [<-|Hne].
    + rewrite lookup_insert_eq. intros [= <-]. split; [exact Hu|discriminate].
    + rewrite lookup_insert_ne by exact Hne. apply Hkeys.
Qed.

Lemma inv_finish_vertex (g : Graph.t) (st : TopologicalSort.state) (u : nat) :
  TopologicalSort.inv g st ->
  TopologicalSort.color_of st u = TopologicalSort.Gray ->
  (u < Graph.num_vertices g)%nat ->
  (forall v, Graph.edge g u v -> TopologicalSort.color_of st v = TopologicalSort.Black) ->
  TopologicalSort.inv g (TopologicalSort.finish_vertex st u).
Proof.
  intros (Hblack & Hnodup & Hedges & Hkeys) Hgray Hu Hsucc.
  split; [|split; [|split]]; simpl.
  - intros v. rewrite color_of_finish_vertex. destruct (decide (u = v)) as [<-|Hne].
    + split; auto.
    + rewrite Hblack. split; [auto|]. intros [Heq|Hin]; [contradiction|exact Hin].
  - constructor; [|exact Hnodup]. intros Hin%list_elem_of_In.
    apply Hblack in Hin. congruence.
  - intros w v [<-|Hin] Hedge.
    + apply before_head. apply Hblack. now apply Hsucc.
    + apply before_cons. now apply Hedges.
  - intros v c. destruct (decide (u = v)) as [<-|Hne].
    + rewrite lookup_insert_eq. intros [= <-]. split; [exact Hu|discriminate].
    + rewrite lookup_insert_ne by exact Hne. apply Hkeys.
Qed.

Section Search.
Variable g : Graph.t.
Hypothesis g_wf : Graph.wf g.

Let reaches := clos_trans nat (Graph.edge g).

Lemma depth_first_visit_outcome (fuel : nat) :
  forall (st : TopologicalSort.state) (u : nat),
  TopologicalSort.inv g st ->
  TopologicalSort.color_of st u = TopologicalSort.White ->
  (u < Graph.num_vertices g)%nat ->
  (Graph.num_vertices g < size (TopologicalSort.colors st) + fuel)%nat ->
  (forall w, TopologicalSort.color_of st w = TopologicalSort.Gray -> reaches w u) ->
  TopologicalSort.outcome g st [u] (TopologicalSort.depth_first_visit g fuel st u).
Proof.
  induction fuel as [|fuel IH]; intros st u Hinv Hwhite Hu Hfuel Hreach.
  - destruct Hinv as (_ & _ & _ & Hkeys).
    pose proof (colors_size_bound (Graph.num_vertices g) (TopologicalSort.colors st)
                  (fun v c H => proj1 (Hkeys v c H))).
    lia.
  - simpl.
    set (st1 := TopologicalSort.put_color st u TopologicalSort.Gray).
    assert (Hinv1 : TopologicalSort.inv g st1) by now apply inv_put_gray.
    assert (Hsize1 : size (TopologicalSort.colors st1) = S (size (TopologicalSort.colors st))).
    { unfold st1; simpl. apply map_size_insert_None.
      eapply white_not_stored; eassumption. }
    assert (Hgray1 : forall w, TopologicalSort.color_of st1 w = TopologicalSort.Gray ->
                               w = u \/ reaches w u).
    { intros w. unfold st1. rewrite color_of_put_color.
      destruct (decide (u = w)); [auto|]. intros Hw. right. now apply Hreach. }
    assert (Hu1 : TopologicalSort.color_of st1 u = TopologicalSort.Gray).
    { unfold st1. rewrite color_of_put_color. now destruct (decide (u = u)). }
    assert (Hloop : forall (vs : list nat) (st2 : TopologicalSort.state),
      (forall v, In v vs -> Graph.edge g u v) ->
      TopologicalSort.post g st1 st2 ->
      TopologicalSort.outcome g st2 vs
        (foldM (fun (st : TopologicalSort.state) (v : nat) =>
                  match TopologicalSort.color_of st v with
                  | TopologicalSort.White => TopologicalSort.depth_first_visit g fuel st v
                  | TopologicalSort.Gray => Throw not_a_dag
                  | TopologicalSort.Black => Ok st
                  end) vs st2)).
    { induction vs as [|v vs IHvs]; intros st2 Hvs Hpost2.
      - simpl. split; [apply post_refl, Hpost2|]. intros v [].
      - assert (Hedge : Graph.edge g u v) by (apply Hvs; now left).
        assert (Hvs' : forall v', In v' vs -> Graph.edge g u v')
          by (intros v' Hv'; apply Hvs; now right).
        destruct Hpost2 as (Hinv2 & Hfin2 & Hgray2 & Hsize2).
        simpl. destruct (TopologicalSort.color_of st2 v) eqn:Hcolor.
        + pose proof (IH st2 v Hinv2 Hcolor (g_wf u v Hedge) ltac:(lia)) as Hvisit.
          destruct (TopologicalSort.depth_first_visit g fuel st2 v) as [st3|e]; simpl.
          * destruct Hvisit as [Hpost3 Hblack3].
            { intros w Hw. apply Hgray2 in Hw. destruct (Hgray1 w Hw) as [->|Hw'].
              - now apply t_step.
              - eapply t_trans; [exact Hw'|]. now apply t_step. }
            specialize (IHvs st3 Hvs'
              (post_trans g st1 st2 st3 (conj Hinv2 (conj Hfin2 (conj Hgray2 Hsize2))) Hpost3)).
            destruct (foldM _ vs st3) as [st4|e]; simpl in *; [|exact IHvs].
            destruct IHvs as [Hpost4 Hblack4]. split.
            -- eapply post_trans; eassumption.
            -- intros v' [<-|Hv']; [|now apply Hblack4].
               eapply post_black; [apply Hpost3|exact Hpost4|]. apply Hblack3. now left.
          * apply Hvisit. intros w Hw. apply Hgray2 in Hw.
            destruct (Hgray1 w Hw) as [->|Hw'].
            -- now apply t_step.
            -- eapply t_trans; [exact Hw'|]. now apply t_step.
        + simpl. split; [reflexivity|]. apply Hgray2 in Hcolor.
          destruct (Hgray1 v Hcolor) as [->|Hv].
          * exists u. now apply t_step.
          * exists v. eapply t_trans; [exact Hv|]. now apply t_step.
        + simpl.
          specialize (IHvs st2 Hvs' (conj Hinv2 (conj Hfin2 (conj Hgray2 Hsize2)))).
          destruct (foldM _ vs st2) as [st4|e]; simpl in *; [|exact IHvs].
          destruct IHvs as [Hpost4 Hblack4]. split; [exact Hpost4|].
          intros v' [<-|Hv']; [|now apply Hblack4].
          eapply post_black; [exact Hinv2|exact Hpost4|exact Hcolor]. }
    specialize (Hloop (Graph.out_edges g u) st1 (fun v H => H) (post_refl g st1 Hinv1)).
    fold st1.
    destruct (foldM _ (Graph.out_edges g u) st1) as [st2|e]; simpl in *; [|exact Hloop].
    destruct Hloop as [(Hinv2 & [finished Hfin2] & Hgray2 & Hsize2) Hblack2].
    assert (Hu2 : TopologicalSort.color_of st2 u = TopologicalSort.Gray) by now apply Hgray2.
    split; [split; [|split; [|split]]|].
    + apply inv_finish_vertex; trivial.
    + exists (u :: finished). simpl. now rewrite Hfin2.
    + intros v. rewrite color_of_finish_vertex.
      destruct (decide (u = v)) as [<-|Hne].
      * split; [discriminate|congruence].
      * rewrite Hgray2. unfold st1. rewrite color_of_put_color.
        now destruct (decide (u = v)).
    + simpl. unfold st1 in Hsize2; simpl in Hsize2.
      rewrite map_size_insert_Some; [lia|].
      unfold TopologicalSort.color_of in Hu2.
      destruct (TopologicalSort.colors st2 !! u); [eauto|discriminate].
    + intros v [<-|[]]. rewrite color_of_finish_vertex. now destruct (decide (u = u)).
Qed.

(** The loop of [depth_first_search] over the vertices: between two visits
    no vertex is gray. *)
Lemma depth_first_search_loop (vs : list nat) :
  forall st : TopologicalSort.state,
  (forall v, In v vs -> (v < Graph.num_vertices g)%nat) ->
  TopologicalSort.inv g st ->
  (forall w, TopologicalSort.color_of st w <> TopologicalSort.Gray) ->
  TopologicalSort.outcome g st vs
    (foldM (fun (st : TopologicalSort.state) (u : nat) =>
              match TopologicalSort.color_of st u with
              | TopologicalSort.White =>
                TopologicalSort.depth_first_visit g (S (Graph.num_vertices g)) st u
              | _ => Ok st
              end) vs st).
Proof.
  induction vs as [|u vs IH]; intros st Hvs Hinv Hgray.
  - simpl. split; [now apply post_refl|]. intros v [].
  - assert (Hvs' : forall v, In v vs -> (v < Graph.num_vertices g)%nat)
      by (intros v Hv; apply Hvs; now right).
    assert (Hnext : forall st1, TopologicalSort.post g st st1 ->
              TopologicalSort.color_of st1 u = TopologicalSort.Black ->
              TopologicalSort.outcome g st (u :: vs)
                (foldM (fun (st : TopologicalSort.state) (u : nat) =>
                          match TopologicalSort.color_of st u with
                          | TopologicalSort.White =>
                            TopologicalSort.depth_first_visit g
                              (S (Graph.num_vertices g)) st u
                          | _ => Ok st
                          end) vs st1)).
    { intros st1 Hpost1 Hblack1.
      assert (Hgray1 : forall w, TopologicalSort.color_of st1 w <> TopologicalSort.Gray).
      { intros w Hw. apply Hpost1 in Hw. now apply (Hgray w). }
      specialize (IH st1 Hvs' (proj1 Hpost1) Hgray1).
      destruct (foldM _ vs st1) as [st2|e]; simpl in *; [|exact IH].
      destruct IH as [Hpost2 Hblack2]. split; [eapply post_trans; eassumption|].
      intros v [<-|Hv]; [|now apply Hblack2].
      eapply post_black; [apply Hpost1|exact Hpost2|exact Hblack1]. }
    cbn [foldM]. destruct (TopologicalSort.color_of st u) eqn:Hcolor.
    + pose proof (depth_first_visit_outcome (S (Graph.num_vertices g)) st u Hinv Hcolor
                    (Hvs u (or_introl eq_refl)) ltac:(lia)) as Hvisit.
      destruct (TopologicalSort.depth_first_visit g _ st u) as [st1|e];
        cbn [mbind result_bind].
      * destruct Hvisit as [Hpost1 Hblack1].
        { intros w Hw. now destruct (Hgray w). }
        apply Hnext; [exact Hpost1|]. apply Hblack1. now left.
      * apply Hvisit. intros w Hw. now destruct (Hgray w).
    + now destruct (Hgray u).
    + cbn [mbind result_bind]. apply Hnext; [now apply post_refl|exact Hcolor].
Qed.

Lemma inv_init : TopologicalSort.inv g TopologicalSort.init.
Proof.
  split; [|split; [|split]]; simpl.
  - intros v. unfold TopologicalSort.color_of; simpl. rewrite lookup_empty; simpl.
    split; [discriminate|tauto].
  - constructor.
  - intros u v [].
  - intros v c. now rewrite lookup_empty.
Qed.

Lemma edge_source (u v : nat) : Graph.edge g u v -> (u < Graph.num_vertices g)%nat.
Proof.
  unfold Graph.edge, Graph.out_edges, Graph.num_vertices.
  destruct (g !! u) as [targets|] eqn:E; simpl; [|tauto].
  intros _. now apply lookup_lt_Some in E.
Qed.

(** The order respects every path of the graph. *)
Lemma reaches_before (order : list nat) (x y : nat) :
  NoDup order ->
  (forall u v, Graph.edge g u v -> before u v order) ->
  reaches x y -> before x y order.
Proof.
  intros Hnodup Hedges. induction 1 as [x y Hedge|x y z _ IH1 _ IH2].
  - now apply Hedges.
  - eapply before_trans; eassumption.
Qed.

(** [topological_sort] on a graph: either an order of all the vertices in
    which every edge leads forward, or [not_a_dag] for a cyclic graph. *)
Lemma topological_sort_outcome :
  match TopologicalSort.topological_sort g with
  | Ok order =>
    NoDup order /\
    (forall v, In v order <-> (v < Graph.num_vertices g)%nat) /\
    (forall u v, Graph.edge g u v -> before u v order) /\
    ~ Graph.cyclic g
  | Throw e => e = not_a_dag /\ Graph.cyclic g
  end.
Proof.
  unfold TopologicalSort.topological_sort, TopologicalSort.depth_first_search.
  pose proof (depth_first_search_loop (Graph.vertices g) TopologicalSort.init) as H.
  destruct (foldM _ (Graph.vertices g) TopologicalSort.init) as [st|e]; simpl in *.
  - destruct H as [((Hblack & Hnodup & Hedges & Hkeys) & _) Hall].
    + intros v Hv. apply in_seq in Hv. unfold Graph.num_vertices in *. lia.
    + apply inv_init.
    + intros w. unfold TopologicalSort.color_of; simpl. now rewrite lookup_empty.
    + assert (Hin : forall v, In v (TopologicalSort.order st) <->
                              (v < Graph.num_vertices g)%nat).
      { intros v. split.
        - intros Hv%Hblack. unfold TopologicalSort.color_of in Hv.
          destruct (TopologicalSort.colors st !! v) as [c|] eqn:E; [|discriminate].
          now destruct (Hkeys v c E).
        - intros Hv. apply Hblack, Hall. apply in_seq. unfold Graph.num_vertices in *. lia. }
      assert (Hforward : forall u v, Graph.edge g u v ->
                                     before u v (TopologicalSort.order st)).
      { intros u v Hedge. apply Hedges; [|exact Hedge]. apply Hin.
        eapply edge_source, Hedge. }
      repeat split; trivial; try apply Hin.
      intros [x Hx]. eapply before_irrefl; [exact Hnodup|].
      eapply reaches_before; eassumption.
  - apply H.
    + intros v Hv. apply in_seq in Hv. unfold Graph.num_vertices in *. lia.
    + apply inv_init.
    + intros w. unfold TopologicalSort.color_of; simpl. now rewrite lookup_empty.
Qed.

End Search.

(** ** The graph of the dependencies *)

Lemma indexes_left_find_seq (indexes : Indexes) :
  forall (s k : nat),
  map fst indexes = seq s (length indexes) ->
  indexes_left_find indexes (s + k) = map snd indexes !! k.
Proof.
  induction indexes as [|[key name] rest IH]; intros s k Hseq; simpl in *.
  - reflexivity.
  - injection Hseq as -> Hrest. destruct k as [|k].
    + now rewrite Nat.add_0_r, Nat.eqb_refl.
    + replace (s + S k)%nat with (S s + k)%nat by lia.
      destruct (Nat.eqb_spec s (S s + k)); [lia|]. now apply IH.
Qed.

Lemma indexes_right_find_Some (indexes : Indexes) :
  forall (s : nat) (name : string) (index : nat),
  map fst indexes = seq s (length indexes) ->
  indexes_right_find indexes name = Some index ->
  exists k, index = (s + k)%nat /\ map snd indexes !! k = Some name.
Proof.
  induction indexes as [|[key name'] rest IH]; intros s name index Hseq; simpl in *;
    [discriminate|].
  injection Hseq as -> Hrest. destruct (String.eqb_spec name' name) as [->|Hne].
  - intros [= <-]. exists 0%nat. split; [lia|reflexivity].
  - intros Hfind. destruct (IH (S s) name index Hrest Hfind) as (k & -> & Hk).
    exists (S k). split; [lia|exact Hk].
Qed.

Lemma indexes_right_find_None (indexes : Indexes) (name : string) :
  indexes_right_find indexes name = None -> ~ In name (map snd indexes).
Proof.
  induction indexes as [|[key name'] rest IH]; simpl; [tauto|].
  destruct (String.eqb_spec name' name) as [->|Hne]; [discriminate|].
  intros Hfind [Heq|Hin]; [contradiction|]. now apply IH.
Qed.

Lemma out_edges_add_vertex (g : Graph.t) (u : nat) :
  Graph.out_edges (Graph.add_vertex g) u = Graph.out_edges g u.
Proof.
  unfold Graph.out_edges, Graph.add_vertex.
  destruct (lt_dec u (length g)) as [Hlt|Hge].
  - now rewrite lookup_app_l.
  - rewrite lookup_app_r by lia. rewrite (lookup_ge_None_2 g u) by lia.
    now destruct (u - length g)%nat as [|[|k]].
Qed.

Lemma edge_add_edge (g : Graph.t) (source target u v : nat) :
  (source < Graph.num_vertices g)%nat ->
  Graph.edge (Graph.add_edge source target g) u v <->
  Graph.edge g u v \/ (u = source /\ v = target).
Proof.
  unfold Graph.edge, Graph.out_edges, Graph.add_edge, Graph.num_vertices.
  intros Hlt. destruct (decide (source = u)) as [<-|Hne].
  - rewrite list_lookup_alter_eq.
    destruct (g !! source) as [targets|] eqn:E; simpl.
    + rewrite in_app_iff. simpl. intuition.
    + apply lookup_ge_None in E. lia.
  - rewrite list_lookup_alter_ne by exact Hne. intuition congruence.
Qed.

Lemma lookup_unique (names : list string) (i j : nat) (name : string) :
  NoDup names -> names !! i = Some name -> names !! j = Some name -> i = j.
Proof. intros Hnodup Hi Hj. eapply NoDup_lookup; eassumption. Qed.

Lemma In_lookup (names : list string) (name : string) :
  In name names -> exists i, names !! i = Some name.
Proof. intros Hin%list_elem_of_In. now apply list_elem_of_lookup in Hin. Qed.

Lemma lookup_In (names : list string) (i : nat) (name : string) :
  names !! i = Some name -> In name names.
Proof. intros H. apply list_elem_of_In. eapply list_elem_of_lookup_2, H. Qed.

Lemma built_init (aliases : gmap string string) :
  built aliases [] (mkSort 0 [] Graph.empty).
Proof.
  split; [reflexivity|]. split; [reflexivity|]. split; [constructor|].
  split; [reflexivity|]. split; [|split].
  - intros u v. split.
    + unfold Graph.edge, Graph.out_edges, Graph.empty. simpl. intros [].
    + intros (name & resolved & (dep & [] & _) & _).
  - intros name maybe_dep [].
  - intros name resolved (dep & [] & _).
Qed.

(** Looking a name up, or giving it the next index, keeps the state of the
    loop and only adds names. *)
Lemma index_of_name_built (aliases : gmap string string) (processed : Dependencies)
    (st : sort_state) (name : string) :
  built aliases processed st ->
  built aliases processed (snd (index_of_name st name)) /\
  sort_names (snd (index_of_name st name)) !! fst (index_of_name st name) = Some name /\
  exists added, sort_names (snd (index_of_name st name)) = sort_names st ++ added.
Proof.
  intros (Hi & Hseq & Hnodup & Hvertices & Hedges & Hkeys & Hdeps).
  unfold index_of_name.
  destruct (indexes_right_find (sort_indexes st) name) as [index|] eqn:Hfind; simpl.
  - split; [repeat split; trivial; apply Hedges|]. split; [|exists []; now rewrite app_nil_r].
    rewrite Hi in Hseq.
    destruct (indexes_right_find_Some _ 0 name index Hseq Hfind) as (k & -> & Hk).
    exact Hk.
  - apply indexes_right_find_None in Hfind.
    assert (Hnames : sort_names
              (mkSort (sort_i st + 1) (sort_indexes st ++ [(sort_i st, name)])
                      (Graph.add_vertex (sort_graph st))) = sort_names st ++ [name]).
    { unfold sort_names; simpl. now rewrite map_app. }
    assert (Hnodup' : NoDup (sort_names st ++ [name])).
    { apply NoDup_app. split; [exact Hnodup|]. split.
      - intros x Hx [->|[]]%list_elem_of_In. apply Hfind. now apply list_elem_of_In.
      - repeat constructor. intros []%list_elem_of_In. }
    assert (Hold : forall i x, In x (sort_names st) ->
              (sort_names st ++ [name]) !! i = Some x -> sort_names st !! i = Some x).
    { intros i x Hx Hlookup. destruct (In_lookup _ _ Hx) as [i0 Hi0].
      assert (i = i0).
      { eapply lookup_unique; [exact Hnodup'|exact Hlookup|].
        now apply lookup_app_l_Some. }
      now subst i0. }
    rewrite Hnames. split; [|split; [|now exists [name]]].
    + split; [|split; [|split; [|split; [|split; [|split]]]]]; simpl.
      * rewrite length_app. simpl. lia.
      * rewrite map_app, Hseq. simpl. rewrite Nat.add_1_r, seq_S. reflexivity.
      * rewrite Hnames. exact Hnodup'.
      * unfold Graph.num_vertices, Graph.add_vertex in *. rewrite length_app. simpl. lia.
      * intros u v. unfold Graph.edge. rewrite out_edges_add_vertex, Hnames.
        fold (Graph.edge (sort_graph st) u v). rewrite Hedges.
        split; intros (nm & resolved & Hdep & Hu & Hv); exists nm, resolved;
          (split; [exact Hdep|]).
        -- split; now apply lookup_app_l_Some.
        -- destruct Hdep as (dep & Hin & Hres).
           split; apply Hold; trivial.
           ++ apply (Hdeps nm). now exists dep.
           ++ eapply Hkeys, Hin.
      * intros nm maybe_dep Hin. rewrite Hnames. apply in_or_app. left.
        eapply Hkeys, Hin.
      * intros nm resolved Hdep. rewrite Hnames. apply in_or_app. left.
        eapply Hdeps, Hdep.
    + unfold sort_names in *. rewrite lookup_app_r by (rewrite length_map; lia).
      rewrite length_map, Hi, Nat.sub_diag. reflexivity.
Qed.

Lemma depends_on_app (aliases : gmap string string) (processed : Dependencies)
    (name : string) (maybe_dep : option string) (a b : string) :
  depends_on (processed ++ [(name, maybe_dep)]) aliases a b <->
  depends_on processed aliases a b \/
  (a = name /\ exists dep, maybe_dep = Some dep /\ resolve_alias dep aliases = b).
Proof.
  unfold depends_on. split.
  - intros (dep & Hin & Hres). apply in_app_iff in Hin as [Hin|[[= -> ->]|[]]].
    + left. now exists dep.
    + right. split; [reflexivity|]. now exists dep.
  - intros [(dep & Hin & Hres)|(-> & dep & -> & Hres)]; exists dep;
      (split; [|exact Hres]); apply in_or_app; [now left|right; now left].
Qed.

Lemma add_dependency_built (aliases : gmap string string) (processed : Dependencies)
    (st : sort_state) (entry : string * option string) :
  built aliases processed st ->
  built aliases (processed ++ [entry]) (add_dependency aliases st entry).
Proof.
  intros Hbuilt. destruct entry as [name maybe_dep]. unfold add_dependency.
  destruct (index_of_name_built aliases processed st name Hbuilt)
    as (Hbuilt1 & Hname1 & added1 & Hnames1).
  destruct (index_of_name st name) as [name_index st1]; simpl in *.
  destruct maybe_dep as [dep|].
  - destruct (index_of_name_built aliases processed st1 (resolve_alias dep aliases) Hbuilt1)
      as (Hbuilt2 & Hdep2 & added2 & Hnames2).
    destruct (index_of_name st1 (resolve_alias dep aliases)) as [dep_index st2];
      simpl in *.
    assert (Hname2 : sort_names st2 !! name_index = Some name).
    { rewrite Hnames2. now apply lookup_app_l_Some. }
    destruct Hbuilt2 as (Hi & Hseq & Hnodup & Hvertices & Hedges & Hkeys & Hdeps).
    assert (Hsource : (dep_index < Graph.num_vertices (sort_graph st2))%nat).
    { apply lookup_lt_Some in Hdep2. unfold sort_names in Hdep2.
      rewrite length_map in Hdep2. lia. }
    split; [|split; [|split; [|split; [|split; [|split]]]]]; simpl; trivial.
    + unfold Graph.num_vertices, Graph.add_edge in *. now rewrite length_alter.
    + intros u v. rewrite edge_add_edge by exact Hsource. rewrite Hedges.
      unfold sort_names; simpl. fold (sort_names st2). split.
      * intros [(nm & resolved & Hdep & Hu & Hv)|[-> ->]].
        -- exists nm, resolved. split; [|now split]. apply depends_on_app. now left.
        -- exists name, (resolve_alias dep aliases). split; [|now split].
           apply depends_on_app. right. split; [reflexivity|]. now exists dep.
      * intros (nm & resolved & Hdep & Hu & Hv).
        apply depends_on_app in Hdep as [Hdep|(Hnm & dep' & Hsome & Hres)].
        -- left. now exists nm, resolved.
        -- injection Hsome as <-. subst nm resolved.
           right. split; eapply lookup_unique; eassumption.
    + intros nm maybe_dep Hin. unfold sort_names; simpl. fold (sort_names st2).
      apply in_app_iff in Hin as [Hin|[[= <- <-]|[]]].
      * eapply Hkeys, Hin.
      * eapply lookup_In, Hname2.
    + intros nm resolved Hdep. unfold sort_names; simpl. fold (sort_names st2).
      apply depends_on_app in Hdep as [Hdep|(Hnm & dep' & Hsome & Hres)].
      * eapply Hdeps, Hdep.
      * injection Hsome as <-. subst nm resolved. eapply lookup_In, Hdep2.
  - destruct Hbuilt1 as (Hi & Hseq & Hnodup & Hvertices & Hedges & Hkeys & Hdeps).
    split; [|split; [|split; [|split; [|split; [|split]]]]]; trivial.
    + intros u v. rewrite Hedges.
      split; intros (nm & resolved & Hdep & Hu & Hv); exists nm, resolved;
        (split; [|now split]).
      * apply depends_on_app. now left.
      * apply depends_on_app in Hdep as [Hdep|(_ & dep' & Hsome & _)];
          [exact Hdep|discriminate Hsome].
    + intros nm maybe_dep Hin. apply in_app_iff in Hin as [Hin|[[= <- <-]|[]]].
      * eapply Hkeys, Hin.
      * eapply lookup_In, Hname1.
    + intros nm resolved Hdep.
      apply depends_on_app in Hdep as [Hdep|(_ & dep' & Hsome & _)];
        [|discriminate Hsome].
      eapply Hdeps, Hdep.
Qed.

Lemma fold_add_dependency_built (aliases : gmap string string)
    (dependencies : Dependencies) :
  forall (processed : Dependencies) (st : sort_state),
  built aliases processed st ->
  built aliases (processed ++ dependencies)
        (fold_left (add_dependency aliases) dependencies st).
Proof.
  induction dependencies as [|entry dependencies IH]; intros processed st Hbuilt; simpl.
  - now rewrite app_nil_r.
  - replace (processed ++ entry :: dependencies)
      with ((processed ++ [entry]) ++ dependencies) by now rewrite <- app_assoc.
    apply IH. now apply add_dependency_built.
Qed.

(** ** The topological order of the attributes *)

Lemma built_wf (aliases : gmap string string) (dependencies : Dependencies)
    (st : sort_state) :
  built aliases dependencies st -> Graph.wf (sort_graph st).
Proof.
  intros (Hi & _ & _ & Hvertices & Hedges & _) u v Hedge.
  apply Hedges in Hedge as (name & resolved & _ & _ & Hv).
  apply lookup_lt_Some in Hv. unfold sort_names in Hv. rewrite length_map in Hv. lia.
Qed.

Lemma built_reaches_depends (aliases : gmap string string) (dependencies : Dependencies)
    (st : sort_state) (u v : nat) :
  built aliases dependencies st ->
  clos_trans nat (Graph.edge (sort_graph st)) u v ->
  exists a b,
    sort_names st !! u = Some a /\ sort_names st !! v = Some b /\
    clos_trans string (depends_on dependencies aliases) b a.
Proof.
  intros (_ & _ & _ & _ & Hedges & _).
  induction 1 as [u v Hedge|u w v _ IH1 _ IH2].
  - apply Hedges in Hedge as (name & resolved & Hdep & Hu & Hv).
    exists resolved, name. repeat split; trivial. now apply t_step.
  - destruct IH1 as (a & b & Ha & Hb & Hba), IH2 as (b' & c & Hb' & Hc & Hcb).
    assert (b' = b) by congruence. subst b'.
    exists a, c. repeat split; trivial. eapply t_trans; eassumption.
Qed.

Lemma built_depends_reaches (aliases : gmap string string) (dependencies : Dependencies)
    (st : sort_state) (a b : string) :
  built aliases dependencies st ->
  clos_trans string (depends_on dependencies aliases) a b ->
  exists u v,
    sort_names st !! u = Some b /\ sort_names st !! v = Some a /\
    clos_trans nat (Graph.edge (sort_graph st)) u v.
Proof.
  intros (_ & _ & Hnodup & _ & Hedges & Hkeys & Hdeps).
  induction 1 as [a b Hdep|a c b _ IH1 _ IH2].
  - destruct (In_lookup _ _ (Hdeps a b Hdep)) as [u Hu].
    assert (Ha : In a (sort_names st)).
    { destruct Hdep as (dep & Hin & _). eapply Hkeys, Hin. }
    destruct (In_lookup _ _ Ha) as [v Hv].
    exists u, v. repeat split; trivial. apply t_step, Hedges. now exists a, b.
  - destruct IH1 as (w & v & Hw & Hv & Hwv), IH2 as (u & w' & Hu & Hw' & Huw).
    assert (w' = w) by (eapply lookup_unique; eassumption). subst w'.
    exists u, v. repeat split; trivial. eapply t_trans; eassumption.
Qed.

Lemma built_cyclic_iff (aliases : gmap string string) (dependencies : Dependencies)
    (st : sort_state) :
  built aliases dependencies st ->
  Graph.cyclic (sort_graph st) <-> dependency_cycle dependencies aliases.
Proof.
  intros Hbuilt. split.
  - intros [x Hx].
    destruct (built_reaches_depends _ _ _ _ _ Hbuilt Hx) as (a & b & Ha & Hb & Hba).
    assert (b = a) by congruence. subst b. now exists a.
  - intros [a Ha].
    destruct (built_depends_reaches _ _ _ _ _ Hbuilt Ha) as (u & v & Hu & Hv & Huv).
    assert (v = u).
    { destruct Hbuilt as (_ & _ & Hnodup & _). eapply lookup_unique; eassumption. }
    subst v. now exists u.
Qed.

Lemma dependencies_find_Some (dependencies : Dependencies) (name key : string)
    (maybe_dep : option string) :
  dependencies_find dependencies name = Some (key, maybe_dep) ->
  key = name /\ In (name, maybe_dep) dependencies.
Proof.
  induction dependencies as [|[key' maybe_dep'] rest IH]; simpl; [discriminate|].
  destruct (String.eqb_spec key' name) as [->|Hne].
  - intros [= <- <-]. split; [reflexivity|now left].
  - intros Hfind. destruct (IH Hfind) as [-> Hin]. split; [reflexivity|now right].
Qed.

Lemma is_key_In (dependencies : Dependencies) (name : string) :
  is_key dependencies name = true <-> In name (map fst dependencies).
Proof.
  unfold is_key. induction dependencies as [|[key maybe_dep] rest IH]; simpl.
  - split; [discriminate|tauto].
  - destruct (String.eqb_spec key name) as [->|Hne].
    + split; auto.
    + rewrite IH. split; [auto|]. intros [Heq|Hin]; [contradiction|exact Hin].
Qed.

Lemma NoDup_list_filter {A : Type} (f : A -> bool) (l : list A) :
  NoDup l -> NoDup (List.filter f l).
Proof.
  induction 1 as [|x l Hx _ IH]; simpl; [constructor|].
  destruct (f x); [|exact IH]. constructor; [|exact IH].
  intros Hin%list_elem_of_In. apply List.filter_In in Hin as [Hin _].
  now apply Hx, list_elem_of_In.
Qed.

(** The second loop: the names of the ordered vertices that are keys. *)
Lemma ordered_names_loop (dependencies : Dependencies) (indexes : Indexes)
    (order : list nat) :
  map fst indexes = seq 0 (length indexes) ->
  (forall index, In index order -> (index < length indexes)%nat) ->
  forall new_ordered_names : list string,
  foldM
    (fun (new_ordered_names : list string) (index : nat) =>
       match indexes_left_find indexes index with
       | None => Throw assertion_failed
       | Some name =>
         match dependencies_find dependencies name with
         | None => Ok new_ordered_names
         | Some values_it => Ok (new_ordered_names ++ [fst values_it])
         end
       end)
    order new_ordered_names =
  Ok (new_ordered_names ++
      List.filter (is_key dependencies) (map (name_at (map snd indexes)) order)).
Proof.
  intros Hseq. induction order as [|index order IH]; intros Hrange acc; simpl.
  - now rewrite app_nil_r.
  - assert (Hindex : (index < length indexes)%nat) by (apply Hrange; now left).
    specialize (IH (fun i Hi => Hrange i (or_intror Hi))).
    pose proof (indexes_left_find_seq indexes 0 index Hseq) as Hfind.
    simpl in Hfind. rewrite Hfind.
    destruct (map snd indexes !! index) as [name|] eqn:Hname.
    + assert (Hat : name_at (map snd indexes) index = name)
        by (unfold name_at; now rewrite Hname).
      rewrite Hat. unfold is_key at 1.
      destruct (dependencies_find dependencies name) as [[key maybe_dep]|] eqn:Hkey;
        cbn [mbind result_bind fst].
      * apply dependencies_find_Some in Hkey as [-> _].
        rewrite IH. now rewrite <- app_assoc.
      * apply IH.
    + apply lookup_ge_None in Hname. rewrite length_map in Hname. lia.
Qed.

Lemma filter_map_split (dependencies : Dependencies) (names : list string)
    (l1 l2 l3 : list nat) (u v : nat) :
  is_key dependencies (name_at names u) = true ->
  is_key dependencies (name_at names v) = true ->
  List.filter (is_key dependencies) (map (name_at names) (l1 ++ u :: l2 ++ v :: l3)) =
  List.filter (is_key dependencies) (map (name_at names) l1) ++
  name_at names u ::
  List.filter (is_key dependencies) (map (name_at names) l2) ++
  name_at names v ::
  List.filter (is_key dependencies) (map (name_at names) l3).
Proof.
  intros Hu Hv. rewrite map_app, List.filter_app. simpl. rewrite Hu.
  rewrite map_app, List.filter_app. simpl. now rewrite Hv.
Qed.

(** ** The message of a cycle *)

Lemma cycle_error_prefix (dependencies : Dependencies) (error : string) :
  exists rest,
    fold_left
      (fun (error : string) (entry : string * option string) =>
         let '(name, maybe_dep) := entry in
         let error := error +:+ ("{ " +:+ name) in
         let error :=
           match maybe_dep with
           | Some dep => error +:+ (" -> " +:+ dep)
           | None => error
           end in
         error +:+ " } ")
      dependencies error = error +:+ rest.
Proof.
  revert error. induction dependencies as [|[name maybe_dep] dependencies IH];
    intros error; cbn [fold_left].
  - exists ""%string. now rewrite string_append_nil_r.
  - destruct maybe_dep as [dep|].
    + destruct (IH (((error +:+ ("{ " +:+ name)) +:+ (" -> " +:+ dep)) +:+ " } ")%string)
        as [rest Hrest].
      eexists. etransitivity; [exact Hrest|].
      rewrite !string_append_assoc. reflexivity.
    + destruct (IH ((error +:+ ("{ " +:+ name)) +:+ " } ")%string) as [rest Hrest].
      eexists. etransitivity; [exact Hrest|].
      rewrite !string_append_assoc. reflexivity.
Qed.

(** The message holds the text written for every entry. *)
Lemma cycle_error_lists_entry (dependencies : Dependencies) (name : string)
    (maybe_dep : option string) :
  In (name, maybe_dep) dependencies ->
  exists before after,
    cycle_error dependencies =
    "Attributes given form a cycle: " +:+ before +:+ "{ " +:+ name +:+
    match maybe_dep with Some dep => " -> " +:+ dep | None => "" end +:+
    " } " +:+ after.
Proof.
  unfold cycle_error. generalize "Attributes given form a cycle: "%string.
  induction dependencies as [|[name' maybe_dep'] dependencies IH];
    intros error Hin; [contradiction|].
  cbn [fold_left]. destruct Hin as [[= -> ->]|Hin].
  - destruct maybe_dep as [dep|].
    + destruct (cycle_error_prefix dependencies
                  (((error +:+ ("{ " +:+ name)) +:+ (" -> " +:+ dep)) +:+ " } ")%string)
        as [rest Hrest].
      exists ""%string, rest. etransitivity; [exact Hrest|].
      now rewrite !string_append_assoc.
    + destruct (cycle_error_prefix dependencies
                  ((error +:+ ("{ " +:+ name)) +:+ " } ")%string) as [rest Hrest].
      exists ""%string, rest. etransitivity; [exact Hrest|].
      now rewrite !string_append_assoc.
  - destruct maybe_dep' as [dep'|].
    + destruct (IH (((error +:+ ("{ " +:+ name')) +:+ (" -> " +:+ dep')) +:+ " } ")%string
                  Hin) as (before & after & Hrest).
      exists ("{ " +:+ name' +:+ " -> " +:+ dep' +:+ " } " +:+ before)%string, after.
      etransitivity; [exact Hrest|]. now rewrite !string_append_assoc.
    + destruct (IH ((error +:+ ("{ " +:+ name')) +:+ " } ")%string Hin)
        as (before & after & Hrest).
      exists ("{ " +:+ name' +:+ " } " +:+ before)%string, after.
      etransitivity; [exact Hrest|]. now rewrite !string_append_assoc.
Qed.

Lemma clos_trans_first_step {A : Type} (R : A -> A -> Prop) (a b : A) :
  clos_trans A R a b -> exists c, R a c.
Proof. induction 1 as [a b H|a c b _ IH _ _]; [now exists b|exact IH]. Qed.

(** C2, as stated, fails: on the map that makes [a] depend on [zz], a name
    that is no value name of the map, the resolved relation has no cycle and
    the returned order is [a] alone, so [a] is not listed after its resolved
    dependency. *)
Lemma topological_sort_unlisted_dependency_counterexample :
  ~ dependency_cycle [("a"%string, Some "zz"%string)] ∅ /\
  topological_sort_with_aliases [("a"%string, Some "zz"%string)] ∅ = Ok ["a"%string] /\
  resolve_alias "zz" ∅ = "zz"%string /\
  ~ exists l1 l2 l3, ["a"%string] = l1 ++ "zz"%string :: l2 ++ "a"%string :: l3.
Proof.
  split; [|split; [vm_compute; reflexivity|split; [reflexivity|]]].
  - assert (Hstep : forall a b,
              depends_on [("a"%string, Some "zz"%string)] ∅ a b ->
              a = "a"%string /\ b = "zz"%string).
    { intros a b (dep & Hin & Hres).
      destruct Hin as [[= <- <-]|[]]. split; [reflexivity|]. now rewrite <- Hres. }
    assert (Hpath : forall a b,
              clos_trans string (depends_on [("a"%string, Some "zz"%string)] ∅) a b ->
              a = "a"%string /\ b = "zz"%string).
    { induction 1 as [a b H|a c b _ [-> _] _ [_ ->]]; [now apply Hstep|now split]. }
    intros [a Ha]. destruct (Hpath a a Ha) as [-> [=]].
  - intros (l1 & l2 & l3 & H).
    apply (f_equal (@length string)) in H.
    rewrite length_app in H. cbn [length] in H. rewrite length_app in H.
    cbn [length] in H. lia.
Qed.

(** C2 (amended): [topological_sort_with_aliases] on dependencies whose
    alias-resolved relation has no cycle returns an order that lists every
    value name once, every name after its resolved dependency when that is
    a value name too, and no resolved dependency that is no value name; on
    dependencies with a cycle it throws the runtime error whose message
    holds, for every attribute given and so for every attribute on a cycle,
    the name of the attribute with the dependency given for it. *)
Theorem topological_sort_with_aliases_correct (dependencies : Dependencies)
    (aliases : gmap string string) :
  (~ dependency_cycle dependencies aliases ->
   exists order,
     topological_sort_with_aliases dependencies aliases = Ok order /\
     NoDup order /\
     (forall name, In name order <-> In name (map fst dependencies)) /\
     (forall name dep,
        In (name, Some dep) dependencies ->
        In (resolve_alias dep aliases) (map fst dependencies) ->
        exists l1 l2 l3,
          order = l1 ++ resolve_alias dep aliases :: l2 ++ name :: l3) /\
     (forall name dep,
        In (name, Some dep) dependencies ->
        ~ In (resolve_alias dep aliases) (map fst dependencies) ->
        ~ In (resolve_alias dep aliases) order)) /\
  (dependency_cycle dependencies aliases ->
   topological_sort_with_aliases dependencies aliases =
     Throw (runtime_error (cycle_error dependencies))) /\
  (forall name maybe_dep,
     In (name, maybe_dep) dependencies ->
     exists before after,
       cycle_error dependencies =
       "Attributes given form a cycle: " +:+ before +:+ "{ " +:+ name +:+
       match maybe_dep with Some dep => " -> " +:+ dep | None => "" end +:+
       " } " +:+ after) /\
  (forall name,
     clos_trans string (depends_on dependencies aliases) name name ->
     exists dep before after,
       In (name, Some dep) dependencies /\
       cycle_error dependencies =
       "Attributes given form a cycle: " +:+ before +:+ "{ " +:+ name +:+
       " -> " +:+ dep +:+ " } " +:+ after).
Proof.
  assert (Hmessage : forall name maybe_dep,
     In (name, maybe_dep) dependencies ->
     exists before after,
       cycle_error dependencies =
       "Attributes given form a cycle: " +:+ before +:+ "{ " +:+ name +:+
       match maybe_dep with Some dep => " -> " +:+ dep | None => "" end +:+
       " } " +:+ after) by apply cycle_error_lists_entry.
  match goal with
  | |- ?acyclic /\ ?cyclic /\ _ =>
    cut (acyclic /\ cyclic);
      [intros [Hacyclic Hcyclic]; split; [exact Hacyclic|split; [exact Hcyclic|]]|]
  end.
  { split; [exact Hmessage|]. intros name Hcycle.
    destruct (clos_trans_first_step _ _ _ Hcycle) as (resolved & dep & Hin & _).
    destruct (Hmessage name (Some dep) Hin) as (before & after & Hin').
    now exists dep, before, after. }
  unfold topological_sort_with_aliases.
  set (st := fold_left (add_dependency aliases) dependencies (mkSort 0 [] Graph.empty)).
  assert (Hbuilt : built aliases dependencies st).
  { apply (fold_add_dependency_built aliases dependencies [] _ (built_init aliases)). }
  pose proof (topological_sort_outcome (sort_graph st) (built_wf _ _ _ Hbuilt)) as Hsort.
  pose proof (built_cyclic_iff _ _ _ Hbuilt) as Hcyclic.
  destruct (TopologicalSort.topological_sort (sort_graph st)) as [order|e].
  - destruct Hsort as (Hnodup & Hall & Hforward & Hacyclic).
    split; [|intros Hcycle; now apply Hcyclic in Hcycle].
    intros _. cbn [mbind result_bind].
    destruct Hbuilt as (Hi & Hseq & Hnames & Hvertices & Hedges & Hkeys & Hdeps).
    assert (Hlen : length (sort_names st) = Graph.num_vertices (sort_graph st)).
    { unfold sort_names. rewrite length_map. lia. }
    rewrite (ordered_names_loop dependencies (sort_indexes st) order).
    2: { now rewrite <- Hi. }
    2: { intros index Hindex%Hall. lia. }
    fold (sort_names st). simpl.
    assert (Hat : forall index name, sort_names st !! index = Some name ->
                                     name_at (sort_names st) index = name).
    { intros index name H. unfold name_at. now rewrite H. }
    eexists. split; [reflexivity|]. split; [|split; [|split]].
    + apply NoDup_list_filter.
      change (NoDup (name_at (sort_names st) <$> order)).
      apply NoDup_fmap_2_strong; [|exact Hnodup].
      intros i j Hi'%list_elem_of_In%Hall Hj'%list_elem_of_In%Hall Heq.
      destruct (lookup_lt_is_Some_2 (sort_names st) i ltac:(lia)) as [x Hx].
      destruct (lookup_lt_is_Some_2 (sort_names st) j ltac:(lia)) as [y Hy].
      rewrite (Hat _ _ Hx), (Hat _ _ Hy) in Heq. subst y.
      eapply lookup_unique; eassumption.
    + intros name. rewrite List.filter_In, is_key_In. split; [tauto|].
      intros Hkey. split; [|exact Hkey].
      apply in_map_iff in Hkey as ([name' maybe_dep] & <- & Hin).
      destruct (In_lookup _ _ (Hkeys _ _ Hin)) as [index Hindex].
      apply in_map_iff. exists index. split; [now apply Hat|].
      apply Hall. apply lookup_lt_Some in Hindex. lia.
    + intros name dep Hin Hkey.
      assert (Hdep : depends_on dependencies aliases name (resolve_alias dep aliases))
        by now exists dep.
      destruct (In_lookup _ _ (Hdeps _ _ Hdep)) as [u Hu].
      destruct (In_lookup _ _ (Hkeys _ _ Hin)) as [v Hv].
      assert (Hedge : Graph.edge (sort_graph st) u v).
      { apply Hedges. now exists name, (resolve_alias dep aliases). }
      destruct (before_split _ _ _ (Hforward u v Hedge)) as (l1 & l2 & l3 & ->).
      rewrite <- (Hat _ _ Hu), <- (Hat _ _ Hv).
      eexists _, _, _. apply filter_map_split.
      * rewrite (Hat _ _ Hu). now apply is_key_In.
      * rewrite (Hat _ _ Hv). apply is_key_In.
        apply in_map_iff. now exists (name, Some dep).
    + intros name dep _ Hkey [_ Hin]%List.filter_In. apply Hkey.
      now apply is_key_In.
  - destruct Hsort as [-> Hcycle]. split; [|reflexivity].
    intros Hacyclic. destruct Hacyclic. now apply Hcyclic.
Qed.

Lemma topological_sort_with_aliases_correct_witness :
  let dependencies : Dependencies :=
    [("depth", None); ("height", Some "w"); ("width", None)] in
  let aliases : gmap string string :=
    <["w" := "width"]> (<["h" := "height"]> (<["d" := "depth"]> ∅)) in
  let cyclic : Dependencies := [("height", Some "w"); ("width", Some "h")] in
  (~ dependency_cycle dependencies aliases /\
   exists order,
     topological_sort_with_aliases dependencies aliases = Ok order /\
     NoDup order /\
     (forall name, In name order <-> In name ["depth"; "height"; "width"]) /\
     exists l1 l2 l3, order = l1 ++ "width" :: l2 ++ "height" :: l3) /\
  dependency_cycle cyclic aliases /\
  topological_sort_with_aliases cyclic aliases =
    Throw (runtime_error
             "Attributes given form a cycle: { height -> w } { width -> h } ").
Proof.
  intros dependencies aliases cyclic. split.
  - assert (Hstep : forall a b, depends_on dependencies aliases a b ->
                                a = "height" /\ b = "width").
    { intros a b (dep & Hin & Hres).
      destruct Hin as [[=]|[[= <- <-]|[[=]|[]]]]. split; [reflexivity|].
      rewrite <- Hres. reflexivity. }
    assert (Hpath : forall a b, clos_trans string (depends_on dependencies aliases) a b ->
                                a = "height" /\ b = "width").
    { induction 1 as [a b H|a c b _ [-> _] _ [_ ->]]; [now apply Hstep|now split]. }
    assert (Hacyclic : ~ dependency_cycle dependencies aliases).
    { intros [a Ha]. destruct (Hpath a a Ha) as [-> [=]]. }
    split; [exact Hacyclic|].
    destruct (proj1 (topological_sort_with_aliases_correct dependencies aliases) Hacyclic)
      as (order & Hok & Hnodup & Hnames & Hafter & _).
    exists order. split; [exact Hok|]. split; [exact Hnodup|]. split; [exact Hnames|].
    apply (Hafter "height" "w"); [right; now left|right; right; now left].
  - assert (Hcycle : dependency_cycle cyclic aliases).
    { exists "height"%string. apply t_trans with "width"%string; apply t_step.
      - exists "w"%string. split; [now left|reflexivity].
      - exists "h"%string. split; [right; now left|reflexivity]. }
    split; [exact Hcycle|].
    exact (proj1 (proj2 (topological_sort_with_aliases_correct cyclic aliases)) Hcycle).
Defined.

(* ===================================================================== *)
(** * Part III: further properties of the code *)
(* ===================================================================== *)

(** ** The order of paths is a strict total order *)

Lemma ascii_compare_lt_trans (a b c : ascii) :
  Ascii.compare a b = Lt -> Ascii.compare b c = Lt -> Ascii.compare a c = Lt.
Proof.
  unfold Ascii.compare. rewrite !N.compare_lt_iff. lia.
Qed.

Lemma string_compare_lt_trans (a : string) :
  forall b c : string,
  String.compare a b = Lt -> String.compare b c = Lt -> String.compare a c = Lt.
Proof.
  induction a as [|x a IH]; intros [|y b] [|z c]; simpl; try congruence.
  destruct (Ascii.compare x y) eqn:Exy; try discriminate.
  - apply Ascii.compare_eq_iff in Exy. subst y.
    destruct (Ascii.compare x z); try congruence. apply IH.
  - intros _. destruct (Ascii.compare y z) eqn:Eyz; try discriminate.
    + apply Ascii.compare_eq_iff in Eyz. subst z. now rewrite Exy.
    + now rewrite (ascii_compare_lt_trans _ _ _ Exy Eyz).
Qed.

Lemma string_lt_trans (a b c : string) :
  string_lt a b = true -> string_lt b c = true -> string_lt a c = true.
Proof.
  unfold string_lt.
  destruct (String.compare a b) eqn:Eab; try discriminate.
  destruct (String.compare b c) eqn:Ebc; try discriminate.
  now rewrite (string_compare_lt_trans _ _ _ Eab Ebc).
Qed.

Lemma comparison_parts_lt_trans (ours : list string) :
  forall others thirds : list string,
  length ours = length others -> length others = length thirds ->
  Path.comparison_parts ours others = -1 ->
  Path.comparison_parts others thirds = -1 ->
  Path.comparison_parts ours thirds = -1.
Proof.
  induction ours as [|p ours IH]; intros [|q others] [|r thirds]; simpl;
    try discriminate.
  intros [= Hlen1] [= Hlen2]. unfold string_gt.
  destruct (string_lt q p) eqn:Eqp; [discriminate|].
  destruct (string_lt p q) eqn:Epq.
  - intros _.
    destruct (string_lt r q) eqn:Erq; [discriminate|].
    destruct (string_lt q r) eqn:Eqr.
    + intros _. rewrite (string_lt_trans _ _ _ Epq Eqr).
      now rewrite (string_lt_asym _ _ (string_lt_trans _ _ _ Epq Eqr)).
    + rewrite <- (string_lt_total _ _ Eqr Erq). now rewrite Eqp, Epq.
  - rewrite <- (string_lt_total _ _ Epq Eqp).
    destruct (string_lt r p); [discriminate|].
    destruct (string_lt p r); [reflexivity|]. now apply IH.
Qed.

Lemma comparison_parts_negative (ours others : list string) :
  (Path.comparison_parts ours others <? 0) = true ->
  Path.comparison_parts ours others = -1.
Proof.
  revert others. induction ours as [|p ours IH]; intros [|q others]; simpl;
    try discriminate.
  destruct (string_gt p q); [discriminate|].
  destruct (string_lt p q); [reflexivity|]. apply IH.
Qed.

Lemma path_ltb_trans (p q r : Path.t) :
  Path.ltb p q = true -> Path.ltb q r = true -> Path.ltb p r = true.
Proof.
  unfold Path.ltb, Path.comparison.
  destruct (Nat.ltb_spec (Path.size q) (Path.size p)); [intros D; discriminate D|].
  destruct (Nat.ltb_spec (Path.size r) (Path.size q)); [intros _ D; discriminate D|].
  destruct (Nat.ltb_spec (Path.size p) (Path.size q)) as [Hpq|Hpq];
    destruct (Nat.ltb_spec (Path.size q) (Path.size r)) as [Hqr|Hqr];
    destruct (Nat.ltb_spec (Path.size r) (Path.size p)) as [Hrp|Hrp];
    destruct (Nat.ltb_spec (Path.size p) (Path.size r)) as [Hpr|Hpr];
    try lia; try reflexivity.
  intros L1 L2.
  apply comparison_parts_negative in L1, L2.
  unfold Path.size in *.
  rewrite (comparison_parts_lt_trans (Path.m_parts p) (Path.m_parts q) (Path.m_parts r)
             ltac:(lia) ltac:(lia) L1 L2). reflexivity.
Qed.

Lemma path_eqb_eq (p q : Path.t) : Path.eqb p q = true <-> p = q.
Proof.
  split.
  - unfold Path.eqb. intros H. apply Z.eqb_eq in H.
    apply path_ltb_total; unfold Path.ltb.
    + rewrite H. reflexivity.
    + rewrite (comparison_antisym p q), H. reflexivity.
  - intros <-. unfold Path.eqb.
    pose proof (path_ltb_irrefl p) as H. unfold Path.ltb in H.
    pose proof (comparison_antisym p p). lia.
Qed.

(** X1.  [operator<] on paths is a strict total order, [operator==] holds
    exactly for paths with the same parts, and a path with fewer parts is
    less than a path with more parts. *)
Theorem path_less_strict_total_order (p q r : Path.t) :
  Path.ltb p p = false /\
  (Path.ltb p q = true -> Path.ltb q r = true -> Path.ltb p r = true) /\
  (Path.ltb p q = true \/ p = q \/ Path.ltb q p = true) /\
  (Path.eqb p q = true <-> p = q) /\
  ((Path.size p < Path.size q)%nat -> Path.ltb p q = true).
Proof.
  split; [apply path_ltb_irrefl|].
  split; [apply path_ltb_trans|].
  split.
  { destruct (Path.ltb p q) eqn:E1; [now left|].
    destruct (Path.ltb q p) eqn:E2; [now right; right|].
    right; left. now apply path_ltb_total. }
  split; [apply path_eqb_eq|].
  intros H. unfold Path.ltb, Path.comparison.
  destruct (Nat.ltb_spec (Path.size q) (Path.size p)); [lia|].
  destruct (Nat.ltb_spec (Path.size p) (Path.size q)); [reflexivity|lia].
Qed.

(** ** Ancestors and descendants *)

Lemma starts_with_prefix (ours others : list string) :
  Path.starts_with ours others = true <-> exists rest, ours = others ++ rest.
Proof.
  revert ours. induction others as [|q others IH]; intros ours; simpl.
  - split; [intros _; now exists ours | now destruct ours].
  - destruct ours as [|p ours].
    + split; [discriminate | intros [rest H]; discriminate H].
    + simpl. rewrite andb_true_iff, String.eqb_eq, IH. split.
      * intros [-> [rest ->]]. now exists rest.
      * intros [rest [= -> ->]]. split; [reflexivity | now exists rest].
Qed.

Lemma descendant_iff_prefix (this other : Path.t) (or_are_same : bool) :
  Path.is_descendant_of this other or_are_same = true <->
  exists rest,
    Path.m_parts this = Path.m_parts other ++ rest /\
    (or_are_same = false -> rest <> []).
Proof.
  unfold Path.is_descendant_of, Path.size.
  destruct (Nat.ltb_spec (length (Path.m_parts this)) (length (Path.m_parts other)))
    as [Hlt|Hge].
  { split; [discriminate|]. intros [rest [H _]]. rewrite H, length_app in Hlt. lia. }
  destruct (Nat.eqb_spec (length (Path.m_parts other)) (length (Path.m_parts this)))
    as [Heq|Hne]; destruct or_are_same; simpl.
  - rewrite starts_with_prefix. split.
    + intros [rest H]. exists rest. split; [exact H | discriminate].
    + intros [rest [H _]]. now exists rest.
  - split; [discriminate|]. intros [rest [H Hrest]].
    rewrite H, length_app in Heq. destruct rest; [now destruct Hrest | simpl in Heq; lia].
  - rewrite starts_with_prefix. split.
    + intros [rest H]. exists rest. split; [exact H | discriminate].
    + intros [rest [H _]]. now exists rest.
  - rewrite starts_with_prefix. split.
    + intros [rest H]. exists rest. split; [exact H|].
      intros _ ->. rewrite H, app_nil_r in Hne. now destruct Hne.
    + intros [rest [H _]]. now exists rest.
Qed.

(** X2.  A path descends from another exactly when the parts of the other
    are a prefix of its parts, a proper prefix unless the two may be the
    same. *)
Theorem is_descendant_of_prefix (this other : Path.t) (or_are_same : bool) :
  Path.is_descendant_of this other or_are_same = true <->
  exists rest,
    Path.m_parts this = Path.m_parts other ++ rest /\
    (or_are_same = false -> rest <> []).
Proof. exact (descendant_iff_prefix this other or_are_same). Qed.

Lemma removelast_snoc (parts : list string) (part : string) :
  removelast (parts ++ [part]) = parts.
Proof. now rewrite removelast_app, app_nil_r. Qed.

Lemma nth_snoc (parts : list string) (part : string) :
  nth (length parts) (parts ++ [part]) "" = part.
Proof. rewrite app_nth2, Nat.sub_diag; [reflexivity | lia]. Qed.

(** X3.  Appending a part gives a child whose last part is the appended
    one and whose parent, by [without_last], is the path appended to; and
    every child of a path is that path with one part appended. *)
Theorem path_append_child_round_trip (this : Path.t) (part : string) :
  Path.without_last (Path.append this part) = this /\
  Path.last (Path.append this part) = part /\
  Path.is_child_of (Path.append this part) this = true /\
  (forall other : Path.t,
     Path.is_child_of other this = true <->
     other = Path.append this (Path.last other)).
Proof.
  destruct this as [parts].
  assert (Hchild : forall part, Path.is_child_of (Path.append (Path.mk parts) part)
                                  (Path.mk parts) = true).
  { intros part'. unfold Path.is_child_of. apply andb_true_iff. split.
    - unfold Path.size, Path.append; simpl. rewrite length_app. simpl.
      apply Nat.eqb_refl.
    - apply descendant_iff_prefix. exists [part']. split; [reflexivity | discriminate]. }
  assert (Hlast : forall part, Path.last (Path.append (Path.mk parts) part) = part).
  { intros part'. unfold Path.last, Path.append, Path.empty, Path.size; simpl.
    destruct (parts ++ [part']) eqn:E; [now destruct parts|]. rewrite <- E.
    rewrite length_app; simpl.
    replace (length parts + 1 - 1)%nat with (length parts) by lia.
    apply nth_snoc. }
  split; [|split; [|split]].
  - unfold Path.without_last, Path.append; simpl. now rewrite removelast_snoc.
  - apply Hlast.
  - apply Hchild.
  - intros other. split.
    + unfold Path.is_child_of. rewrite andb_true_iff, Nat.eqb_eq.
      intros [Hsize Hdesc]. apply descendant_iff_prefix in Hdesc.
      destruct Hdesc as [rest [Hparts _]]. destruct other as [others].
      unfold Path.size in Hsize; simpl in *. subst others.
      rewrite length_app in Hsize.
      destruct rest as [|part' [|]]; simpl in Hsize; try lia.
      change (Path.mk (parts ++ [part'])) with (Path.append (Path.mk parts) part').
      now rewrite Hlast.
    + intros ->. apply Hchild.
Qed.

(** ** Ancestor paths *)

(** The prefix of [k] parts of a path. *)
Lemma removelast_take (k : nat) (parts : list string) :
  (S k <= length parts)%nat -> removelast (take (S k) parts) = take k parts.
Proof.
  revert parts. induction k as [|k IH]; intros [|p parts] H; simpl in *; try lia.
  - now destruct parts.
  - destruct parts as [|p' parts]; simpl in *; [lia|].
    f_equal. apply (IH (p' :: parts)). simpl. lia.
Qed.

Lemma removelast_all (parts : list string) :
  removelast parts = take (length parts - 1) parts.
Proof.
  destruct parts as [|p parts]; [reflexivity|].
  rewrite <- (firstn_all (p :: parts)) at 1.
  simpl length. rewrite Nat.sub_succ, Nat.sub_0_r.
  apply removelast_take. simpl. lia.
Qed.

Lemma ancestor_paths_loop_prefixes (parts : list string) (k : nat) :
  forall (fuel : nat) (paths : list Path.t),
  (k < fuel)%nat -> (k <= length parts)%nat ->
  Path.ancestor_paths_loop fuel (Path.mk (take k parts)) paths =
  Ok (paths ++ map (fun k => Path.mk (take k parts)) (rev (seq 1 k))).
Proof.
  induction k as [|k IH]; intros [|fuel] paths Hfuel Hk; try lia.
  - simpl. now rewrite app_nil_r.
  - cbn [Path.ancestor_paths_loop].
    assert (Hne : Path.empty (Path.mk (take (S k) parts)) = false).
    { unfold Path.empty; simpl. destruct parts; [simpl in Hk; lia | reflexivity]. }
    rewrite Hne. cbn [negb].
    unfold Path.without_last at 1. cbn [Path.m_parts].
    rewrite removelast_take by lia.
    rewrite IH by lia.
    rewrite seq_S, rev_app_distr. simpl. now rewrite <- app_assoc.
Qed.

(** X4.  [ancestor_paths] returns, after the path itself when asked for,
    the proper prefixes of the path that have a part, the longest first. *)
Theorem ancestor_paths_prefixes (this : Path.t) (including_self : bool) :
  Path.ancestor_paths this including_self =
  Ok ((if including_self then [this] else []) ++
      map (fun k => Path.mk (take k (Path.m_parts this)))
          (rev (seq 1 (Path.size this - 1)))).
Proof.
  unfold Path.ancestor_paths, Path.without_last, Path.size.
  rewrite removelast_all.
  rewrite ancestor_paths_loop_prefixes by lia.
  now destruct including_self.
Qed.

(** ** The common ancestor of two paths *)

Lemma mismatch_comm (ours others : list string) :
  Path.mismatch ours others = Path.mismatch others ours.
Proof.
  revert others. induction ours as [|p ours IH]; intros [|q others]; simpl;
    try reflexivity.
  rewrite (String.eqb_sym q p). destruct (String.eqb p q); [|reflexivity].
  now rewrite IH.
Qed.

Lemma take_mismatch (ours others : list string) :
  take (Path.mismatch ours others) ours = take (Path.mismatch ours others) others.
Proof.
  revert others. induction ours as [|p ours IH]; intros [|q others]; simpl;
    try reflexivity.
  destruct (String.eqb_spec p q) as [->|]; [|reflexivity].
  simpl. now rewrite IH.
Qed.

Lemma mismatch_le (ours others : list string) :
  (Path.mismatch ours others <= length ours)%nat.
Proof.
  revert others. induction ours as [|p ours IH]; intros [|q others]; simpl; try lia.
  destruct (String.eqb p q); [|lia]. specialize (IH others). lia.
Qed.

(** A common prefix is not longer than the position of the mismatch. *)
Lemma prefix_mismatch (prefix : list string) :
  forall rest rest' : list string,
  (length prefix <= Path.mismatch (prefix ++ rest) (prefix ++ rest'))%nat.
Proof.
  induction prefix as [|p prefix IH]; intros rest rest'; simpl; [lia|].
  rewrite String.eqb_refl. specialize (IH rest rest'). lia.
Qed.

(** X5.  The common ancestor of two paths is their longest common prefix:
    it is the same from either side, both paths descend from it or are it,
    every path both descend from (or are) is an ancestor of it or is it, and
    it splits a path into itself and [without_common_ancestor]. *)
Theorem common_ancestor_longest_common_prefix (this other : Path.t) :
  let common := Path.common_ancestor_with this other in
  Path.common_ancestor_with other this = common /\
  Path.append_path common (Path.without_common_ancestor this other) = this /\
  Path.is_descendant_of this common true = true /\
  Path.is_descendant_of other common true = true /\
  (forall path : Path.t,
     Path.is_descendant_of this path true = true ->
     Path.is_descendant_of other path true = true ->
     Path.is_descendant_of common path true = true).
Proof.
  destruct this as [ours], other as [others].
  unfold Path.common_ancestor_with, Path.without_common_ancestor,
    Path.after_common_ancestor, Path.append_path; cbn [Path.m_parts].
  assert (Hsym : Path.mk (take (Path.mismatch others ours) others) =
                 Path.mk (take (Path.mismatch ours others) ours)).
  { now rewrite (mismatch_comm others ours), take_mismatch. }
  split; [exact Hsym|].
  split; [now rewrite take_drop|].
  split.
  { apply descendant_iff_prefix. exists (drop (Path.mismatch ours others) ours).
    split; [simpl; now rewrite take_drop | discriminate]. }
  split.
  { apply descendant_iff_prefix. exists (drop (Path.mismatch ours others) others).
    split; [simpl; now rewrite take_mismatch, take_drop | discriminate]. }
  intros [prefix] H1 H2.
  apply descendant_iff_prefix in H1. destruct H1 as [rest [H1 _]].
  apply descendant_iff_prefix in H2. destruct H2 as [rest' [H2 _]].
  simpl in H1, H2. subst ours others.
  apply descendant_iff_prefix.
  exists (take (Path.mismatch (prefix ++ rest) (prefix ++ rest') - length prefix) rest).
  split; [|discriminate]. simpl.
  pose proof (prefix_mismatch prefix rest rest').
  rewrite take_app. rewrite take_ge by lia. reflexivity.
Qed.

(** ** The paths between two paths *)

Lemma prefix_iff_mismatch (parts others : list string) (k : nat) :
  (k <= length parts)%nat ->
  (exists rest, others = take k parts ++ rest) <->
  (k <= Path.mismatch parts others)%nat.
Proof.
  intros Hk. split.
  - intros [rest ->].
    pose proof (prefix_mismatch (take k parts) (drop k parts) rest) as H.
    rewrite take_drop, length_take in H. lia.
  - intros Hle. exists (drop k others).
    assert (H : take k parts = take k others).
    { replace k with (Nat.min k (Path.mismatch parts others)) by lia.
      rewrite <- !take_take. now rewrite take_mismatch. }
    rewrite H. now rewrite take_drop.
Qed.

Lemma paths_between_loop_prefixes (path : Path.t) (parts : list string) (k : nat) :
  forall (fuel : nat) (intermediate_paths : list Path.t),
  (k < fuel)%nat -> (k <= length parts)%nat ->
  let common := Nat.min k (Path.mismatch parts (Path.m_parts path)) in
  Path.paths_between_loop fuel path (Path.mk (take k parts)) intermediate_paths =
  Ok (intermediate_paths ++
      map (fun k => Path.mk (take k parts)) (rev (seq (S common) (k - common)))).
Proof.
  induction k as [|k IH]; intros [|fuel] intermediate_paths Hfuel Hk common;
    try lia; cbn [Path.paths_between_loop].
  - assert (H : Path.is_descendant_of path (Path.mk (take 0 parts)) true = true).
    { apply descendant_iff_prefix. exists (Path.m_parts path).
      split; [reflexivity | discriminate]. }
    rewrite H. simpl. now rewrite app_nil_r.
  - destruct (Path.is_descendant_of path (Path.mk (take (S k) parts)) true) eqn:E;
      cbn [negb].
    + apply descendant_iff_prefix in E. destruct E as [rest [E _]].
      cbn [Path.m_parts] in E.
      assert (H : (S k <= Path.mismatch parts (Path.m_parts path))%nat).
      { apply prefix_iff_mismatch; [exact Hk | now exists rest]. }
      subst common. rewrite Nat.min_l by lia. rewrite Nat.sub_diag. simpl.
      now rewrite app_nil_r.
    + assert (H : (Path.mismatch parts (Path.m_parts path) < S k)%nat).
      { destruct (Nat.lt_ge_cases (Path.mismatch parts (Path.m_parts path)) (S k))
          as [Hlt|Hge]; [exact Hlt|].
        apply (prefix_iff_mismatch parts (Path.m_parts path) (S k) Hk) in Hge.
        destruct Hge as [rest Hrest].
        assert (D : Path.is_descendant_of path (Path.mk (take (S k) parts)) true = true).
        { apply descendant_iff_prefix. exists rest. split; [exact Hrest | discriminate]. }
        congruence. }
      unfold Path.without_last at 1. cbn [Path.m_parts].
      rewrite removelast_take by lia.
      rewrite IH by lia.
      subst common. rewrite !Nat.min_r by lia.
      replace (S k - Path.mismatch parts (Path.m_parts path))%nat
        with (S (k - Path.mismatch parts (Path.m_parts path))) by lia.
      rewrite seq_S, rev_app_distr. simpl.
      replace (S (Path.mismatch parts (Path.m_parts path) +
                  (k - Path.mismatch parts (Path.m_parts path))))%nat
        with (S k) by lia.
      now rewrite <- app_assoc.
Qed.

(** X6.  [paths_between] returns, after the path itself when asked for,
    the proper prefixes of the path that are longer than what it has in
    common with the other path, the longest first; the loop ends at the
    latest at the empty path. *)
Theorem paths_between_prefixes (this path : Path.t) (including_self : bool) :
  let common :=
    Nat.min (Path.size this - 1) (Path.after_common_ancestor this path) in
  Path.paths_between this path including_self =
  Ok ((if including_self then [this] else []) ++
      map (fun k => Path.mk (take k (Path.m_parts this)))
          (rev (seq (S common) (Path.size this - 1 - common)))).
Proof.
  intros common. subst common.
  unfold Path.paths_between, Path.after_common_ancestor, Path.size.
  destruct (Path.empty this) eqn:E.
  - unfold Path.empty in E. destruct (Path.m_parts this); [|discriminate].
    simpl. destruct including_self; reflexivity.
  - unfold Path.without_last. rewrite removelast_all.
    rewrite paths_between_loop_prefixes by lia.
    now destruct including_self.
Qed.

(** ** Bounding boxes *)

Lemma f32_ltb_irrefl (a : float) : F32.ltb a a = false.
Proof.
  unfold F32.ltb, SFltb. destruct a as [s| s| |s m e]; simpl; try reflexivity.
  - now destruct s.
  - change (PosDef.Pos.compare_cont Eq m m) with (m ?= m)%positive.
    destruct s; rewrite Z.compare_refl, Pos.compare_refl; reflexivity.
Qed.

Lemma f32_compare_lt_trans (a b c : float) :
  SFcompare a b = Some Lt -> SFcompare b c = Some Lt -> SFcompare a c = Some Lt.
Proof.
  destruct a as [sa| sa| |sa ma ea], b as [sb| sb| |sb mb eb],
           c as [sc| sc| |sc mc ec]; simpl;
    try destruct sa; try destruct sb; try destruct sc; simpl;
    try discriminate; try reflexivity.
  - change (PosDef.Pos.compare_cont Eq ma mb) with (ma ?= mb)%positive.
    change (PosDef.Pos.compare_cont Eq mb mc) with (mb ?= mc)%positive.
    change (PosDef.Pos.compare_cont Eq ma mc) with (ma ?= mc)%positive.
    destruct (Z.compare_spec ea eb) as [Eab|Hab|Hab]; try discriminate;
      destruct (Z.compare_spec eb ec) as [Ebc|Hbc|Hbc]; try discriminate;
      destruct (Z.compare_spec ea ec) as [Eac|Hac|Hac]; try lia; try reflexivity.
    destruct (Pos.compare_spec ma mb); try discriminate.
    destruct (Pos.compare_spec mb mc); try discriminate.
    destruct (Pos.compare_spec ma mc); try lia. reflexivity.
  - change (PosDef.Pos.compare_cont Eq ma mb) with (ma ?= mb)%positive.
    change (PosDef.Pos.compare_cont Eq mb mc) with (mb ?= mc)%positive.
    change (PosDef.Pos.compare_cont Eq ma mc) with (ma ?= mc)%positive.
    destruct (Z.compare_spec ea eb) as [Eab|Hab|Hab]; try discriminate;
      destruct (Z.compare_spec eb ec) as [Ebc|Hbc|Hbc]; try discriminate;
      destruct (Z.compare_spec ea ec) as [Eac|Hac|Hac]; try lia; try reflexivity.
    destruct (Pos.compare_spec ma mb); try discriminate.
    destruct (Pos.compare_spec mb mc); try discriminate.
    destruct (Pos.compare_spec ma mc); try lia. reflexivity.
Qed.

Lemma f32_ltb_trans (a b c : float) :
  F32.ltb a b = true -> F32.ltb b c = true -> F32.ltb a c = true.
Proof.
  unfold F32.ltb, SFltb.
  destruct (SFcompare a b) as [[| |]|] eqn:E1; try discriminate.
  destruct (SFcompare b c) as [[| |]|] eqn:E2; try discriminate.
  now rewrite (f32_compare_lt_trans _ _ _ E1 E2).
Qed.

Lemma f32_ltb_asym (a b : float) : F32.ltb a b = true -> F32.ltb b a = false.
Proof. apply (f32_gtb_asym b a). Qed.

Lemma f32_min_step (v p m : float) :
  F32.ltb v m = false -> F32.ltb v (if F32.ltb p m then p else m) = false.
Proof.
  intros H. destruct (F32.ltb p m) eqn:E; [|exact H].
  destruct (F32.ltb v p) eqn:E2; [|reflexivity].
  now rewrite (f32_ltb_trans _ _ _ E2 E) in H.
Qed.

Lemma f32_max_step (v p m : float) :
  F32.gtb v m = false -> F32.gtb v (if F32.gtb p m then p else m) = false.
Proof.
  unfold F32.gtb. intros H. fold (F32.ltb m p) (F32.ltb m v) in *.
  destruct (F32.ltb m p) eqn:E; [|exact H].
  fold (F32.ltb p v). destruct (F32.ltb p v) eqn:E2; [|reflexivity].
  now rewrite (f32_ltb_trans _ _ _ E E2) in H.
Qed.

Lemma f32_not_below_inf (a : float) :
  F32.isnan a = false -> F32.ltb a F32.inf = false -> a = F32.inf.
Proof. destruct a as [[|]|[|]| |[|] m e]; cbv; congruence. Qed.

Lemma f32_not_above_neg_inf (a : float) :
  F32.isnan a = false -> F32.gtb a (F32.neg F32.inf) = false -> a = F32.neg F32.inf.
Proof. destruct a as [[|]|[|]| |[|] m e]; cbv; congruence. Qed.

Lemma compute_bounds_step_get (acc : Point.t * Point.t) (pt : Point.t) (axis : Axis) :
  Point.get (fst (Geometry.compute_bounds_step acc pt)) axis =
    (if F32.ltb (Point.get pt axis) (Point.get (fst acc) axis)
     then Point.get pt axis else Point.get (fst acc) axis) /\
  Point.get (snd (Geometry.compute_bounds_step acc pt)) axis =
    (if F32.gtb (Point.get pt axis) (Point.get (snd acc) axis)
     then Point.get pt axis else Point.get (snd acc) axis).
Proof. destruct acc, axis; split; reflexivity. Qed.

Lemma compute_bounds_step_encloses (acc : Point.t * Point.t) (pt v : Point.t) :
  Bounds.encloses (Bounds.mk acc) v ->
  Bounds.encloses (Bounds.mk (Geometry.compute_bounds_step acc pt)) v.
Proof.
  intros H axis. destruct (H axis) as [Hmin Hmax].
  destruct (compute_bounds_step_get acc pt axis) as [Emin Emax].
  unfold Bounds.base, Bounds.end_ in *. cbn [Bounds.m_coords] in *.
  rewrite Emin, Emax. split; [now apply f32_min_step | now apply f32_max_step].
Qed.

Lemma compute_bounds_step_encloses_new (acc : Point.t * Point.t) (pt : Point.t) :
  Bounds.encloses (Bounds.mk (Geometry.compute_bounds_step acc pt)) pt.
Proof.
  intros axis. destruct (compute_bounds_step_get acc pt axis) as [Emin Emax].
  unfold Bounds.base, Bounds.end_. cbn [Bounds.m_coords].
  rewrite Emin, Emax. split.
  - destruct (F32.ltb (Point.get pt axis) (Point.get (fst acc) axis)) eqn:E;
      [apply f32_ltb_irrefl | exact E].
  - destruct (F32.gtb (Point.get pt axis) (Point.get (snd acc) axis)) eqn:E;
      [apply f32_ltb_irrefl | exact E].
Qed.

Lemma compute_bounds_fold_encloses (vertexes : list Point.t) :
  forall (acc : Point.t * Point.t) (v : Point.t),
  Bounds.encloses (Bounds.mk acc) v \/ In v vertexes ->
  Bounds.encloses
    (Bounds.mk (fold_left Geometry.compute_bounds_step vertexes acc)) v.
Proof.
  induction vertexes as [|pt vertexes IH]; intros acc v H; simpl.
  - destruct H as [H|[]]. exact H.
  - apply IH. destruct H as [H|[->|H]].
    + left. now apply compute_bounds_step_encloses.
    + left. apply compute_bounds_step_encloses_new.
    + now right.
Qed.

(** The extreme coordinates of a step are those of the accumulator or of the
    new point. *)
Lemma compute_bounds_fold_attained (axis : Axis) (vertexes : list Point.t) :
  forall (acc : Point.t * Point.t) (seen : list float),
  In (Point.get (fst acc) axis) seen -> In (Point.get (snd acc) axis) seen ->
  let result := fold_left Geometry.compute_bounds_step vertexes acc in
  In (Point.get (fst result) axis) (seen ++ map (fun vertex => Point.get vertex axis) vertexes) /\
  In (Point.get (snd result) axis) (seen ++ map (fun vertex => Point.get vertex axis) vertexes).
Proof.
  induction vertexes as [|pt vertexes IH]; intros acc seen Hmin Hmax; simpl.
  - rewrite app_nil_r. now split.
  - destruct (compute_bounds_step_get acc pt axis) as [Emin Emax].
    specialize (IH (Geometry.compute_bounds_step acc pt)
                   (seen ++ [Point.get pt axis])).
    rewrite <- app_assoc in IH. simpl in IH. apply IH.
    + rewrite Emin. apply in_or_app.
      destruct (F32.ltb _ _); [right; now left | now left].
    + rewrite Emax. apply in_or_app.
      destruct (F32.gtb _ _); [right; now left | now left].
Qed.

Lemma point_get_not_nan (pt : Point.t) (axis : Axis) :
  Point.is_nan pt = false -> F32.isnan (Point.get pt axis) = false.
Proof.
  unfold Point.is_nan. intros H. apply orb_false_iff in H. destruct H as [H Hz].
  apply orb_false_iff in H. destruct H as [Hx Hy]. now destruct axis.
Qed.

(** X7.  The bounds computed for the vertexes of a geometry enclose every
    vertex; when there is a vertex and no coordinate is a NaN, the bounds
    are tight: each coordinate of each corner is the coordinate of a
    vertex. *)
Theorem compute_bounds_encloses_vertexes (vertexes : list Point.t) :
  let bounds := Geometry.compute_bounds vertexes in
  Forall (Bounds.encloses bounds) vertexes /\
  (vertexes <> [] ->
   Forall (fun vertex => Point.is_nan vertex = false) vertexes ->
   forall axis : Axis,
     In (Point.get (Bounds.base bounds) axis)
        (map (fun vertex => Point.get vertex axis) vertexes) /\
     In (Point.get (Bounds.end_ bounds) axis)
        (map (fun vertex => Point.get vertex axis) vertexes)).
Proof.
  intros bounds. subst bounds. split.
  - apply List.Forall_forall. intros v Hv.
    destruct vertexes as [|pt vertexes]; [destruct Hv|].
    unfold Geometry.compute_bounds.
    apply compute_bounds_fold_encloses. now right.
  - intros Hne Hnan axis.
    destruct vertexes as [|pt vertexes]; [now destruct Hne|].
    unfold Geometry.compute_bounds, Bounds.base, Bounds.end_.
    cbn [Bounds.m_coords fold_left map].
    set (acc := (Point.mk F32.inf F32.inf F32.inf,
                 Point.mk (F32.neg F32.inf) (F32.neg F32.inf) (F32.neg F32.inf))).
    destruct (compute_bounds_step_get acc pt axis) as [Emin Emax].
    inversion Hnan as [|? ? Hpt _]; subst.
    pose proof (point_get_not_nan pt axis Hpt) as Hget.
    apply (compute_bounds_fold_attained axis vertexes
             (Geometry.compute_bounds_step acc pt) [Point.get pt axis]).
    + rewrite Emin. left.
      destruct (F32.ltb (Point.get pt axis) (Point.get (fst acc) axis)) eqn:E;
        [reflexivity|].
      assert (Hinf : Point.get (fst acc) axis = F32.inf) by now destruct axis.
      rewrite Hinf in *. now apply f32_not_below_inf.
    + rewrite Emax. left.
      destruct (F32.gtb (Point.get pt axis) (Point.get (snd acc) axis)) eqn:E;
        [reflexivity|].
      assert (Hinf : Point.get (snd acc) axis = F32.neg F32.inf) by now destruct axis.
      rewrite Hinf in *. now apply f32_not_above_neg_inf.
Qed.

Lemma bounds_add_assign_get (a b : Bounds.t) (axis : Axis) :
  Bounds.is_zero a = false ->
  Point.get (Bounds.base (Bounds.add a b)) axis =
    (if F32.gtb (Point.get (Bounds.base a) axis) (Point.get (Bounds.base b) axis)
     then Point.get (Bounds.base b) axis else Point.get (Bounds.base a) axis) /\
  Point.get (Bounds.end_ (Bounds.add a b)) axis =
    (if F32.gtb (Point.get (Bounds.end_ a) axis) (Point.get (Bounds.end_ b) axis)
     then Point.get (Bounds.end_ a) axis else Point.get (Bounds.end_ b) axis).
Proof.
  unfold Bounds.is_zero, Bounds.add, Bounds.add_assign. intros ->.
  destruct a as [[[ax ay az] [ax' ay' az']]], b as [[[bx by_ bz] [bx' by' bz']]].
  destruct axis; split; reflexivity.
Qed.

(** X8.  The union of two bounds: when the left operand is the zero-zero
    bounds the union is the right operand; otherwise, on every axis, the
    base of the union is the smaller of the two bases and its end the
    larger of the two ends, so neither base lies below it and neither end
    above it. *)
Theorem bounds_union_encloses (a b : Bounds.t) :
  let union := Bounds.add a b in
  (Bounds.is_zero a = true -> union = b) /\
  (Bounds.is_zero a = false ->
   forall axis : Axis,
     let base_of (bounds : Bounds.t) := Point.get (Bounds.base bounds) axis in
     let end_of (bounds : Bounds.t) := Point.get (Bounds.end_ bounds) axis in
     (base_of union = base_of a \/ base_of union = base_of b) /\
     (end_of union = end_of a \/ end_of union = end_of b) /\
     F32.ltb (base_of a) (base_of union) = false /\
     F32.ltb (base_of b) (base_of union) = false /\
     F32.gtb (end_of a) (end_of union) = false /\
     F32.gtb (end_of b) (end_of union) = false).
Proof.
  intros union. subst union. split.
  - unfold Bounds.is_zero, Bounds.add, Bounds.add_assign. intros ->. now destruct b.
  - intros Hzero axis base_of end_of. subst base_of end_of. cbv beta.
    destruct (bounds_add_assign_get a b axis Hzero) as [Ebase Eend].
    rewrite Ebase, Eend. unfold F32.gtb. change SFltb with F32.ltb.
    set (base_a := Point.get (Bounds.base a) axis).
    set (base_b := Point.get (Bounds.base b) axis).
    set (end_a := Point.get (Bounds.end_ a) axis).
    set (end_b := Point.get (Bounds.end_ b) axis).
    destruct (F32.ltb base_b base_a) eqn:E1; destruct (F32.ltb end_b end_a) eqn:E2;
      repeat split; auto using f32_ltb_irrefl, f32_ltb_asym.
Qed.

Lemma f32_min_max_ordered (a b : float) :
  F32.gtb (F32.min a b) (F32.max a b) = false /\
  F32.ltb a (F32.min a b) = false /\ F32.gtb a (F32.max a b) = false /\
  F32.ltb b (F32.min a b) = false /\ F32.gtb b (F32.max a b) = false.
Proof.
  unfold F32.min, F32.max, F32.gtb. change SFltb with F32.ltb.
  destruct (F32.ltb b a) eqn:E1.
  - rewrite (f32_ltb_asym _ _ E1). repeat split; auto using f32_ltb_irrefl, f32_ltb_asym.
  - destruct (F32.ltb a b) eqn:E2; repeat split; auto using f32_ltb_irrefl, f32_ltb_asym.
Qed.

Lemma bounds_rotate_around_get (this : Bounds.t) (rotation_pt : Point.t)
    (rotation : Rotation.t) (axis : Axis) :
  let rotated := Bounds_rotate_around this rotation_pt rotation in
  let calc_base := Rotation.rotate_coord rotation rotation_pt (Bounds.base this) in
  let calc_end := Rotation.rotate_coord rotation rotation_pt (Bounds.end_ this) in
  Point.get (Bounds.base rotated) axis =
    F32.min (Point.get calc_base axis) (Point.get calc_end axis) /\
  Point.get (Bounds.end_ rotated) axis =
    F32.max (Point.get calc_base axis) (Point.get calc_end axis).
Proof. destruct axis; split; reflexivity. Qed.

(** X9.  Rotated bounds are put in order again: on every axis the base is
    not above the end, and the bounds enclose the rotated base corner and
    the rotated end corner. *)
Theorem bounds_rotate_around_ordered (this : Bounds.t) (rotation_pt : Point.t)
    (rotation : Rotation.t) :
  let rotated := Bounds_rotate_around this rotation_pt rotation in
  let calc_base := Rotation.rotate_coord rotation rotation_pt (Bounds.base this) in
  let calc_end := Rotation.rotate_coord rotation rotation_pt (Bounds.end_ this) in
  (forall axis : Axis,
     F32.gtb (Point.get (Bounds.base rotated) axis)
             (Point.get (Bounds.end_ rotated) axis) = false) /\
  Bounds.encloses rotated calc_base /\
  Bounds.encloses rotated calc_end.
Proof.
  intros rotated calc_base calc_end.
  assert (H : forall axis,
    F32.gtb (Point.get (Bounds.base rotated) axis)
            (Point.get (Bounds.end_ rotated) axis) = false /\
    (F32.ltb (Point.get calc_base axis) (Point.get (Bounds.base rotated) axis) = false /\
     F32.gtb (Point.get calc_base axis) (Point.get (Bounds.end_ rotated) axis) = false) /\
    (F32.ltb (Point.get calc_end axis) (Point.get (Bounds.base rotated) axis) = false /\
     F32.gtb (Point.get calc_end axis) (Point.get (Bounds.end_ rotated) axis) = false)).
  { intros axis.
    destruct (bounds_rotate_around_get this rotation_pt rotation axis) as [Ebase Eend].
    subst rotated. rewrite Ebase, Eend.
    destruct (f32_min_max_ordered (Point.get calc_base axis) (Point.get calc_end axis))
      as (H1 & H2 & H3 & H4 & H5).
    subst calc_base calc_end. auto. }
  split; [intros axis; apply H|].
  split; intros axis; apply H.
Qed.

Lemma f32_abs_sub_zero (a : float) : F32.sub (F32.abs a) F32.zero = F32.abs a.
Proof. destruct a as [[|]|[|]| |[|] m e]; reflexivity. Qed.

Lemma f32_abs_abs (a : float) : F32.abs (F32.abs a) = F32.abs a.
Proof. destruct a as [[|]|[|]| |[|] m e]; reflexivity. Qed.

(** X10.  [strip_pos] moves bounds to the origin and keeps their lengths:
    the stripped bounds start at the origin, have the lengths of the
    original as their end corner and as their lengths, and stripping them
    again changes nothing. *)
Theorem bounds_strip_pos_keeps_lengths (bounds : Bounds.t) :
  let stripped := Bounds.strip_pos bounds in
  Bounds.base stripped = Point.origin /\
  Bounds.end_ stripped =
    Point.mk (Bounds.width bounds) (Bounds.height bounds) (Bounds.depth bounds) /\
  Bounds.lengths stripped = Bounds.lengths bounds /\
  Bounds.strip_pos stripped = stripped.
Proof.
  destruct bounds as [[[bx by_ bz] [ex ey ez]]].
  unfold Bounds.strip_pos, Bounds.lengths, Bounds.width, Bounds.height, Bounds.depth,
    Bounds.base, Bounds.end_, Point.sub, Point.origin; simpl.
  rewrite !f32_abs_sub_zero, !f32_abs_abs. repeat split.
Qed.

(** ** Reading the render tree back *)

Lemma path_equivalent_eq (p q : Path.t) :
  Path.ltb p q || Path.ltb q p = false <-> p = q.
Proof.
  rewrite orb_false_iff. split.
  - intros [H1 H2]. now apply path_ltb_total.
  - intros ->. split; apply path_ltb_irrefl.
Qed.

Lemma find_cons (key : Path.t) (geometry : Geometry.t) (m : PathMap.t) (path : Path.t) :
  PathMap.find ((key, geometry) :: m) path =
  if bool_decide (path = key) then Some geometry else PathMap.find m path.
Proof.
  simpl. destruct (Path.ltb path key || Path.ltb key path) eqn:E.
  - rewrite bool_decide_false; [reflexivity|].
    intros ->. rewrite path_ltb_irrefl in E. discriminate.
  - apply path_equivalent_eq in E. now rewrite bool_decide_true.
Qed.

Lemma find_insert_or_assign (m : PathMap.t) (path : Path.t) (geometry : Geometry.t)
    (q : Path.t) :
  PathMap.find (PathMap.insert_or_assign m path geometry) q =
  if bool_decide (q = path) then Some geometry else PathMap.find m q.
Proof.
  induction m as [|[key old] m IH].
  - simpl PathMap.insert_or_assign. rewrite find_cons. reflexivity.
  - cbn [PathMap.insert_or_assign].
    destruct (Path.ltb path key) eqn:E1.
    + now rewrite find_cons.
    + destruct (Path.ltb key path) eqn:E2.
      * rewrite !find_cons, IH.
        destruct (bool_decide (q = key)) eqn:D; [|reflexivity].
        apply bool_decide_eq_true in D. subst q.
        rewrite bool_decide_false; [reflexivity|].
        intros ->. rewrite path_ltb_irrefl in E2. discriminate.
      * assert (path = key) as -> by now apply path_ltb_total.
        rewrite !find_cons. now destruct (bool_decide (q = key)).
Qed.

Lemma get_find (this : RenderTree.t) (path : Path.t) :
  RenderTree.get this path = PathMap.find (RenderTree.m_rendered this) path.
Proof.
  unfold RenderTree.get, PathMap.count.
  now destruct (PathMap.find (RenderTree.m_rendered this) path).
Qed.

Lemma get_update (this : RenderTree.t) (path : Path.t) (geometry : Geometry.t)
    (q : Path.t) :
  RenderTree.get (RenderTree.update this path geometry) q =
  if bool_decide (q = path) then Some geometry else RenderTree.get this q.
Proof.
  rewrite !get_find. unfold RenderTree.update. cbn [RenderTree.m_rendered].
  apply find_insert_or_assign.
Qed.

(** X11.  A geometry stored under a path is the geometry read back under
    that path, the path no longer needs updating, and the geometry read
    under any other path is what it was. *)
Theorem render_tree_update_get (this : RenderTree.t) (path other : Path.t)
    (geometry : Geometry.t) :
  let updated := RenderTree.update this path geometry in
  RenderTree.get updated path = Some geometry /\
  RenderTree.needs_updating updated path = false /\
  (other <> path -> RenderTree.get updated other = RenderTree.get this other).
Proof.
  intros updated. subst updated.
  pose proof (get_update this path geometry) as H.
  split; [|split].
  - rewrite H. now rewrite bool_decide_true.
  - unfold RenderTree.needs_updating, RenderTree.update, PathMap.count.
    cbn [RenderTree.m_rendered]. rewrite find_insert_or_assign.
    now rewrite bool_decide_true.
  - intros Hne. rewrite H. now rewrite bool_decide_false.
Qed.

(** ** Moving a subtree *)

Lemma find_offset_at (m : PathMap.t) (path : Path.t) (by_pos : Point.t) (q : Path.t) :
  PathMap.find (RenderTree.offset_at m path by_pos) q =
  if bool_decide (q = path)
  then option_map (fun geometry => Geometry.offset_pos geometry by_pos) (PathMap.find m q)
  else PathMap.find m q.
Proof.
  induction m as [|[key geometry] m IH]; [simpl; now destruct (bool_decide _)|].
  cbn [RenderTree.offset_at].
  destruct (Path.ltb path key || Path.ltb key path) eqn:E.
  - rewrite !find_cons, IH.
    destruct (bool_decide (q = key)) eqn:D; [|reflexivity].
    apply bool_decide_eq_true in D. subst q.
    rewrite bool_decide_false; [reflexivity|].
    intros ->. rewrite path_ltb_irrefl in E. discriminate.
  - apply path_equivalent_eq in E. subst key. rewrite !find_cons.
    destruct (bool_decide (q = path)); reflexivity.
Qed.

Lemma find_map_values (f : Path.t -> Geometry.t -> Geometry.t) (m : PathMap.t)
    (q : Path.t) :
  PathMap.find
    (map (fun entry : Path.t * Geometry.t => (fst entry, f (fst entry) (snd entry))) m) q =
  option_map (f q) (PathMap.find m q).
Proof.
  induction m as [|[key geometry] m IH]; [reflexivity|].
  cbn [map fst snd]. rewrite !find_cons, IH.
  destruct (bool_decide (q = key)) eqn:D; [|reflexivity].
  apply bool_decide_eq_true in D. now subst.
Qed.

(** X12.  Moving a path and its descendants offsets the position of exactly
    the geometries it is meant to: the one at the path unless the parent is
    excluded, and those at the proper descendants of the path that do not
    lie at or below the excluded path; every other geometry, and the set of
    paths, stay as they were. *)
Theorem move_parent_and_descendants_by_moves_subtree (this : RenderTree.t)
    (path : Path.t) (by_pos : Point.t) (excluding_subdescendants_of : option Path.t)
    (excluding_parent : bool) (q : Path.t) :
  let moved :=
    RenderTree.move_parent_and_descendants_by_impl this path by_pos
      excluding_subdescendants_of excluding_parent in
  let is_moved :=
    negb excluding_parent && bool_decide (q = path) ||
    Path.is_descendant_of q path false &&
    match excluding_subdescendants_of with
    | None => true
    | Some excluding => negb (Path.is_descendant_of q excluding true)
    end in
  RenderTree.get moved q =
    option_map (fun geometry =>
                  if is_moved then Geometry.offset_pos geometry by_pos else geometry)
               (RenderTree.get this q) /\
  RenderTree.m_insertion_order moved = RenderTree.m_insertion_order this.
Proof.
  intros moved is_moved. split; [|reflexivity].
  subst moved. rewrite !get_find.
  unfold RenderTree.move_parent_and_descendants_by_impl. cbn [RenderTree.m_rendered].
  set (rendered := if negb excluding_parent &&
                      (0 <? PathMap.count (RenderTree.m_rendered this) path)%nat
                   then RenderTree.offset_at (RenderTree.m_rendered this) path by_pos
                   else RenderTree.m_rendered this).
  set (f := fun (rendered_path : Path.t) (rendered_geometry : Geometry.t) =>
              if Path.is_descendant_of rendered_path path false &&
                 match excluding_subdescendants_of with
                 | None => true
                 | Some excluding => negb (Path.is_descendant_of rendered_path excluding true)
                 end
              then Geometry.offset_pos rendered_geometry by_pos
              else rendered_geometry).
  assert (Hmap : forall m : PathMap.t,
    map (fun rendered_path_and_geometry : Path.t * Geometry.t =>
           let '(rendered_path, rendered_geometry) := rendered_path_and_geometry in
           if Path.is_descendant_of rendered_path path false &&
              match excluding_subdescendants_of with
              | None => true
              | Some excluding => negb (Path.is_descendant_of rendered_path excluding true)
              end
           then (rendered_path, Geometry.offset_pos rendered_geometry by_pos)
           else (rendered_path, rendered_geometry)) m =
    map (fun entry : Path.t * Geometry.t => (fst entry, f (fst entry) (snd entry))) m).
  { intros m. apply map_ext. intros [k g]. subst f. cbn [fst snd].
    destruct (Path.is_descendant_of k path false);
      destruct excluding_subdescendants_of as [excluding|];
      try destruct (Path.is_descendant_of k excluding true); reflexivity. }
  rewrite Hmap, find_map_values.
  assert (Hrendered : PathMap.find rendered q =
    option_map (fun geometry =>
                  if negb excluding_parent && bool_decide (q = path)
                  then Geometry.offset_pos geometry by_pos else geometry)
               (PathMap.find (RenderTree.m_rendered this) q)).
  { subst rendered. destruct excluding_parent; cbn [negb andb].
    - now destruct (PathMap.find (RenderTree.m_rendered this) q).
    - unfold PathMap.count.
      destruct (PathMap.find (RenderTree.m_rendered this) path) eqn:Efind;
        cbn [Nat.ltb Nat.leb].
      + rewrite find_offset_at. destruct (bool_decide (q = path)); [reflexivity|].
        now destruct (PathMap.find (RenderTree.m_rendered this) q).
      + destruct (bool_decide (q = path)) eqn:D.
        * apply bool_decide_eq_true in D. subst q. now rewrite Efind.
        * now destruct (PathMap.find (RenderTree.m_rendered this) q). }
  rewrite Hrendered.
  destruct (PathMap.find (RenderTree.m_rendered this) q) as [geometry|]; [|reflexivity].
  cbn [option_map]. f_equal. subst f is_moved. cbv beta.
  destruct (negb excluding_parent && bool_decide (q = path)) eqn:E1; [|reflexivity].
  apply andb_true_iff in E1. destruct E1 as [_ E1].
  apply bool_decide_eq_true in E1. subst q.
  assert (Hself : Path.is_descendant_of path path false = false).
  { destruct (Path.is_descendant_of path path false) eqn:E; [|reflexivity].
    apply descendant_iff_prefix in E. destruct E as [rest [E Hrest]].
    rewrite <- (app_nil_r (Path.m_parts path)) in E at 1.
    apply app_inv_head in E. now destruct Hrest. }
  rewrite Hself. reflexivity.
Qed.

(** ** Updating the geometries of a list of paths *)

(** The geometry under [q] after the geometries of [entries], read from
    [this], were changed by [f] and stored again. *)
Lemma fold_update_get (f : Geometry.t -> Geometry.t) (this : RenderTree.t)
    (entries : list (Path.t * Geometry.t)) :
  forall (tree : RenderTree.t) (stored : list Path.t),
  Forall (fun entry => RenderTree.get this (fst entry) = Some (snd entry)) entries ->
  (forall q, RenderTree.get tree q =
             if bool_decide (q ∈ stored)
             then option_map f (RenderTree.get this q)
             else RenderTree.get this q) ->
  forall q,
    RenderTree.get
      (fold_left
         (fun (tree : RenderTree.t) (entry : Path.t * Geometry.t) =>
            let '(entry_path, entry_geometry) := entry in
            RenderTree.update tree entry_path (f entry_geometry))
         entries tree) q =
    if bool_decide (q ∈ stored ++ map fst entries)
    then option_map f (RenderTree.get this q)
    else RenderTree.get this q.
Proof.
  induction entries as [|[p g] entries IH]; intros tree stored Hentries Htree q.
  - simpl. rewrite app_nil_r. apply Htree.
  - inversion Hentries as [|? ? Hp Hrest]; subst. cbn [fst snd] in Hp.
    cbn [fold_left map fst].
    replace (stored ++ p :: map fst entries)
      with ((stored ++ [p]) ++ map fst entries) by now rewrite <- app_assoc.
    apply IH; [exact Hrest|]. clear q. intros q.
    rewrite get_update.
    destruct (decide (q = p)) as [->|Hne].
    + rewrite bool_decide_true by reflexivity.
      rewrite bool_decide_true
        by (apply elem_of_app; right; now apply list_elem_of_singleton).
      now rewrite Hp.
    + rewrite (bool_decide_false (q = p)) by exact Hne. rewrite Htree.
      destruct (bool_decide (q ∈ stored)) eqn:D.
      * apply bool_decide_eq_true in D.
        now rewrite bool_decide_true by (apply elem_of_app; now left).
      * apply bool_decide_eq_false in D.
        rewrite bool_decide_false; [reflexivity|].
        intros H. apply elem_of_app in H. destruct H as [H|H]; [now apply D|].
        apply list_elem_of_singleton in H. now apply Hne.
Qed.

Lemma fold_update_insertion_order (f : Geometry.t -> Geometry.t)
    (entries : list (Path.t * Geometry.t)) :
  forall tree : RenderTree.t,
  RenderTree.consistent tree ->
  Forall (fun entry => In (fst entry) (RenderTree.m_insertion_order tree)) entries ->
  let result :=
    fold_left
      (fun (tree : RenderTree.t) (entry : Path.t * Geometry.t) =>
         let '(entry_path, entry_geometry) := entry in
         RenderTree.update tree entry_path (f entry_geometry))
      entries tree in
  RenderTree.m_insertion_order result = RenderTree.m_insertion_order tree /\
  RenderTree.consistent result.
Proof.
  induction entries as [|[p g] entries IH]; intros tree Hcons Hentries; simpl.
  - now split.
  - inversion Hentries as [|? ? Hp Hrest]; subst. cbn [fst] in Hp.
    assert (Horder : RenderTree.m_insertion_order (RenderTree.update tree p (f g)) =
                     RenderTree.m_insertion_order tree).
    { apply update_insertion_order. now apply (proj2 Hcons). }
    destruct (IH (RenderTree.update tree p (f g))) as [H1 H2].
    + now apply update_consistent.
    + now rewrite Horder.
    + split; [now rewrite H1, Horder | exact H2].
Qed.

Lemma mapM_at_entries (m : PathMap.t) (paths : list Path.t) :
  forall entries,
  mapM (fun our_path => geometry ← PathMap.at_ m our_path; Ok (our_path, geometry))
       paths = Ok entries ->
  map fst entries = paths /\
  Forall (fun entry => PathMap.find m (fst entry) = Some (snd entry)) entries.
Proof.
  induction paths as [|p paths IH]; intros entries; simpl.
  - intros H. inversion H. split; [reflexivity | constructor].
  - destruct (PathMap.at_ m p) as [g|e] eqn:E; simpl; [|discriminate].
    destruct (mapM _ paths) as [rest|] eqn:Erest; simpl; [|discriminate].
    intros H. inversion H; subst entries; clear H. destruct (IH rest eq_refl) as [H1 H2].
    split; [simpl; now rewrite H1|]. constructor; [|exact H2].
    unfold PathMap.at_ in E. cbn [fst snd].
    destruct (PathMap.find m p); [congruence | discriminate].
Qed.

Lemma descendants_of_entries (this : RenderTree.t) (path : Path.t) (including : bool) :
  RenderTree.consistent this ->
  exists entries,
    RenderTree.descendants_of this path including = Ok entries /\
    map fst entries =
      List.filter (fun our_path => Path.is_descendant_of our_path path including)
                  (RenderTree.m_insertion_order this) /\
    Forall (fun entry => RenderTree.get this (fst entry) = Some (snd entry)) entries.
Proof.
  intros Hcons.
  destruct (descendants_of_ok this path including Hcons) as [entries [Hok _]].
  exists entries. split; [exact Hok|].
  unfold RenderTree.descendants_of in Hok.
  destruct (mapM_at_entries _ _ _ Hok) as [H1 H2].
  split; [exact H1|].
  eapply List.Forall_impl; [|exact H2]. intros entry H. now rewrite get_find.
Qed.

Lemma get_None_not_stored (this : RenderTree.t) (q : Path.t) :
  RenderTree.consistent this ->
  ~ In q (RenderTree.m_insertion_order this) -> RenderTree.get this q = None.
Proof.
  intros Hcons Hq. rewrite get_find.
  destruct (PathMap.find (RenderTree.m_rendered this) q) eqn:E; [|reflexivity].
  apply find_In in E. now apply (proj2 Hcons) in E.
Qed.

(** The geometries at and below a path, changed by [f] and stored again. *)
Lemma update_descendants_get (f : Geometry.t -> Geometry.t) (this : RenderTree.t)
    (path : Path.t) (including : bool) :
  RenderTree.consistent this ->
  exists entries,
    RenderTree.descendants_of this path including = Ok entries /\
    let result :=
      fold_left
        (fun (tree : RenderTree.t) (entry : Path.t * Geometry.t) =>
           let '(entry_path, entry_geometry) := entry in
           RenderTree.update tree entry_path (f entry_geometry))
        entries this in
    RenderTree.m_insertion_order result = RenderTree.m_insertion_order this /\
    forall q,
      RenderTree.get result q =
      option_map (fun geometry =>
                    if Path.is_descendant_of q path including then f geometry
                    else geometry)
                 (RenderTree.get this q).
Proof.
  intros Hcons.
  destruct (descendants_of_entries this path including Hcons)
    as (entries & Hok & Hpaths & Hget).
  exists entries. split; [exact Hok|]. intros result. split.
  - apply fold_update_insertion_order; [exact Hcons|].
    apply List.Forall_forall. intros entry Hentry.
    assert (H : In (fst entry) (map fst entries)) by now apply in_map.
    rewrite Hpaths in H. now apply filter_In in H.
  - intros q. subst result.
    rewrite (fold_update_get f this entries this [] Hget); [|intros q'; reflexivity].
    cbn [app]. rewrite Hpaths.
    destruct (bool_decide (q ∈ List.filter _ _)) eqn:D.
    + apply bool_decide_eq_true in D. apply list_elem_of_In, filter_In in D.
      destruct D as [_ D].
      rewrite D. now destruct (RenderTree.get this q).
    + apply bool_decide_eq_false in D.
      destruct (RenderTree.get this q) as [g|] eqn:E; [|reflexivity].
      cbn [option_map]. f_equal.
      destruct (Path.is_descendant_of q path including) eqn:Edesc; [|reflexivity].
      exfalso. apply D. apply list_elem_of_In, filter_In. split; [|exact Edesc].
      destruct (in_dec Path.eq_dec q (RenderTree.m_insertion_order this)) as [H|H];
        [exact H|].
      rewrite (get_None_not_stored this q Hcons H) in E. discriminate.
Qed.

(** X13.  On a tree whose insertion order lists its paths, scaling a path
    and its descendants does not throw and scales exactly the geometries
    stored at the path and below it; the other geometries and the
    insertion order stay as they were. *)
Theorem scale_parent_and_descendants_by_scales_subtree (this : RenderTree.t)
    (path : Path.t) (factor : float) :
  RenderTree.consistent this ->
  exists scaled,
    RenderTree.scale_parent_and_descendants_by this path factor = Ok scaled /\
    RenderTree.m_insertion_order scaled = RenderTree.m_insertion_order this /\
    forall q : Path.t,
      RenderTree.get scaled q =
      option_map (fun geometry =>
                    if Path.is_descendant_of q path true
                    then Geometry.scale_by geometry factor else geometry)
                 (RenderTree.get this q).
Proof.
  intros Hcons.
  destruct (update_descendants_get (fun geometry => Geometry.scale_by geometry factor)
              this path true Hcons) as (entries & Hok & Horder & Hget).
  unfold RenderTree.scale_parent_and_descendants_by. rewrite Hok.
  eexists. split; [reflexivity|]. split; [exact Horder | exact Hget].
Qed.

Lemma scale_parent_and_descendants_by_scales_subtree_witness :
  let box := Geometry.make [Point.mk F32.one F32.one F32.one] [] Point.origin
               RGBA.default_color F32.zero F32.inf "" in
  let this :=
    RenderTree.update (RenderTree.update RenderTree.empty (Path.mk ["a"]) box)
                      (Path.mk ["b"]) box in
  RenderTree.consistent this /\
  exists scaled,
    RenderTree.scale_parent_and_descendants_by this (Path.mk ["a"]) (F32.of_Z 2) =
      Ok scaled /\
    RenderTree.get scaled (Path.mk ["a"]) = Some (Geometry.scale_by box (F32.of_Z 2)) /\
    RenderTree.get scaled (Path.mk ["b"]) = Some box.
Proof.
  intros box this.
  assert (Hempty : RenderTree.consistent RenderTree.empty).
  { split; [constructor | intros path; simpl; tauto]. }
  assert (Hcons : RenderTree.consistent this).
  { apply update_consistent, update_consistent, Hempty. }
  split; [exact Hcons|].
  destruct (scale_parent_and_descendants_by_scales_subtree this (Path.mk ["a"])
              (F32.of_Z 2) Hcons) as (scaled & Hok & _ & Hget).
  exists scaled. split; [exact Hok|].
  split; rewrite Hget; reflexivity.
Defined.

Lemma clamp_distances_fields (this : HideShowFeature.t) (geometry : Geometry.t) :
  let clamped := HideShowElement.clamp_distances this geometry in
  Geometry.m_hide_distance clamped =
    (if HideShowFeature.clamp_descendant_hide_distances this &&
        F32.ltb (Geometry.m_hide_distance geometry) (HideShowFeature.hide_distance this)
     then HideShowFeature.hide_distance this else Geometry.m_hide_distance geometry) /\
  Geometry.m_show_distance clamped =
    (if HideShowFeature.clamp_descendant_show_distances this &&
        F32.ltb (Geometry.m_show_distance geometry) (HideShowFeature.show_distance this)
     then HideShowFeature.show_distance this else Geometry.m_show_distance geometry) /\
  Geometry.m_vertexes clamped = Geometry.m_vertexes geometry /\
  Geometry.m_triangles clamped = Geometry.m_triangles geometry /\
  Geometry.m_bounds clamped = Geometry.m_bounds geometry /\
  Geometry.m_pos clamped = Geometry.m_pos geometry /\
  Geometry.m_color clamped = Geometry.m_color geometry /\
  Geometry.m_text clamped = Geometry.m_text geometry.
Proof.
  unfold HideShowElement.clamp_distances, HideShowFeature.hide_and_show_distances.
  destruct (HideShowFeature.clamp_descendant_hide_distances this &&
            F32.ltb (Geometry.m_hide_distance geometry) (HideShowFeature.hide_distance this));
    destruct (HideShowFeature.clamp_descendant_show_distances this &&
              F32.ltb _ (HideShowFeature.show_distance this)) eqn:E;
    cbn in *; rewrite ?E; repeat split.
Qed.

(** X14.  Rendering a hide/show element on a tree whose insertion order
    lists its paths does not throw and changes exactly the geometries
    stored below its path: with clamping on, their hide and show distances
    are raised to those of the element, so that none is below them
    afterwards; nothing else of a geometry changes. *)
Theorem hide_show_render_clamps_descendants (this : HideShowFeature.t)
    (path : Path.t) (render_tree : RenderTree.t) :
  RenderTree.consistent render_tree ->
  exists rendered,
    HideShowElement.render this path render_tree = Ok rendered /\
    RenderTree.m_insertion_order rendered = RenderTree.m_insertion_order render_tree /\
    (forall q : Path.t,
       RenderTree.get rendered q =
       option_map (fun geometry =>
                     if Path.is_descendant_of q path false
                     then HideShowElement.clamp_distances this geometry
                     else geometry)
                  (RenderTree.get render_tree q)) /\
    (forall (q : Path.t) (geometry : Geometry.t),
       Path.is_descendant_of q path false = true ->
       RenderTree.get rendered q = Some geometry ->
       (HideShowFeature.clamp_descendant_hide_distances this = true ->
        F32.ltb (Geometry.m_hide_distance geometry)
                (HideShowFeature.hide_distance this) = false) /\
       (HideShowFeature.clamp_descendant_show_distances this = true ->
        F32.ltb (Geometry.m_show_distance geometry)
                (HideShowFeature.show_distance this) = false)).
Proof.
  intros Hcons.
  destruct (update_descendants_get (HideShowElement.clamp_distances this)
              render_tree path false Hcons) as (entries & Hok & Horder & Hget).
  unfold HideShowElement.render. rewrite Hok.
  eexists. split; [reflexivity|]. split; [exact Horder|]. split; [exact Hget|].
  intros q geometry Hdesc Hq. cbv zeta in Hget. rewrite Hget, Hdesc in Hq.
  destruct (RenderTree.get render_tree q) as [old|]; [|discriminate].
  injection Hq as <-.
  destruct (clamp_distances_fields this old) as (Hhide & Hshow & _).
  cbv zeta in Hhide, Hshow. rewrite Hhide, Hshow. split; intros ->; cbn [andb].
  - destruct (F32.ltb (Geometry.m_hide_distance old) _) eqn:E;
      [apply f32_ltb_irrefl | exact E].
  - destruct (F32.ltb (Geometry.m_show_distance old) _) eqn:E;
      [apply f32_ltb_irrefl | exact E].
Qed.

Lemma hide_show_render_clamps_descendants_witness :
  let box := Geometry.make [Point.mk F32.one F32.one F32.one] [] Point.origin
               RGBA.default_color F32.zero F32.inf "" in
  let this :=
    HideShowFeature.mk (mkValue "hide_distance" "hide_distance" (F32.of_Z 5) false)
                       (mkValue "show_distance" "show_distance" F32.inf true)
                       (mkValue "clamp_descendant_hide_distances"
                                "clamp_descendant_show_distances" true false)
                       (mkValue "clamp_descendant_show_distances"
                                "clamp_descendant_show_distances" false true) in
  let render_tree :=
    RenderTree.update (RenderTree.update RenderTree.empty (Path.mk ["a"]) box)
                      (Path.mk ["a"; "b"]) box in
  RenderTree.consistent render_tree /\
  exists rendered,
    HideShowElement.render this (Path.mk ["a"]) render_tree = Ok rendered /\
    RenderTree.get rendered (Path.mk ["a"; "b"]) =
      Some (Geometry.set_hide_distance box (F32.of_Z 5)) /\
    RenderTree.get rendered (Path.mk ["a"]) = Some box.
Proof.
  intros box this render_tree.
  assert (Hempty : RenderTree.consistent RenderTree.empty).
  { split; [constructor | intros path; simpl; tauto]. }
  assert (Hcons : RenderTree.consistent render_tree).
  { apply update_consistent, update_consistent, Hempty. }
  split; [exact Hcons|].
  destruct (hide_show_render_clamps_descendants this (Path.mk ["a"]) render_tree Hcons)
    as (rendered & Hok & _ & Hget & _).
  exists rendered. split; [exact Hok|].
  split; rewrite Hget; reflexivity.
Defined.

(** ** What the diff of two render trees reports *)

Lemma differences_loop_nil_l (last : PathMap.t) :
  RenderTree.differences_loop [] last =
  map (fun entry : Path.t * Geometry.t => (fst entry, FirstMissing)) last.
Proof. now destruct last. Qed.

Lemma differences_loop_nil_r (first : PathMap.t) :
  RenderTree.differences_loop first [] =
  map (fun entry : Path.t * Geometry.t => (fst entry, SecondMissing)) first.
Proof. now destruct first as [|[] ?]. Qed.

Lemma differences_loop_cons (first_path : Path.t) (first_geometry : Geometry.t)
    (first : PathMap.t) (last_path : Path.t) (last_geometry : Geometry.t)
    (last : PathMap.t) :
  RenderTree.differences_loop ((first_path, first_geometry) :: first)
                              ((last_path, last_geometry) :: last) =
  if Path.ltb first_path last_path then
    (first_path, SecondMissing) ::
    RenderTree.differences_loop first ((last_path, last_geometry) :: last)
  else if Path.ltb last_path first_path then
    (last_path, FirstMissing) ::
    RenderTree.differences_loop ((first_path, first_geometry) :: first) last
  else
    RenderTree.field_differences first_path first_geometry last_geometry ++
    RenderTree.differences_loop first last.
Proof. reflexivity. Qed.

Lemma rgba_eqb_refl (c : RGBA.t) : RGBA.eqb c c = true.
Proof. unfold RGBA.eqb. now rewrite !Z.eqb_refl. Qed.

Lemma f32_eqb_nan (a : float) : F32.isnan a = true -> F32.eqb a a = false.
Proof. now destruct a. Qed.

Lemma point_eqb_nan (p : Point.t) : Point.is_nan p = true -> Point.eqb p p = false.
Proof.
  unfold Point.is_nan, Point.eqb. intros H.
  apply orb_true_iff in H. destruct H as [H|H];
    [apply orb_true_iff in H; destruct H as [H|H]|];
    rewrite (f32_eqb_nan _ H); now rewrite ?andb_false_r.
Qed.

(** X15.  A render tree does not differ from itself when no position and
    no bounds of its geometries hold a NaN; a geometry whose position holds
    a NaN is reported as moved even against itself. *)
Theorem differences_from_self (this : RenderTree.t) :
  (Forall (fun entry : Path.t * Geometry.t =>
             Point.is_nan (Geometry.m_pos (snd entry)) = false /\
             Bounds.is_nan (Geometry.m_bounds (snd entry)) = false)
          (RenderTree.m_rendered this) ->
   RenderTree.differences_from this this = []) /\
  (forall (path : Path.t) (geometry : Geometry.t),
     In (path, geometry) (RenderTree.m_rendered this) ->
     Point.is_nan (Geometry.m_pos geometry) = true ->
     In (path, Pos) (RenderTree.differences_from this this)).
Proof.
  unfold RenderTree.differences_from. split.
  - induction 1 as [|[path geometry] m [Hpos Hbounds] _ IH]; [reflexivity|].
    rewrite differences_loop_cons, path_ltb_irrefl, IH, app_nil_r.
    unfold RenderTree.field_differences, Point.neqb, Bounds.neqb, RGBA.neqb.
    cbn [snd] in Hpos, Hbounds.
    now rewrite (point_eqb_refl _ Hpos), (bounds_eqb_refl _ Hbounds), rgba_eqb_refl,
      String.eqb_refl.
  - intros path geometry. induction (RenderTree.m_rendered this) as [|[key g] m IH];
      intros Hin Hnan; [destruct Hin|].
    rewrite differences_loop_cons, path_ltb_irrefl. apply in_or_app.
    destruct Hin as [[= -> ->]|Hin]; [left | right; now apply IH].
    unfold RenderTree.field_differences, Point.neqb.
    rewrite (point_eqb_nan _ Hnan). now left.
Qed.

(** ** The map of a render tree stays sorted *)

Lemma sorted_cons_inv (key : Path.t) (geometry : Geometry.t) (m : PathMap.t) :
  PathMap.sorted ((key, geometry) :: m) ->
  PathMap.sorted m /\ Forall (fun q => Path.ltb key q = true) (PathMap.keys m).
Proof.
  unfold PathMap.sorted. simpl. intros H. now apply StronglySorted_inv in H.
Qed.

Lemma sorted_head_not_in (key : Path.t) (m : PathMap.t) :
  Forall (fun q => Path.ltb key q = true) (PathMap.keys m) ->
  ~ In key (PathMap.keys m).
Proof.
  intros H Hin. rewrite List.Forall_forall in H. specialize (H key Hin).
  now rewrite path_ltb_irrefl in H.
Qed.

Lemma insert_or_assign_sorted (m : PathMap.t) (path : Path.t) (geometry : Geometry.t) :
  PathMap.sorted m -> PathMap.sorted (PathMap.insert_or_assign m path geometry).
Proof.
  induction m as [|[key old] m IH]; intros Hsorted.
  - unfold PathMap.sorted. simpl. repeat constructor.
  - destruct (sorted_cons_inv _ _ _ Hsorted) as [Htail Hhead].
    cbn [PathMap.insert_or_assign].
    destruct (Path.ltb path key) eqn:E1.
    + unfold PathMap.sorted. cbn [PathMap.keys map fst]. constructor; [exact Hsorted|].
      constructor; [exact E1|].
      eapply List.Forall_impl; [|exact Hhead]. intros q Hq.
      now apply (path_ltb_trans path key q).
    + destruct (Path.ltb key path) eqn:E2.
      * unfold PathMap.sorted. cbn [PathMap.keys map fst]. constructor.
        -- now apply IH.
        -- apply List.Forall_forall. intros q Hq.
           apply keys_insert_or_assign in Hq. destruct Hq as [->|Hq]; [exact E2|].
           rewrite List.Forall_forall in Hhead. now apply Hhead.
      * exact Hsorted.
Qed.

Lemma update_sorted (this : RenderTree.t) (path : Path.t) (geometry : Geometry.t) :
  PathMap.sorted (RenderTree.m_rendered this) ->
  PathMap.sorted (RenderTree.m_rendered (RenderTree.update this path geometry)).
Proof. apply insert_or_assign_sorted. Qed.

Lemma move_sorted (this : RenderTree.t) (path : Path.t) (by_pos : Point.t)
    (excluding : option Path.t) (excluding_parent : bool) :
  PathMap.sorted (RenderTree.m_rendered this) ->
  PathMap.sorted
    (RenderTree.m_rendered
       (RenderTree.move_parent_and_descendants_by_impl this path by_pos excluding
          excluding_parent)).
Proof.
  unfold PathMap.sorted, RenderTree.move_parent_and_descendants_by_impl.
  cbn [RenderTree.m_rendered]. intros H.
  match goal with
  | |- StronglySorted _ (PathMap.keys (map ?f ?m)) =>
    assert (E : PathMap.keys (map f m) = PathMap.keys m)
  end.
  { unfold PathMap.keys. rewrite map_map. apply map_ext. intros [k g].
    now destruct (_ && _). }
  rewrite E. destruct (_ && _); [now rewrite keys_offset_at | exact H].
Qed.

Lemma fold_update_sorted (f : Geometry.t -> Geometry.t)
    (entries : list (Path.t * Geometry.t)) :
  forall tree : RenderTree.t,
  PathMap.sorted (RenderTree.m_rendered tree) ->
  PathMap.sorted
    (RenderTree.m_rendered
       (fold_left
          (fun (tree : RenderTree.t) (entry : Path.t * Geometry.t) =>
             let '(entry_path, entry_geometry) := entry in
             RenderTree.update tree entry_path (f entry_geometry))
          entries tree)).
Proof.
  induction entries as [|[p g] entries IH]; intros tree H; simpl; [exact H|].
  apply IH. now apply update_sorted.
Qed.

Lemma foldM_preserves {A B : Type} (P : B -> Prop) (f : B -> A -> result B)
    (l : list A) :
  (forall b a b', In a l -> P b -> f b a = Ok b' -> P b') ->
  forall b b', P b -> foldM f l b = Ok b' -> P b'.
Proof.
  induction l as [|a l IH]; intros Hf b b' Hb; simpl.
  - intros H. inversion H. now subst.
  - destruct (f b a) as [b1|e] eqn:E; simpl; [|discriminate].
    apply IH; [|now apply (Hf b a b1); [left| |]].
    intros b2 a2 b2' Hin. apply Hf. now right.
Qed.

Lemma rotate_children_of_sorted (rotation_pt : Point.t) (rotation : Rotation.t)
    (fuel : nat) :
  forall (this : RenderTree.t) (path : Path.t) (this' : RenderTree.t),
  PathMap.sorted (RenderTree.m_rendered this) ->
  RenderTree.rotate_children_of fuel this path rotation_pt rotation = Ok this' ->
  PathMap.sorted (RenderTree.m_rendered this').
Proof.
  induction fuel as [|fuel IH]; intros this path this' Hsorted; simpl; [discriminate|].
  destruct (RenderTree.children_of this path) as [children|e]; simpl; [|discriminate].
  destruct (foldM _ children this) as [rotated|e] eqn:Efold; simpl; [|discriminate].
  assert (Hrotated : PathMap.sorted (RenderTree.m_rendered rotated)).
  { revert Efold.
    apply (foldM_preserves (fun tree => PathMap.sorted (RenderTree.m_rendered tree)));
      [|exact Hsorted].
    intros b a b' _ Hb. apply IH. exact Hb. }
  destruct (RenderTree.get rotated path); intros H; inversion H; subst.
  - now apply update_sorted.
  - exact Hrotated.
Qed.

Lemma apply_sorted (this : RenderTree.t) (op : RenderTree.operation)
    (this' : RenderTree.t) :
  PathMap.sorted (RenderTree.m_rendered this) ->
  RenderTree.apply this op = Ok this' ->
  PathMap.sorted (RenderTree.m_rendered this').
Proof.
  intros Hsorted. destruct op; simpl; intros H.
  - inversion H. now apply update_sorted.
  - inversion H. now apply move_sorted.
  - inversion H. now apply move_sorted.
  - inversion H. now apply move_sorted.
  - unfold RenderTree.scale_parent_and_descendants_by in H.
    destruct (RenderTree.descendants_of this path true) as [entries|e]; simpl in H;
      [|discriminate].
    inversion H.
    apply (fold_update_sorted (fun geometry => Geometry.scale_by geometry factor)).
    exact Hsorted.
  - unfold RenderTree.rotate_parent_and_descendants_in_place in H.
    destruct (RenderTree.rotate_children_of _ this path _ rotation) as [rotated|e] eqn:E;
      simpl in H; [|discriminate].
    inversion H. apply move_sorted.
    now apply (rotate_children_of_sorted _ _ _ _ _ _ Hsorted E).
  - inversion H. unfold PathMap.sorted. simpl. constructor.
Qed.

Lemma run_sorted (ops : list RenderTree.operation) (this : RenderTree.t) :
  RenderTree.run RenderTree.empty ops = Ok this ->
  PathMap.sorted (RenderTree.m_rendered this).
Proof.
  unfold RenderTree.run.
  apply (foldM_preserves (fun tree => PathMap.sorted (RenderTree.m_rendered tree))).
  - intros b a b' _. apply apply_sorted.
  - unfold PathMap.sorted. simpl. constructor.
Qed.

Lemma sorted_find_In (m : PathMap.t) (path : Path.t) (geometry : Geometry.t) :
  PathMap.sorted m ->
  PathMap.find m path = Some geometry <-> In (path, geometry) m.
Proof.
  induction m as [|[key g] m IH]; intros Hsorted; [simpl; split; [discriminate | tauto]|].
  destruct (sorted_cons_inv _ _ _ Hsorted) as [Htail Hhead].
  rewrite find_cons. destruct (bool_decide (path = key)) eqn:D.
  - apply bool_decide_eq_true in D. subst key. split.
    + intros [= ->]. now left.
    + intros [[= ->]|Hin]; [reflexivity|].
      exfalso. apply (sorted_head_not_in path m Hhead).
      unfold PathMap.keys. now apply (in_map fst) in Hin.
  - apply bool_decide_eq_false in D. rewrite (IH Htail). split.
    + intros H. now right.
    + intros [[= -> ->]|Hin]; [now destruct D | exact Hin].
Qed.

Lemma paths_reported_In (tag : RenderDifferences) (path : Path.t)
    (differences : list (Path.t * RenderDifferences)) :
  In path (paths_reported tag differences) <-> In (path, tag) differences.
Proof.
  unfold paths_reported. rewrite in_map_iff. split.
  - intros [[p t] [<- H]]. apply filter_In in H. destruct H as [H D].
    apply bool_decide_eq_true in D. simpl in *. now subst.
  - intros H. exists (path, tag). split; [reflexivity|].
    apply filter_In. split; [exact H | now apply bool_decide_eq_true].
Qed.

Lemma field_differences_path (first_path : Path.t) (first_geometry last_geometry : Geometry.t)
    (path : Path.t) (tag : RenderDifferences) :
  In (path, tag) (RenderTree.field_differences first_path first_geometry last_geometry) ->
  path = first_path /\ tag <> FirstMissing /\ tag <> SecondMissing.
Proof.
  unfold RenderTree.field_differences.
  destruct (Point.neqb _ _), (Bounds.neqb _ _), (RGBA.neqb _ _), (negb _); simpl;
    intuition congruence.
Qed.

Lemma in_keys (m : PathMap.t) (path : Path.t) :
  In path (PathMap.keys m) <-> exists geometry, In (path, geometry) m.
Proof.
  unfold PathMap.keys. rewrite in_map_iff. split.
  - intros [[p g] [<- H]]. now exists g.
  - intros [g H]. now exists (path, g).
Qed.

Lemma sorted_head_below (key : Path.t) (geometry : Geometry.t) (m : PathMap.t)
    (path : Path.t) :
  PathMap.sorted ((key, geometry) :: m) -> Path.ltb path key = true ->
  ~ In path (PathMap.keys ((key, geometry) :: m)).
Proof.
  intros Hsorted Hlt [<-|Hin].
  - simpl in Hlt. now rewrite path_ltb_irrefl in Hlt.
  - destruct (sorted_cons_inv _ _ _ Hsorted) as [_ Hhead].
    rewrite List.Forall_forall in Hhead. specialize (Hhead path Hin).
    now rewrite (path_ltb_asym _ _ Hlt) in Hhead.
Qed.

(** The paths the merge of two sorted maps reports as missing from the
    second. *)
Lemma differences_loop_second_missing (first : PathMap.t) :
  forall last : PathMap.t,
  PathMap.sorted first -> PathMap.sorted last ->
  forall path : Path.t,
    In (path, SecondMissing) (RenderTree.differences_loop first last) <->
    In path (PathMap.keys first) /\ ~ In path (PathMap.keys last).
Proof.
  induction first as [|[first_path first_geometry] first IHfirst].
  { intros last _ _ path. rewrite differences_loop_nil_l. split.
    - intros H. apply in_map_iff in H. destruct H as [entry [[=] _]].
    - intros [[] _]. }
  intros last Hfirst. destruct (sorted_cons_inv _ _ _ Hfirst) as [Hfirst' Hhead].
  induction last as [|[last_path last_geometry] last IHlast]; intros Hlast path.
  { rewrite differences_loop_nil_r. split.
    - intros H. apply in_map_iff in H. destruct H as [entry [[= <-] H]].
      split; [now apply (in_map fst) in H | tauto].
    - intros [H _]. apply in_map_iff in H. destruct H as [entry [<- H]].
      apply in_map_iff. now exists entry. }
  destruct (sorted_cons_inv _ _ _ Hlast) as [Hlast' Hlhead].
  rewrite differences_loop_cons.
  destruct (Path.ltb first_path last_path) eqn:E1.
  - pose proof (sorted_head_below _ _ _ _ Hlast E1) as Hnot.
    cbn [In]. rewrite (IHfirst _ Hfirst' Hlast path). cbn [PathMap.keys map fst In] in *.
    split.
    + intros [[= <-]|[H1 H2]]; [split; [now left | exact Hnot] | split; [now right | exact H2]].
    + intros [[<-|H1] H2]; [now left | right; now split].
  - destruct (Path.ltb last_path first_path) eqn:E2.
    + pose proof (sorted_head_below _ _ _ _ Hfirst E2) as Hnot.
      cbn [In]. rewrite (IHlast Hlast' path). cbn [PathMap.keys map fst In] in *.
      split.
      * intros [[=]|[H1 H2]]. split; [exact H1|].
        intros [<-|H]; [now apply Hnot | now apply H2].
      * intros [H1 H2]. right. split; [exact H1 | tauto].
    + assert (first_path = last_path) as <- by now apply path_ltb_total.
      rewrite in_app_iff, (IHfirst _ Hfirst' Hlast' path).
      cbn [PathMap.keys map fst In] in *.
      pose proof (sorted_head_not_in _ _ Hhead) as Hnot.
      split.
      * intros [H|[H1 H2]].
        -- apply field_differences_path in H. now destruct H as (_ & _ & H).
        -- split; [now right|]. intros [<-|H]; [now apply Hnot | now apply H2].
      * intros [[<-|H1] H2]; [tauto|]. right. split; [exact H1 | tauto].
Qed.

(** The field differences the merge of two sorted maps reports. *)
Lemma differences_loop_fields (tag : RenderDifferences) (first : PathMap.t) :
  tag <> FirstMissing -> tag <> SecondMissing ->
  forall last : PathMap.t,
  PathMap.sorted first -> PathMap.sorted last ->
  forall path : Path.t,
    In (path, tag) (RenderTree.differences_loop first last) <->
    exists first_geometry last_geometry,
      In (path, first_geometry) first /\ In (path, last_geometry) last /\
      In (path, tag) (RenderTree.field_differences path first_geometry last_geometry).
Proof.
  intros Htag1 Htag2.
  induction first as [|[first_path first_geometry] first IHfirst].
  { intros last _ _ path. rewrite differences_loop_nil_l. split.
    - intros H. apply in_map_iff in H. destruct H as [entry [[= _ <-] _]].
      now destruct Htag1.
    - intros (fg & lg & [] & _). }
  intros last Hfirst. destruct (sorted_cons_inv _ _ _ Hfirst) as [Hfirst' Hhead].
  induction last as [|[last_path last_geometry] last IHlast]; intros Hlast path.
  { rewrite differences_loop_nil_r. split.
    - intros H. apply in_map_iff in H. destruct H as [entry [[= _ <-] _]].
      now destruct Htag2.
    - intros (fg & lg & _ & [] & _). }
  destruct (sorted_cons_inv _ _ _ Hlast) as [Hlast' Hlhead].
  rewrite differences_loop_cons.
  destruct (Path.ltb first_path last_path) eqn:E1.
  - pose proof (sorted_head_below _ _ _ _ Hlast E1) as Hnot.
    cbn [In]. rewrite (IHfirst _ Hfirst' Hlast path). split.
    + intros [[= _ <-]|(fg & lg & H1 & H2 & H3)]; [now destruct Htag2|].
      exists fg, lg. split; [now right | now split].
    + intros (fg & lg & [[= <- <-]|H1] & H2 & H3).
      * exfalso. apply Hnot. apply in_keys. now exists lg.
      * right. now exists fg, lg.
  - destruct (Path.ltb last_path first_path) eqn:E2.
    + pose proof (sorted_head_below _ _ _ _ Hfirst E2) as Hnot.
      cbn [In]. rewrite (IHlast Hlast' path). split.
      * intros [[= _ <-]|(fg & lg & H1 & H2 & H3)]; [now destruct Htag1|].
        exists fg, lg. split; [exact H1 | split; [now right | exact H3]].
      * intros (fg & lg & H1 & [[= <- <-]|H2] & H3).
        -- exfalso. apply Hnot. apply in_keys. now exists fg.
        -- right. now exists fg, lg.
    + assert (first_path = last_path) as <- by now apply path_ltb_total.
      rewrite in_app_iff, (IHfirst _ Hfirst' Hlast' path).
      pose proof (sorted_head_not_in _ _ Hhead) as Hnot.
      pose proof (sorted_head_not_in _ _ Hlhead) as Hlnot.
      split.
      * intros [H|(fg & lg & H1 & H2 & H3)].
        -- pose proof (field_differences_path _ _ _ _ _ H) as [-> _].
           exists first_geometry, last_geometry.
           split; [now left | split; [now left | exact H]].
        -- exists fg, lg. split; [now right | split; [now right | exact H3]].
      * intros (fg & lg & H1 & H2 & H3).
        destruct H1 as [E1'|H1], H2 as [E2'|H2].
        -- injection E1' as <- <-. injection E2' as <-. now left.
        -- injection E1' as <- <-. exfalso. apply Hlnot. apply in_keys. now exists lg.
        -- injection E2' as <- <-. exfalso. apply Hnot. apply in_keys. now exists fg.
        -- right. now exists fg, lg.
Qed.

Lemma field_differences_tags (path : Path.t) (first_geometry last_geometry : Geometry.t) :
  (In (path, Pos) (RenderTree.field_differences path first_geometry last_geometry) <->
   Point.neqb (Geometry.m_pos first_geometry) (Geometry.m_pos last_geometry) = true) /\
  (In (path, Bounds_) (RenderTree.field_differences path first_geometry last_geometry) <->
   Bounds.neqb (Geometry.m_bounds first_geometry) (Geometry.m_bounds last_geometry) = true) /\
  (In (path, Color) (RenderTree.field_differences path first_geometry last_geometry) <->
   RGBA.neqb (Geometry.m_color first_geometry) (Geometry.m_color last_geometry) = true) /\
  (In (path, Text) (RenderTree.field_differences path first_geometry last_geometry) <->
   String.eqb (Geometry.m_text first_geometry) (Geometry.m_text last_geometry) = false).
Proof.
  unfold RenderTree.field_differences.
  destruct (Point.neqb _ _), (Bounds.neqb _ _), (RGBA.neqb _ _), (String.eqb _ _); simpl;
    intuition congruence.
Qed.

Lemma sorted_get_None (this : RenderTree.t) (path : Path.t) :
  RenderTree.get this path = None <->
  ~ In path (PathMap.keys (RenderTree.m_rendered this)).
Proof.
  rewrite get_find. split.
  - apply find_None.
  - intros H. destruct (PathMap.find _ path) eqn:E; [|reflexivity].
    now apply find_In in E.
Qed.

(** X16.  The diff of two render trees is exact.  For trees built by the
    operations of the render tree, a path is reported as missing from the
    second tree exactly when only the first tree has it, as missing from the
    first exactly when only the second has it, and with a position, bounds,
    color or text difference exactly when both trees have it and the
    corresponding fields of the two geometries compare unequal. *)
Theorem differences_from_exact (first_ops last_ops : list RenderTree.operation)
    (first last : RenderTree.t) (path : Path.t) :
  RenderTree.run RenderTree.empty first_ops = Ok first ->
  RenderTree.run RenderTree.empty last_ops = Ok last ->
  let differences := RenderTree.differences_from first last in
  let both (differ : Geometry.t -> Geometry.t -> bool) :=
    exists first_geometry last_geometry,
      RenderTree.get first path = Some first_geometry /\
      RenderTree.get last path = Some last_geometry /\
      differ first_geometry last_geometry = true in
  (In (path, SecondMissing) differences <->
   RenderTree.get first path <> None /\ RenderTree.get last path = None) /\
  (In (path, FirstMissing) differences <->
   RenderTree.get first path = None /\ RenderTree.get last path <> None) /\
  (In (path, Pos) differences <->
   both (fun g g' => Point.neqb (Geometry.m_pos g) (Geometry.m_pos g'))) /\
  (In (path, Bounds_) differences <->
   both (fun g g' => Bounds.neqb (Geometry.m_bounds g) (Geometry.m_bounds g'))) /\
  (In (path, Color) differences <->
   both (fun g g' => RGBA.neqb (Geometry.m_color g) (Geometry.m_color g'))) /\
  (In (path, Text) differences <->
   both (fun g g' => negb (String.eqb (Geometry.m_text g) (Geometry.m_text g')))).
Proof.
  intros Hfirst Hlast differences both.
  apply run_sorted in Hfirst, Hlast.
  subst differences. unfold RenderTree.differences_from.
  assert (Hfields : forall (tag : RenderDifferences)
                      (differ : Geometry.t -> Geometry.t -> bool),
    tag <> FirstMissing -> tag <> SecondMissing ->
    (forall g g', In (path, tag) (RenderTree.field_differences path g g') <->
                  differ g g' = true) ->
    In (path, tag) (RenderTree.differences_loop (RenderTree.m_rendered first)
                      (RenderTree.m_rendered last)) <-> both differ).
  { intros tag differ H1 H2 Hdiffer.
    rewrite (differences_loop_fields tag _ H1 H2 _ Hfirst Hlast path).
    subst both. cbv beta. split; intros (fg & lg & Hf & Hl & Hd); exists fg, lg.
    - rewrite !get_find. rewrite (sorted_find_In _ _ _ Hfirst), (sorted_find_In _ _ _ Hlast).
      now rewrite <- Hdiffer.
    - rewrite !get_find in *.
      rewrite (sorted_find_In _ _ _ Hfirst) in Hf. rewrite (sorted_find_In _ _ _ Hlast) in Hl.
      now rewrite Hdiffer. }
  split; [|split].
  - rewrite (differences_loop_second_missing _ _ Hfirst Hlast path).
    rewrite (sorted_get_None last path). split; intros [H1 H2]; (split; [|exact H2]).
    + intros H. now apply sorted_get_None in H.
    + destruct (in_dec Path.eq_dec path (PathMap.keys (RenderTree.m_rendered first)))
        as [H|H]; [exact H|]. now apply sorted_get_None in H.
  - rewrite <- paths_reported_In, differences_loop_missing_symmetric, paths_reported_In.
    rewrite (differences_loop_second_missing _ _ Hlast Hfirst path).
    rewrite (sorted_get_None first path). split.
    + intros [H1 H2]. split; [exact H2|].
      intros H. now apply sorted_get_None in H.
    + intros [H1 H2]. split; [|exact H1].
      destruct (in_dec Path.eq_dec path (PathMap.keys (RenderTree.m_rendered last)))
        as [H|H]; [exact H|]. now apply sorted_get_None in H.
  - repeat split; apply Hfields; try discriminate; intros g g';
      destruct (field_differences_tags path g g') as (HP & HB & HC & HT);
      try assumption.
    + rewrite HT. now destruct (String.eqb _ _).
    + rewrite HT. now destruct (String.eqb _ _).
Qed.

Lemma differences_from_exact_witness :
  let box := Geometry.make [Point.mk F32.one F32.one F32.one] [] Point.origin
               RGBA.default_color F32.zero F32.inf "" in
  let moved := Geometry.offset_pos box (Point.mk F32.one F32.zero F32.zero) in
  let first_ops :=
    [RenderTree.OpUpdate (Path.mk ["a"]) box; RenderTree.OpUpdate (Path.mk ["b"]) box] in
  let last_ops := [RenderTree.OpUpdate (Path.mk ["a"]) moved] in
  exists first last,
    RenderTree.run RenderTree.empty first_ops = Ok first /\
    RenderTree.run RenderTree.empty last_ops = Ok last /\
    In (Path.mk ["b"], SecondMissing) (RenderTree.differences_from first last) /\
    In (Path.mk ["a"], Pos) (RenderTree.differences_from first last).
Proof.
  intros box moved first_ops last_ops.
  eexists _, _. split; [reflexivity|]. split; [reflexivity|]. split.
  - apply (proj1 (differences_from_exact first_ops last_ops _ _ (Path.mk ["b"])
                    eq_refl eq_refl)).
    split; [discriminate | reflexivity].
  - apply (proj1 (proj2 (proj2 (differences_from_exact first_ops last_ops _ _
                                  (Path.mk ["a"]) eq_refl eq_refl)))).
    exists box, moved. repeat split.
Defined.

(** ** The children of a path *)

Lemma NoDup_list_filter_paths (keep : Path.t -> bool) (paths : list Path.t) :
  NoDup paths -> NoDup (List.filter keep paths).
Proof.
  induction 1 as [|p paths Hp _ IH]; simpl; [constructor|].
  destruct (keep p); [|exact IH].
  constructor; [|exact IH]. intros H. apply Hp.
  apply list_elem_of_In. apply list_elem_of_In in H. now apply filter_In in H.
Qed.

(** X17.  On a tree whose insertion order lists its paths, [children_of]
    does not throw; it returns, in insertion order and once each, exactly
    the stored paths that are children of the path, each with the geometry
    stored for it, and [num_children_of] is their number. *)
Theorem children_of_lists_children (this : RenderTree.t) (path : Path.t) :
  RenderTree.consistent this ->
  exists children,
    RenderTree.children_of this path = Ok children /\
    map fst children =
      List.filter (fun our_path => Path.is_child_of our_path path)
                  (RenderTree.m_insertion_order this) /\
    RenderTree.num_children_of this path = length children /\
    NoDup (map fst children) /\
    Forall (fun child => RenderTree.get this (fst child) = Some (snd child)) children /\
    (forall q : Path.t,
       In q (map fst children) <->
       Path.is_child_of q path = true /\ RenderTree.get this q <> None).
Proof.
  intros Hcons.
  destruct (children_of_ok this path Hcons) as [children [Hok _]].
  exists children. split; [exact Hok|].
  unfold RenderTree.children_of in Hok.
  destruct (mapM_at_entries _ _ _ Hok) as [Hpaths Hget].
  split; [exact Hpaths|]. split.
  { unfold RenderTree.num_children_of. rewrite <- Hpaths. now rewrite length_map. }
  split.
  { rewrite Hpaths. apply NoDup_list_filter_paths. apply Hcons. }
  split.
  { eapply List.Forall_impl; [|exact Hget]. intros child H. now rewrite get_find. }
  intros q. rewrite Hpaths, filter_In. split.
  - intros [Hin Hchild]. split; [exact Hchild|].
    intros Hnone. apply (proj2 Hcons) in Hin.
    now apply sorted_get_None in Hnone.
  - intros [Hchild Hsome]. split; [|exact Hchild].
    destruct (in_dec Path.eq_dec q (RenderTree.m_insertion_order this)) as [H|H];
      [exact H|].
    now rewrite (get_None_not_stored this q Hcons H) in Hsome.
Qed.

Lemma children_of_lists_children_witness :
  let box := Geometry.make [Point.mk F32.one F32.one F32.one] [] Point.origin
               RGBA.default_color F32.zero F32.inf "" in
  let this :=
    RenderTree.update
      (RenderTree.update
         (RenderTree.update RenderTree.empty (Path.mk ["a"; "y"]) box)
         (Path.mk ["a"]) box)
      (Path.mk ["a"; "x"]) box in
  RenderTree.consistent this /\
  exists children,
    RenderTree.children_of this (Path.mk ["a"]) = Ok children /\
    map fst children = [Path.mk ["a"; "y"]; Path.mk ["a"; "x"]].
Proof.
  intros box this.
  assert (Hempty : RenderTree.consistent RenderTree.empty).
  { split; [constructor | intros path; simpl; tauto]. }
  assert (Hcons : RenderTree.consistent this).
  { apply update_consistent, update_consistent, update_consistent, Hempty. }
  split; [exact Hcons|].
  destruct (children_of_lists_children this (Path.mk ["a"]) Hcons)
    as (children & Hok & Hpaths & _).
  exists children. split; [exact Hok | exact Hpaths].
Defined.

(** ** The events of a transaction *)

Lemma differences_loop_keys (first : PathMap.t) :
  forall (last : PathMap.t) (path : Path.t) (tag : RenderDifferences),
  In (path, tag) (RenderTree.differences_loop first last) ->
  if bool_decide (tag = FirstMissing) then In path (PathMap.keys last)
  else In path (PathMap.keys first).
Proof.
  induction first as [|[first_path first_geometry] first IHfirst].
  { intros last path tag. rewrite differences_loop_nil_l. intros H.
    apply in_map_iff in H. destruct H as [entry [[= <- <-] H]].
    rewrite bool_decide_true by reflexivity. now apply (in_map fst) in H. }
  intros last.
  induction last as [|[last_path last_geometry] last IHlast]; intros path tag.
  { rewrite differences_loop_nil_r. intros H.
    apply in_map_iff in H. destruct H as [entry [[= <- <-] H]].
    rewrite bool_decide_false by discriminate. now apply (in_map fst) in H. }
  rewrite differences_loop_cons.
  destruct (Path.ltb first_path last_path) eqn:E1.
  - intros [[= <- <-]|H].
    + rewrite bool_decide_false by discriminate. now left.
    + apply IHfirst in H. destruct (bool_decide (tag = FirstMissing)); [exact H | now right].
  - destruct (Path.ltb last_path first_path) eqn:E2.
    + intros [[= <- <-]|H].
      * rewrite bool_decide_true by reflexivity. now left.
      * apply IHlast in H. destruct (bool_decide (tag = FirstMissing)); [now right | exact H].
    + intros H. apply in_app_or in H. destruct H as [H|H].
      * apply field_differences_path in H. destruct H as (-> & Htag & _).
        rewrite bool_decide_false by exact Htag. now left.
      * apply IHfirst in H. destruct (bool_decide (tag = FirstMissing)); now right.
Qed.

Lemma get_Some_of_key (this : RenderTree.t) (path : Path.t) :
  In path (PathMap.keys (RenderTree.m_rendered this)) ->
  exists geometry, RenderTree.get this path = Some geometry.
Proof.
  intros H. destruct (RenderTree.get this path) as [g|] eqn:E; [now exists g|].
  now apply sorted_get_None in E.
Qed.

Lemma construct_events_appends (m_old_render_tree new_render_tree : RenderTree.t)
    (differences : list (Path.t * RenderDifferences)) :
  Forall (fun path_and_difference : Path.t * RenderDifferences =>
            if bool_decide (snd path_and_difference = FirstMissing)
            then In (fst path_and_difference)
                    (PathMap.keys (RenderTree.m_rendered m_old_render_tree))
            else In (fst path_and_difference)
                    (PathMap.keys (RenderTree.m_rendered new_render_tree)))
         differences ->
  forall shared_event_server : EventServer.t,
  exists events,
    NodeTransaction.construct_events m_old_render_tree new_render_tree differences
      shared_event_server =
    Some (EventServer.mk (EventServer.m_events shared_event_server ++ events)
                         (EventServer.m_listener_pos shared_event_server)
                         (EventServer.m_token_counter shared_event_server)) /\
    map (fun event => (event_path event, event_type event)) events =
      map (fun path_and_difference : Path.t * RenderDifferences =>
             (fst path_and_difference,
              NodeTransaction.event_type_of (snd path_and_difference)))
          differences /\
    Forall (fun event =>
              RenderTree.get
                (match event_type event with
                 | Remove => m_old_render_tree
                 | _ => new_render_tree
                 end) (event_path event) = Some (event_geometry event))
           events.
Proof.
  induction 1 as [|[path tag] differences Hkey _ IH]; intros server.
  - exists []. simpl. rewrite app_nil_r. destruct server. repeat split. constructor.
  - cbn [fst snd] in Hkey.
    assert (Hevent : exists geometry,
      NodeTransaction.event_of_difference m_old_render_tree new_render_tree (path, tag) =
        Some (mkEvent path geometry (NodeTransaction.event_type_of tag)) /\
      RenderTree.get (match NodeTransaction.event_type_of tag with
                      | Remove => m_old_render_tree
                      | _ => new_render_tree
                      end) path = Some geometry).
    { destruct tag;
        [rewrite bool_decide_true in Hkey by reflexivity
        |rewrite bool_decide_false in Hkey by discriminate..];
        apply get_Some_of_key in Hkey; destruct Hkey as [g Hg]; exists g;
        simpl; rewrite Hg; now split. }
    destruct Hevent as (geometry & Hevent & Hget).
    destruct (IH (EventServer.add_event server
                    (mkEvent path geometry (NodeTransaction.event_type_of tag))))
      as (events & Hok & Htypes & Hgets).
    exists (mkEvent path geometry (NodeTransaction.event_type_of tag) :: events).
    cbn [NodeTransaction.construct_events]. rewrite Hevent. cbn [mbind option_bind].
    rewrite Hok. unfold EventServer.add_event. cbn [EventServer.m_events
      EventServer.m_listener_pos EventServer.m_token_counter].
    rewrite <- app_assoc. split; [reflexivity|]. split.
    + cbn [map fst snd event_path event_type]. now rewrite Htypes.
    + constructor; [exact Hget | exact Hgets].
Qed.

(** X18.  Turning the differences of a transaction into events never
    dereferences an empty optional.  With the event server alive it
    succeeds and appends one event per reported difference, in the order
    of the report, with the path of the difference and the matching type;
    a remove event carries the geometry of the old tree and every other
    event that of the new tree; the listeners are left alone.  With the
    event server gone it fails without an event. *)
Theorem transaction_events_follow_differences
    (m_old_render_tree new_render_tree : RenderTree.t)
    (shared_event_server : EventServer.t) :
  let differences :=
    RenderTree.differences_from new_render_tree m_old_render_tree in
  (exists events,
     NodeTransaction.try_update_events_based_on_render_tree_differences
       m_old_render_tree new_render_tree (Some shared_event_server) =
     Some (true,
           Some (EventServer.mk (EventServer.m_events shared_event_server ++ events)
                                (EventServer.m_listener_pos shared_event_server)
                                (EventServer.m_token_counter shared_event_server))) /\
     map (fun event => (event_path event, event_type event)) events =
       map (fun path_and_difference : Path.t * RenderDifferences =>
              (fst path_and_difference,
               NodeTransaction.event_type_of (snd path_and_difference)))
           differences /\
     Forall (fun event =>
               RenderTree.get
                 (match event_type event with
                  | Remove => m_old_render_tree
                  | _ => new_render_tree
                  end) (event_path event) = Some (event_geometry event))
            events) /\
  NodeTransaction.try_update_events_based_on_render_tree_differences
    m_old_render_tree new_render_tree None = Some (false, None).
Proof.
  intros differences. split; [|reflexivity].
  unfold NodeTransaction.try_update_events_based_on_render_tree_differences.
  fold differences.
  assert (Hkeys : Forall (fun path_and_difference : Path.t * RenderDifferences =>
            if bool_decide (snd path_and_difference = FirstMissing)
            then In (fst path_and_difference)
                    (PathMap.keys (RenderTree.m_rendered m_old_render_tree))
            else In (fst path_and_difference)
                    (PathMap.keys (RenderTree.m_rendered new_render_tree)))
         differences).
  { apply List.Forall_forall. intros [path tag] H. cbn [fst snd].
    now apply differences_loop_keys in H. }
  destruct (construct_events_appends m_old_render_tree new_render_tree differences
              Hkeys shared_event_server) as (events & Hok & Htypes & Hgets).
  exists events. rewrite Hok. repeat split; assumption.
Qed.

Lemma event_type_of_inj (difference difference' : RenderDifferences) :
  NodeTransaction.event_type_of difference = NodeTransaction.event_type_of difference' ->
  difference = difference'.
Proof. destruct difference, difference'; simpl; congruence. Qed.

Lemma in_events_of_type (events : list Event)
    (differences : list (Path.t * RenderDifferences)) (path : Path.t)
    (difference : RenderDifferences) :
  map (fun event => (event_path event, event_type event)) events =
    map (fun path_and_difference : Path.t * RenderDifferences =>
           (fst path_and_difference,
            NodeTransaction.event_type_of (snd path_and_difference)))
        differences ->
  (exists geometry,
     In (mkEvent path geometry (NodeTransaction.event_type_of difference)) events) <->
  In (path, difference) differences.
Proof.
  intros Hmap. split.
  - intros [geometry H].
    apply (in_map (fun event => (event_path event, event_type event))) in H.
    rewrite Hmap in H. cbn [event_path event_type] in H.
    apply in_map_iff in H. destruct H as [[p d] [[= -> Hd] H]].
    cbn [snd] in Hd. apply event_type_of_inj in Hd. now subst.
  - intros H.
    apply (in_map (fun path_and_difference : Path.t * RenderDifferences =>
                     (fst path_and_difference,
                      NodeTransaction.event_type_of (snd path_and_difference)))) in H.
    rewrite <- Hmap in H. cbn [fst snd] in H.
    apply in_map_iff in H. destruct H as [[p g t] [[= -> ->] H]].
    now exists g.
Qed.

(** X19.  A transaction between two trees built by the operations of the
    render tree adds, for a path, an add event exactly when the path is new
    in the rendered tree and a remove event exactly when the path is gone
    from it. *)
Theorem transaction_add_and_remove_events (old_ops new_ops : list RenderTree.operation)
    (m_old_render_tree new_render_tree : RenderTree.t)
    (shared_event_server : EventServer.t) (path : Path.t) :
  RenderTree.run RenderTree.empty old_ops = Ok m_old_render_tree ->
  RenderTree.run RenderTree.empty new_ops = Ok new_render_tree ->
  exists events,
    NodeTransaction.try_update_events_based_on_render_tree_differences
      m_old_render_tree new_render_tree (Some shared_event_server) =
    Some (true,
          Some (EventServer.mk (EventServer.m_events shared_event_server ++ events)
                               (EventServer.m_listener_pos shared_event_server)
                               (EventServer.m_token_counter shared_event_server))) /\
    ((exists geometry, In (mkEvent path geometry Add) events) <->
     RenderTree.get m_old_render_tree path = None /\
     RenderTree.get new_render_tree path <> None) /\
    ((exists geometry, In (mkEvent path geometry Remove) events) <->
     RenderTree.get m_old_render_tree path <> None /\
     RenderTree.get new_render_tree path = None).
Proof.
  intros Hold Hnew. apply run_sorted in Hold, Hnew.
  unfold NodeTransaction.try_update_events_based_on_render_tree_differences.
  set (differences := RenderTree.differences_from new_render_tree m_old_render_tree).
  assert (Hkeys : Forall (fun path_and_difference : Path.t * RenderDifferences =>
            if bool_decide (snd path_and_difference = FirstMissing)
            then In (fst path_and_difference)
                    (PathMap.keys (RenderTree.m_rendered m_old_render_tree))
            else In (fst path_and_difference)
                    (PathMap.keys (RenderTree.m_rendered new_render_tree)))
         differences).
  { apply List.Forall_forall. intros [p tag] H. cbn [fst snd].
    now apply differences_loop_keys in H. }
  destruct (construct_events_appends m_old_render_tree new_render_tree differences
              Hkeys shared_event_server) as (events & Hok & Htypes & _).
  exists events. rewrite Hok. split; [reflexivity|].
  assert (Hin : forall q (this : RenderTree.t),
    In q (PathMap.keys (RenderTree.m_rendered this)) <-> RenderTree.get this q <> None).
  { intros q this. split.
    - intros H Hnone. now apply sorted_get_None in Hnone.
    - intros H.
      destruct (in_dec Path.eq_dec q (PathMap.keys (RenderTree.m_rendered this)))
        as [Hq|Hq]; [exact Hq|]. now apply sorted_get_None in Hq. }
  split.
  - change Add with (NodeTransaction.event_type_of SecondMissing).
    rewrite (in_events_of_type events differences path SecondMissing Htypes).
    subst differences. unfold RenderTree.differences_from.
    rewrite (differences_loop_second_missing _ _ Hnew Hold path).
    rewrite Hin, <- sorted_get_None. tauto.
  - change Remove with (NodeTransaction.event_type_of FirstMissing).
    rewrite (in_events_of_type events differences path FirstMissing Htypes).
    subst differences. unfold RenderTree.differences_from.
    rewrite <- paths_reported_In, differences_loop_missing_symmetric, paths_reported_In.
    rewrite (differences_loop_second_missing _ _ Hold Hnew path).
    rewrite Hin, <- sorted_get_None. tauto.
Qed.

Lemma transaction_add_and_remove_events_witness :
  let box := Geometry.make [Point.mk F32.one F32.one F32.one] [] Point.origin
               RGBA.default_color F32.zero F32.inf "" in
  let old_ops := [RenderTree.OpUpdate (Path.mk ["a"]) box] in
  let new_ops :=
    [RenderTree.OpUpdate (Path.mk ["a"]) box; RenderTree.OpUpdate (Path.mk ["b"]) box] in
  exists m_old_render_tree new_render_tree events,
    RenderTree.run RenderTree.empty old_ops = Ok m_old_render_tree /\
    RenderTree.run RenderTree.empty new_ops = Ok new_render_tree /\
    NodeTransaction.try_update_events_based_on_render_tree_differences
      m_old_render_tree new_render_tree (Some EventServer.construct) =
    Some (true, Some (EventServer.mk events ∅ 0)) /\
    exists geometry, In (mkEvent (Path.mk ["b"]) geometry Add) events.
Proof.
  intros box old_ops new_ops.
  destruct (transaction_add_and_remove_events old_ops new_ops _ _ EventServer.construct
              (Path.mk ["b"]) eq_refl eq_refl) as (events & Hok & Hadd & _).
  eexists _, _, events. split; [reflexivity|]. split; [reflexivity|].
  split; [exact Hok|]. apply Hadd. split; [reflexivity | discriminate].
Defined.


(** ** What a listener receives *)

Lemma skip_filtered_spec (filter : EventFilter) (events : list Event) :
  forall index : nat,
  let next := EventServer.skip_filtered filter events index in
  (index <= next <= index + length events)%nat /\
  (forall k event, (k < next - index)%nat -> events !! k = Some event ->
                   EventServer.passes filter event = false) /\
  (forall event, events !! (next - index)%nat = Some event ->
                 EventServer.passes filter event = true).
Proof.
  induction events as [|event events IH]; intros index; simpl.
  - split; [lia|]. split.
    + intros k e _ He. now rewrite lookup_nil in He.
    + intros e He. now rewrite lookup_nil in He.
  - destruct filter; simpl.
    + rewrite Nat.sub_diag. split; [lia|]. split; [intros; lia | reflexivity].
    + destruct (Geometry.should_draw (event_geometry event)) eqn:E; simpl.
      * rewrite Nat.sub_diag. split; [lia|]. split; [intros; lia|].
        intros e [= <-]. exact E.
      * destruct (IH (S index)) as (Hrange & Hskipped & Hnext).
        set (next := EventServer.skip_filtered SkipNonDrawable events (S index)) in *.
        split; [lia|].
        replace (next - index)%nat with (S (next - S index)) by lia.
        split.
        -- intros [|k] e Hk; simpl.
           ++ intros [= <-]. exact E.
           ++ apply Hskipped. lia.
        -- intros e. simpl. apply Hnext.
Qed.

Lemma filter_skipped (filter : EventFilter) (events : list Event) (n : nat) :
  (forall k event, (k < n)%nat -> events !! k = Some event ->
                   EventServer.passes filter event = false) ->
  List.filter (EventServer.passes filter) events =
  List.filter (EventServer.passes filter) (drop n events).
Proof.
  revert events. induction n as [|n IH]; intros events H; [now rewrite drop_0|].
  destruct events as [|event events]; [reflexivity|].
  simpl. rewrite (H 0%nat event) by (try lia; reflexivity).
  apply IH. intros k e Hk He. apply (H (S k) e); [lia | exact He].
Qed.

(** The next event of a listener: its index is that of the first pending
    event, if one is pending. *)
Lemma index_of_next_event_pending (this : EventServer.t)
    (pos : EventServer.ListenerPosition) :
  let next := EventServer.index_of_next_event this pos in
  (EventServer.index pos <= next)%nat /\
  match EventServer.m_events this !! next with
  | Some event =>
    EventServer.passes (EventServer.filter pos) event = true /\
    EventServer.pending this pos =
      event :: EventServer.pending this
                 (EventServer.mkPos (EventServer.filter pos) (next + 1)%nat)
  | None =>
    EventServer.pending this pos = [] /\ (length (EventServer.m_events this) <= next)%nat
  end /\
  (forall k event, (EventServer.index pos <= k < next)%nat ->
                   EventServer.m_events this !! k = Some event ->
                   EventServer.passes (EventServer.filter pos) event = false).
Proof.
  intros next. subst next. unfold EventServer.index_of_next_event, EventServer.pending.
  destruct pos as [filter index]. cbn [EventServer.filter EventServer.index].
  destruct (skip_filtered_spec filter (drop index (EventServer.m_events this)) index)
    as (Hrange & Hskipped & Hnext).
  set (next := EventServer.skip_filtered filter
                 (drop index (EventServer.m_events this)) index) in *.
  cbv zeta in Hrange, Hskipped, Hnext.
  assert (Hlookup : forall k, (index <= k)%nat ->
            drop index (EventServer.m_events this) !! (k - index)%nat =
            EventServer.m_events this !! k).
  { intros k Hk. rewrite lookup_drop. f_equal. lia. }
  split; [lia|]. split.
  - rewrite (filter_skipped filter _ (next - index) Hskipped).
    rewrite drop_drop. replace (index + (next - index))%nat with next by lia.
    destruct (EventServer.m_events this !! next) as [event|] eqn:E.
    + pose proof (Hnext event) as Hpass. rewrite Hlookup in Hpass by lia.
      specialize (Hpass E). split; [exact Hpass|].
      rewrite (drop_S _ _ _ E). simpl. rewrite Hpass.
      now rewrite Nat.add_1_r.
    + apply lookup_ge_None in E. split; [|exact E].
      now rewrite drop_ge.
  - intros k event Hk He. apply (Hskipped (k - index)%nat event); [lia|].
    now rewrite Hlookup by lia.
Qed.

Lemma try_pop_event_pending (this : EventServer.t) (token : EventServer.ListenerToken)
    (pos : EventServer.ListenerPosition) :
  EventServer.m_listener_pos this !! token = Some pos ->
  (EventServer.pending this pos = [] /\
   EventServer.try_pop_event this token = Ok (None, this)) \/
  (exists (event : Event) (next : nat),
     let pos' := EventServer.mkPos (EventServer.filter pos) (next + 1)%nat in
     EventServer.pending this pos = event :: EventServer.pending this pos' /\
     EventServer.try_pop_event this token =
       Ok (Some event,
           EventServer.mk (EventServer.m_events this)
             (<[token := pos']> (EventServer.m_listener_pos this))
             (EventServer.m_token_counter this)) /\
     EventServer.next_index this token = Some next /\
     (EventServer.index pos <= next)%nat /\
     EventServer.m_events this !! next = Some event /\
     EventServer.passes (EventServer.filter pos) event = true /\
     forall k skipped, (EventServer.index pos <= k < next)%nat ->
       EventServer.m_events this !! k = Some skipped ->
       EventServer.passes (EventServer.filter pos) skipped = false).
Proof.
  intros Epos.
  unfold EventServer.try_pop_event, EventServer.event_available, EventServer.pop_event,
    EventServer.listener_at, EventServer.next_index.
  rewrite Epos. cbn [mbind result_bind].
  destruct (index_of_next_event_pending this pos) as (Hge & Hnext & Hskipped).
  set (next := EventServer.index_of_next_event this pos) in *.
  destruct (EventServer.m_events this !! next) as [event|] eqn:E.
  - destruct Hnext as [Hpass Hpending]. right. exists event, next.
    assert (Hlt : (next <? length (EventServer.m_events this))%nat = true).
    { apply Nat.ltb_lt. now apply lookup_lt_Some in E. }
    rewrite Hlt. cbn [negb mbind result_bind].
    repeat split; try assumption.
  - destruct Hnext as [Hpending Hlen]. left. split; [exact Hpending|].
    assert (Hlt : (next <? length (EventServer.m_events this))%nat = false).
    { apply Nat.ltb_ge. exact Hlen. }
    rewrite Hlt. reflexivity.
Qed.

(** X20.  A poll by a listener that is not registered throws
    [std::out_of_range].  A poll by a registered listener does not throw:
    it returns the first event at or after the position of the listener
    that passes its filter and moves the listener past it, or it returns
    nothing, and changes nothing, when no such event is stored.  The other
    listeners and the stored events are left alone. *)
Theorem try_pop_event_first_pending (this : EventServer.t)
    (token : EventServer.ListenerToken) :
  match EventServer.m_listener_pos this !! token with
  | None => EventServer.try_pop_event this token = Throw out_of_range
  | Some pos =>
    match EventServer.pending this pos with
    | [] => EventServer.try_pop_event this token = Ok (None, this)
    | event :: _ =>
      exists next : nat,
        EventServer.try_pop_event this token =
          Ok (Some event,
              EventServer.mk (EventServer.m_events this)
                (<[token := EventServer.mkPos (EventServer.filter pos) (next + 1)%nat]>
                   (EventServer.m_listener_pos this))
                (EventServer.m_token_counter this)) /\
        (EventServer.index pos <= next)%nat /\
        EventServer.m_events this !! next = Some event /\
        EventServer.passes (EventServer.filter pos) event = true /\
        forall k skipped, (EventServer.index pos <= k < next)%nat ->
          EventServer.m_events this !! k = Some skipped ->
          EventServer.passes (EventServer.filter pos) skipped = false
    end
  end.
Proof.
  destruct (EventServer.m_listener_pos this !! token) as [pos|] eqn:Epos.
  - destruct (try_pop_event_pending this token pos Epos)
      as [[-> Hpop]|(event & next & Hpending & Hpop & _ & Hrest)].
    + exact Hpop.
    + rewrite Hpending. exists next. split; [exact Hpop | exact Hrest].
  - unfold EventServer.try_pop_event, EventServer.event_available,
      EventServer.listener_at. now rewrite Epos.
Qed.

Lemma pending_events (this this' : EventServer.t) (pos : EventServer.ListenerPosition) :
  EventServer.m_events this' = EventServer.m_events this ->
  EventServer.pending this' pos = EventServer.pending this pos.
Proof. unfold EventServer.pending. now intros ->. Qed.

Lemma polls_deliver_pending (token : EventServer.ListenerToken) (n : nat) :
  forall (this : EventServer.t) (pos : EventServer.ListenerPosition),
  EventServer.m_listener_pos this !! token = Some pos ->
  let deliveries := fst (EventServer.run this (repeat (EventServer.OpTryPop token) n)) in
  let final := snd (EventServer.run this (repeat (EventServer.OpTryPop token) n)) in
  map snd deliveries = take n (EventServer.pending this pos) /\
  EventServer.m_events final = EventServer.m_events this /\
  exists pos',
    EventServer.m_listener_pos final !! token = Some pos' /\
    EventServer.pending final pos' = drop n (EventServer.pending this pos).
Proof.
  induction n as [|n IH]; intros this pos Hpos deliveries final.
  - subst deliveries final. simpl. split; [reflexivity|]. split; [reflexivity|].
    exists pos. split; [exact Hpos | now rewrite drop_0].
  - subst deliveries final. cbn [repeat]. rewrite run_cons. cbn [fst snd].
    cbn [EventServer.step].
    destruct (try_pop_event_pending this token pos Hpos)
      as [[Hnone Hpop]|(event & next & Hpending & Hpop & _)].
    + rewrite Hpop. cbn [fst snd app]. rewrite Hnone.
      destruct (IH this pos Hpos) as (H1 & H2 & pos' & H3 & H4).
      rewrite Hnone in H1, H4.
      split; [now rewrite H1, !take_nil|]. split; [exact H2|].
      exists pos'. split; [exact H3 | now rewrite H4, !drop_nil].
    + rewrite Hpop. cbn [fst snd app map].
      set (pos' := EventServer.mkPos (EventServer.filter pos) (next + 1)%nat) in *.
      set (this' := EventServer.mk (EventServer.m_events this)
                      (<[token := pos']> (EventServer.m_listener_pos this))
                      (EventServer.m_token_counter this)).
      assert (Hpos' : EventServer.m_listener_pos this' !! token = Some pos').
      { subst this'. cbn [EventServer.m_listener_pos]. apply lookup_insert_eq. }
      destruct (IH this' pos' Hpos') as (H1 & H2 & pos'' & H3 & H4).
      rewrite (pending_events this this' pos' eq_refl) in H1, H4.
      rewrite Hpending. cbn [take drop]. split; [now rewrite H1|].
      split; [exact H2|]. exists pos''. split; [exact H3 | exact H4].
Qed.

(** X21.  Polling delivers the pending events of a listener in order and
    without loss: [n] polls by a registered listener return the first [n]
    of the stored events at or after its position that pass its filter;
    they leave the stored events as they are and the listener with the
    rest of its pending events. *)
Theorem polls_deliver_pending_in_order (this : EventServer.t)
    (token : EventServer.ListenerToken) (pos : EventServer.ListenerPosition)
    (n : nat) :
  EventServer.m_listener_pos this !! token = Some pos ->
  let deliveries := fst (EventServer.run this (repeat (EventServer.OpTryPop token) n)) in
  let final := snd (EventServer.run this (repeat (EventServer.OpTryPop token) n)) in
  map snd deliveries = take n (EventServer.pending this pos) /\
  EventServer.m_events final = EventServer.m_events this /\
  exists pos',
    EventServer.m_listener_pos final !! token = Some pos' /\
    EventServer.pending final pos' = drop n (EventServer.pending this pos).
Proof. apply polls_deliver_pending. Qed.

Lemma polls_deliver_pending_in_order_witness :
  let hidden :=
    mkEvent (Path.mk ["a"]) (Geometry.empty Point.origin Bounds.zero) Add in
  let box :=
    mkEvent (Path.mk ["b"])
            (Geometry.make [Point.mk F32.one F32.one F32.one] [] Point.origin
                           RGBA.default_color F32.zero F32.inf "") Add in
  let this :=
    EventServer.add_event
      (EventServer.add_event
         (snd (EventServer.request_listener EventServer.construct SkipNonDrawable))
         hidden)
      box in
  EventServer.m_listener_pos this !! 0 = Some (EventServer.mkPos SkipNonDrawable 0%nat) /\
  map snd (fst (EventServer.run this (repeat (EventServer.OpTryPop 0) 2))) = [box].
Proof.
  intros hidden box this.
  assert (Hpos : EventServer.m_listener_pos this !! 0 =
                 Some (EventServer.mkPos SkipNonDrawable 0%nat)) by reflexivity.
  split; [exact Hpos|].
  exact (proj1 (polls_deliver_pending_in_order this 0 _ 2 Hpos)).
Defined.

(** ** The tokens of the listeners *)

(** X22.  The tokens of the listeners are fresh until the token counter
    wraps around.  That every token in use is below the token counter holds
    for a new event server and is kept by [release_listener], [add_event]
    and [try_pop_event], and by [request_listener] as long as the counter
    does not wrap around.  On a server where it holds, and while the counter
    does not wrap around, [request_listener] returns a token no listener
    holds, registers it at position 0 with the requested filter, so that
    all the stored events that pass the filter are pending for it, and
    leaves the other listeners and the events alone.  At the last value of
    the counter [request_listener] still returns a token no listener holds,
    but the counter wraps around to 0 and the tokens in use are no longer
    below it. *)
Theorem request_listener_fresh_token :
  EventServer.tokens_below_counter EventServer.construct /\
  forall this : EventServer.t,
    EventServer.tokens_below_counter this ->
    (forall filter : EventFilter,
       EventServer.m_token_counter this + 1 < UINT_MODULUS ->
       let token := fst (EventServer.request_listener this filter) in
       let this' := snd (EventServer.request_listener this filter) in
       EventServer.m_listener_pos this !! token = None /\
       EventServer.m_listener_pos this' !! token = Some (EventServer.mkPos filter 0%nat) /\
       (forall other, other <> token ->
          EventServer.m_listener_pos this' !! other =
          EventServer.m_listener_pos this !! other) /\
       EventServer.m_events this' = EventServer.m_events this /\
       EventServer.pending this' (EventServer.mkPos filter 0%nat) =
         List.filter (EventServer.passes filter) (EventServer.m_events this) /\
       EventServer.tokens_below_counter this') /\
    (forall filter : EventFilter,
       EventServer.m_token_counter this + 1 = UINT_MODULUS ->
       let token := fst (EventServer.request_listener this filter) in
       let this' := snd (EventServer.request_listener this filter) in
       token = UINT_MODULUS - 1 /\
       EventServer.m_listener_pos this !! token = None /\
       EventServer.m_listener_pos this' !! token = Some (EventServer.mkPos filter 0%nat) /\
       EventServer.m_token_counter this' = 0 /\
       ~ EventServer.tokens_below_counter this') /\
    (forall token, EventServer.tokens_below_counter (EventServer.release_listener this token)) /\
    (forall event, EventServer.tokens_below_counter (EventServer.add_event this event)) /\
    (forall token popped this',
       EventServer.try_pop_event this token = Ok (popped, this') ->
       EventServer.tokens_below_counter this').
Proof.
  split.
  { split; [unfold UINT_MODULUS; simpl; lia|]. intros token pos H.
    simpl in H. now rewrite lookup_empty in H. }
  intros this [Hcounter Htokens].
  assert (Hfresh : EventServer.m_listener_pos this !! EventServer.m_token_counter this
                   = None).
  { destruct (EventServer.m_listener_pos this !! EventServer.m_token_counter this)
      as [pos|] eqn:E; [|reflexivity].
    apply Htokens in E. lia. }
  split; [|split; [|split; [|split]]].
  - intros filter Hwrap token this'. subst token this'.
    unfold EventServer.request_listener. cbn [fst snd].
    rewrite Hfresh. cbn [EventServer.m_listener_pos EventServer.m_events
      EventServer.m_token_counter].
    split; [reflexivity|]. split; [apply lookup_insert_eq|].
    split; [intros other Hother; now apply lookup_insert_ne|].
    split; [reflexivity|]. split; [reflexivity|].
    unfold EventServer.tokens_below_counter.
    cbn [EventServer.m_listener_pos EventServer.m_token_counter].
    assert (Hnext : to_unsigned_int (EventServer.m_token_counter this + 1) =
                    EventServer.m_token_counter this + 1).
    { apply to_unsigned_int_exact. lia. }
    rewrite Hnext. split; [lia|]. intros token pos H.
    destruct (decide (token = EventServer.m_token_counter this)) as [->|Hne]; [lia|].
    rewrite lookup_insert_ne in H by congruence. apply Htokens in H. lia.
  - intros filter Hwrap token this'. subst token this'.
    unfold EventServer.request_listener. cbn [fst snd].
    rewrite Hfresh. cbn [EventServer.m_listener_pos EventServer.m_events
      EventServer.m_token_counter].
    assert (Hnext : to_unsigned_int (EventServer.m_token_counter this + 1) = 0).
    { rewrite Hwrap. reflexivity. }
    split; [lia|]. split; [reflexivity|]. split; [apply lookup_insert_eq|].
    split; [exact Hnext|].
    intros [_ Hbelow]. cbn [EventServer.m_listener_pos EventServer.m_token_counter]
      in Hbelow.
    specialize (Hbelow (EventServer.m_token_counter this)
                  (EventServer.mkPos filter 0%nat) (lookup_insert_eq _ _ _)).
    rewrite Hnext in Hbelow. lia.
  - intros token. unfold EventServer.release_listener.
    destruct (EventServer.m_listener_pos this !! token) eqn:E; [|now split].
    split; [exact Hcounter|]. cbn [EventServer.m_listener_pos EventServer.m_token_counter].
    intros other pos H. apply lookup_delete_Some in H. destruct H as [_ H].
    now apply Htokens in H.
  - intros event. now split.
  - intros token popped this' H.
    destruct (EventServer.m_listener_pos this !! token) as [pos|] eqn:Epos.
    + destruct (try_pop_event_pending this token pos Epos)
        as [[_ Hpop]|(event & next & _ & Hpop & _)];
        rewrite Hpop in H; injection H as <- <-; [now split|].
      split; [exact Hcounter|].
      cbn [EventServer.m_listener_pos EventServer.m_token_counter].
      intros other pos' H.
      destruct (decide (other = token)) as [->|Hne]; [now apply Htokens in Epos|].
      rewrite lookup_insert_ne in H by congruence. now apply Htokens in H.
    + unfold EventServer.try_pop_event, EventServer.event_available,
        EventServer.listener_at in H. rewrite Epos in H. discriminate.
Qed.

(** ** Values *)

(** X23.  [UnitInterval] clamps into the unit interval: the clamped value
    is neither below 0 nor above 1, a value that is neither is kept, and
    clamping twice is clamping once.  A NaN is kept as it is. *)
Theorem unit_interval_clamps (value : float) :
  F32.ltb (UnitInterval value) F32.zero = false /\
  F32.ltb F32.one (UnitInterval value) = false /\
  (F32.ltb value F32.zero = false -> F32.ltb F32.one value = false ->
   UnitInterval value = value) /\
  UnitInterval (UnitInterval value) = UnitInterval value /\
  (F32.isnan value = true -> UnitInterval value = value).
Proof.
  unfold UnitInterval.
  destruct (F32.ltb value F32.zero) eqn:E0.
  - split; [reflexivity|]. split; [reflexivity|]. split; [discriminate|].
    split; [reflexivity|]. intros H. destruct value; discriminate.
  - destruct (F32.ltb F32.one value) eqn:E1.
    + split; [reflexivity|]. split; [reflexivity|]. split; [discriminate|].
      split; [reflexivity|]. intros H. destruct value; discriminate.
    + rewrite E0, E1. repeat split; assumption || reflexivity.
Qed.

Lemma tolower_x (c : ascii) (lower : ascii) :
  (97 <= nat_of_ascii lower <= 122)%nat ->
  tolower c = lower <-> c = lower \/ c = ascii_of_nat (nat_of_ascii lower - 32).
Proof.
  intros Hlower. unfold tolower.
  pose proof (nat_ascii_bounded c) as Hc.
  destruct ((65 <=? nat_of_ascii c)%nat && (nat_of_ascii c <=? 90)%nat) eqn:E.
  - apply andb_true_iff in E. destruct E as [E1 E2].
    apply Nat.leb_le in E1, E2. split.
    + intros H. right. rewrite <- H. rewrite nat_ascii_embedding by lia.
      replace (nat_of_ascii c + 32 - 32)%nat with (nat_of_ascii c) by lia.
      now rewrite ascii_nat_embedding.
    + intros [->| ->]; [lia|].
      rewrite nat_ascii_embedding by lia.
      replace (nat_of_ascii lower - 32 + 32)%nat with (nat_of_ascii lower) by lia.
      now rewrite ascii_nat_embedding.
  - split; [now left|]. intros [H|H]; [exact H|]. subst c.
    rewrite nat_ascii_embedding in E by lia.
    apply andb_false_iff in E. destruct E as [E|E]; apply Nat.leb_gt in E; lia.
Qed.

Lemma string_tolower_single (s : string) (lower : ascii) :
  (97 <= nat_of_ascii lower <= 122)%nat ->
  string_tolower s = String lower "" <->
  s = String lower "" \/ s = String (ascii_of_nat (nat_of_ascii lower - 32)) "".
Proof.
  intros Hlower. destruct s as [|c [|c' s]]; simpl.
  - split; [discriminate | intros [H|H]; discriminate H].
  - split.
    + intros [= H]. apply (tolower_x c lower Hlower) in H.
      destruct H as [->| ->]; auto.
    + intros [[= ->]|[= ->]]; f_equal; apply (tolower_x _ lower Hlower); auto.
  - split; [discriminate | intros [H|H]; discriminate H].
Qed.

(** X24.  [string_to_axis] reads back what [axis_string] writes and
    ignores case: it accepts exactly the one-letter strings x, y and z in
    either case and throws [std::invalid_argument] for every other string;
    [string_to_alignment] likewise reads back what [alignment_string]
    writes, in any mix of cases. *)
Theorem string_to_axis_round_trip (axis : Axis) (align : Alignment) (string : string) :
  string_to_axis (axis_string axis) = Ok axis /\
  (string_to_axis string = Ok axis <->
   string = axis_string axis \/
   string = match axis with X => "X" | Y => "Y" | Z_ => "Z" end) /\
  (string_to_axis string = Throw (invalid_argument "Axis given is not X, y, nor z!") \/
   exists axis', string_to_axis string = Ok axis') /\
  string_to_alignment (alignment_string align) = Ok align /\
  (string_to_alignment string = Ok align <->
   string_tolower string = alignment_string align).
Proof.
  split; [now destruct axis|]. split.
  { unfold string_to_axis.
    pose proof (string_tolower_single string "x"%char
                  ltac:(split; apply Nat.leb_le; reflexivity)) as Hx.
    pose proof (string_tolower_single string "y"%char
                  ltac:(split; apply Nat.leb_le; reflexivity)) as Hy.
    pose proof (string_tolower_single string "z"%char
                  ltac:(split; apply Nat.leb_le; reflexivity)) as Hz.
    change (ascii_of_nat (nat_of_ascii "x" - 32)) with "X"%char in Hx.
    change (ascii_of_nat (nat_of_ascii "y" - 32)) with "Y"%char in Hy.
    change (ascii_of_nat (nat_of_ascii "z" - 32)) with "Z"%char in Hz.
    destruct (String.eqb_spec (string_tolower string) "x") as [Ex|Ex].
    { apply Hx in Ex. destruct axis; simpl; split; intros H; try discriminate H;
        try tauto; destruct Ex as [->| ->]; destruct H as [H|H]; discriminate H. }
    destruct (String.eqb_spec (string_tolower string) "y") as [Ey|Ey].
    { apply Hy in Ey. destruct axis; simpl; split; intros H; try discriminate H;
        try tauto; destruct Ey as [->| ->]; destruct H as [H|H]; discriminate H. }
    destruct (String.eqb_spec (string_tolower string) "z") as [Ez|Ez].
    { apply Hz in Ez. destruct axis; simpl; split; intros H; try discriminate H;
        try tauto; destruct Ez as [->| ->]; destruct H as [H|H]; discriminate H. }
    split; [discriminate|].
    destruct axis; simpl; intros H; exfalso;
      [apply Ex, Hx | apply Ey, Hy | apply Ez, Hz]; exact H. }
  split.
  { unfold string_to_axis.
    destruct (String.eqb _ "x"); [right; now exists X|].
    destruct (String.eqb _ "y"); [right; now exists Y|].
    destruct (String.eqb _ "z"); [right; now exists Z_|]. now left. }
  split; [now destruct align|].
  unfold string_to_alignment.
  destruct (String.eqb_spec (string_tolower string) "left") as [->|E1].
  { destruct align; simpl; split; congruence. }
  destruct (String.eqb_spec (string_tolower string) "center") as [->|E2].
  { destruct align; simpl; split; congruence. }
  destruct (String.eqb_spec (string_tolower string) "right") as [->|E3].
  { destruct align; simpl; split; congruence. }
  destruct align; simpl; split; congruence.
Qed.

(** ** Ancestor values *)

Lemma get_float_insert_or_assign (this : AncestorValues.t) (value : FloatValue) :
  Forall (fun entry : string * AnyValue =>
            fst entry <> m_value_name value ->
            match snd entry with
            | AFloatValue other =>
              m_value_name other <> m_value_name value /\
              m_abbreviation other <> m_value_name value
            | _ => True
            end) this ->
  AncestorValues.get_float
    (AncestorValues.insert_or_assign this (m_value_name value) (AFloatValue value))
    (m_value_name value) = Ok (m_value value).
Proof.
  induction 1 as [|[key variant] this Hentry _ IH]; simpl.
  - now rewrite String.eqb_refl.
  - destruct (string_lt (m_value_name value) key) eqn:E1.
    + simpl. now rewrite String.eqb_refl.
    + destruct (string_lt key (m_value_name value)) eqn:E2.
      * assert (Hne : key <> m_value_name value).
        { intros ->. now rewrite string_lt_irrefl in E2. }
        specialize (Hentry Hne). cbn [snd] in Hentry. cbn [AncestorValues.get_float].
        destruct variant as [other| | | | | | | |]; try exact IH.
        destruct Hentry as [H1 H2].
        apply String.eqb_neq in H1, H2. now rewrite H1, H2.
      * simpl. now rewrite String.eqb_refl.
Qed.

(** X25.  A float stored in the ancestor values is the float read back
    under its name, provided no float stored under another name answers to
    that name by its own name or abbreviation; a defaulted value is refused
    by an assertion, and a name no stored float answers to throws
    [std::runtime_error]. *)
Theorem ancestor_values_update_get_float (this : AncestorValues.t) (value : FloatValue) :
  (m_defaulted value = false ->
   Forall (fun entry : string * AnyValue =>
             fst entry <> m_value_name value ->
             match snd entry with
             | AFloatValue other =>
               m_value_name other <> m_value_name value /\
               m_abbreviation other <> m_value_name value
             | _ => True
             end) this ->
   exists updated,
     AncestorValues.update this value = Ok updated /\
     AncestorValues.get_float updated (m_value_name value) = Ok (m_value value)) /\
  (m_defaulted value = true ->
   AncestorValues.update this value = Throw assertion_failed) /\
  (forall name : string,
     Forall (fun entry : string * AnyValue =>
               match snd entry with
               | AFloatValue other =>
                 m_value_name other <> name /\ m_abbreviation other <> name
               | _ => True
               end) this ->
     exists what, AncestorValues.get_float this name = Throw (runtime_error what)).
Proof.
  split; [|split].
  - intros Hdefaulted Hentries. unfold AncestorValues.update. rewrite Hdefaulted.
    eexists. split; [reflexivity|]. now apply get_float_insert_or_assign.
  - intros Hdefaulted. unfold AncestorValues.update. now rewrite Hdefaulted.
  - intros name. induction 1 as [|[key variant] entries Hentry _ IH]; simpl.
    + eexists. reflexivity.
    + cbn [snd] in Hentry. destruct variant as [other| | | | | | | |]; try exact IH.
      destruct Hentry as [H1 H2]. apply String.eqb_neq in H1, H2.
      now rewrite H1, H2.
Qed.

(** ** Attribute strings of a relative float value *)

Lemma substring_middle (a b c : string) :
  String.substring (String.length a) (String.length b) (a +:+ (b +:+ c)) = b.
Proof.
  induction a as [|x a IH].
  - exact (substring_prefix b c).
  - exact IH.
Qed.

Lemma get_last_percent (s : string) :
  String.get (String.length s - 1) s = Some "%"%char <-> exists r, s = r +:+ "%".
Proof.
  induction s as [|c s IH].
  - simpl. split; [discriminate|]. intros [[|x r] H]; discriminate.
  - destruct s as [|d s].
    + simpl. split.
      * intros [= ->]. now exists ""%string.
      * intros [[|x [|y r]] H]; simpl in H; now inversion H.
    + replace (String.length (String c (String d s)) - 1)%nat
        with (S (String.length (String d s) - 1)) by (simpl; lia).
      cbn [String.get]. rewrite IH. split.
      * intros [r ->]. now exists (String c r).
      * intros [[|x r] H]; simpl in H; [discriminate|].
        inversion H. now exists r.
Qed.

(** The outcome of [update_from_attribute_value] once the number at the
    start of the string has been read: [num] is the part read as a number,
    [rel] the name that follows it and [pct] whether a percent sign ends the
    string. *)
Lemma update_from_attribute_value_parts (stof : string -> result (float * nat))
    (this : RelativeFloatValue.t) (num rel : string) (pct : bool) (multiplier : float) :
  let attribute_value := (num +:+ (rel +:+ (if pct then "%" else "")))%string in
  let first := default "000"%char (String.get 0 attribute_value) in
  (num +:+ rel)%string <> ""%string ->
  (pct = false -> forall r, attribute_value <> r +:+ "%") ->
  (if RelativeFloatValue.isdigit first || bool_decide (first = "+"%char) ||
      bool_decide (first = "-"%char)
   then stof attribute_value = Ok (multiplier, String.length num)
   else num = ""%string /\ multiplier = F32.one) ->
  RelativeFloatValue.update_from_attribute_value stof this attribute_value =
  Ok (if string_empty rel then
        if pct then
          RelativeFloatValue.mk
            (mkValue (RelativeFloatValue.name this) (RelativeFloatValue.abbreviation this)
                     (RelativeFloatValue.value this) false)
            multiplier true (RelativeFloatValue.m_relative_name this)
        else
          RelativeFloatValue.mk
            (mkValue (RelativeFloatValue.name this) (RelativeFloatValue.abbreviation this)
                     multiplier false)
            F32.one false (RelativeFloatValue.m_relative_name this)
      else
        RelativeFloatValue.mk
          (mkValue (RelativeFloatValue.name this) (RelativeFloatValue.abbreviation this)
                   (RelativeFloatValue.value this) false)
          multiplier pct (Some rel)).
Proof.
  intros attribute_value first Hnonempty Hpct Hparse.
  unfold RelativeFloatValue.update_from_attribute_value.
  fold first.
  assert (Hlen : String.length attribute_value =
                 (String.length num + String.length rel + (if pct then 1 else 0))%nat).
  { unfold attribute_value. rewrite !string_length_append. destruct pct; simpl; lia. }
  assert (Hpos : (0 < String.length num + String.length rel)%nat).
  { destruct num, rel; simpl; try lia. now contradiction Hnonempty. }
  destruct (string_empty attribute_value) eqn:Hempty.
  { destruct attribute_value; [simpl in Hlen; lia|discriminate]. }
  assert (Hlast : bool_decide (String.get (String.length attribute_value - 1)
                                 attribute_value = Some "%"%char) = pct).
  { destruct pct.
    - apply bool_decide_eq_true. apply get_last_percent.
      exists (num +:+ rel)%string. unfold attribute_value.
      clear. induction num as [|c num IH]; [reflexivity|].
      change (String c (num +:+ (rel +:+ "%")) = String c ((num +:+ rel) +:+ "%")).
      now rewrite IH.
    - apply bool_decide_eq_false. rewrite get_last_percent.
      intros [r Hr]. now apply (Hpct eq_refl r). }
  rewrite Hlast.
  assert (Hstep : (if pct
                   then if (String.length attribute_value =? 1)%nat
                        then Throw (runtime_error
                               ("Percentage given without amount: " +:+ attribute_value))
                        else Ok (true, 1%nat)
                   else Ok (false, 0%nat)) =
                  Ok (pct, if pct then 1%nat else 0%nat)).
  { destruct pct; [|reflexivity].
    destruct (Nat.eqb_spec (String.length attribute_value) 1); [lia|reflexivity]. }
  rewrite Hstep. cbn [mbind result_bind].
  assert (Hnext : (if RelativeFloatValue.isdigit first || bool_decide (first = "+"%char) ||
                      bool_decide (first = "-"%char)
                   then RelativeFloatValue.parse_multiplier stof attribute_value
                   else Ok (0%nat, F32.one)) = Ok (String.length num, multiplier)).
  { destruct (RelativeFloatValue.isdigit first || bool_decide (first = "+"%char) ||
              bool_decide (first = "-"%char)).
    - unfold RelativeFloatValue.parse_multiplier. now rewrite Hparse.
    - destruct Hparse as [-> ->]. reflexivity. }
  rewrite Hnext. cbn [mbind result_bind].
  destruct rel as [|c rel]; cbn [string_empty].
  - destruct (Nat.ltb_spec (String.length num + (if pct then 1 else 0))
                (String.length attribute_value)) as [Hlt|_];
      [simpl in Hlen; lia|].
    now destruct pct.
  - destruct (Nat.ltb_spec (String.length num + (if pct then 1 else 0))
                (String.length attribute_value)) as [_|Hge];
      [|simpl in Hlen; lia].
    unfold RelativeFloatValue.parse_relative_name, RelativeFloatValue.set_relative_name.
    replace (String.length attribute_value - String.length num -
             (if pct then 1 else 0))%nat with (String.length (String c rel)) by lia.
    unfold attribute_value. rewrite substring_middle. reflexivity.
Qed.

(** X26.  An attribute string that starts with neither a digit nor a sign
    is taken as the name of the value this one is relative to: the name is
    the string without a percent sign at its end, the multiplier is 1, the
    value is a percentage exactly when the string ends in a percent sign,
    the stored number is kept and the value is no longer defaulted.  The
    empty string changes nothing and the string of one percent sign throws
    [std::runtime_error]. *)
Theorem update_from_attribute_value_name (stof : string -> result (float * nat))
    (this : RelativeFloatValue.t) (rel : string) (pct : bool) (c : ascii) :
  String.get 0 rel = Some c ->
  RelativeFloatValue.isdigit c = false -> c <> "+"%char -> c <> "-"%char ->
  (pct = false -> forall r, rel <> r +:+ "%") ->
  RelativeFloatValue.update_from_attribute_value stof this
    (rel +:+ (if pct then "%" else "")) =
  Ok (RelativeFloatValue.mk
        (mkValue (RelativeFloatValue.name this) (RelativeFloatValue.abbreviation this)
                 (RelativeFloatValue.value this) false)
        F32.one pct (Some rel)) /\
  RelativeFloatValue.update_from_attribute_value stof this "" = Ok this /\
  RelativeFloatValue.update_from_attribute_value stof this "%" =
  Throw (runtime_error "Percentage given without amount: %").
Proof.
  intros Hfirst Hdigit Hplus Hminus Hpct. split; [|split; reflexivity].
  destruct rel as [|c' rel]; [discriminate|]. injection Hfirst as ->.
  pose proof (update_from_attribute_value_parts stof this "" (String c rel) pct F32.one)
    as Hparts.
  cbv zeta in Hparts. cbn [string_empty] in Hparts. apply Hparts.
  - discriminate.
  - intros -> r. replace (String c rel +:+ "")%string with (String c rel).
    + now apply Hpct.
    + clear. generalize (String c rel). intros s.
      induction s as [|x s IH]; [reflexivity|].
      change (String x s = String x (s +:+ "")). now rewrite <- IH.
  - change (default "000"%char (String.get 0 ("" +:+ (String c rel +:+ _)))) with c.
    rewrite Hdigit. rewrite !bool_decide_eq_false_2 by assumption. now split.
Qed.

Lemma update_from_attribute_value_name_witness :
  RelativeFloatValue.update_from_attribute_value (fun _ => Throw assertion_failed)
    (RelativeFloatValue.make "height" "h" F32.hundred true) "width%" =
  Ok (RelativeFloatValue.mk (mkValue "height" "h" F32.hundred false)
        F32.one true (Some "width"%string)).
Proof.
  refine (proj1 (update_from_attribute_value_name (fun _ => Throw assertion_failed)
                   (RelativeFloatValue.make "height" "h" F32.hundred true)
                   "width" true "w"%char _ _ _ _ _)).
  - reflexivity.
  - reflexivity.
  - discriminate.
  - discriminate.
  - discriminate.
Defined.

(** X27.  An attribute string that starts with a digit or a sign is read
    by [std::stof]; an exception of [std::stof] leaves the call.  When the
    number is the whole string it becomes the value, with the multiplier 1
    and no percentage, and an earlier relative name stays.  When only a
    percent sign follows the number, the number is the multiplier of a
    percentage and the relative name stays.  A rest after the number is the
    relative name, without the percent sign at the end, and the number is
    the multiplier. *)
Theorem update_from_attribute_value_number (stof : string -> result (float * nat))
    (this : RelativeFloatValue.t) (num rel : string) (pct : bool) (c : ascii)
    (multiplier : float) :
  let attribute_value := (num +:+ (rel +:+ (if pct then "%" else "")))%string in
  String.get 0 attribute_value = Some c ->
  RelativeFloatValue.isdigit c = true \/ c = "+"%char \/ c = "-"%char ->
  (num +:+ rel)%string <> ""%string ->
  (pct = false -> forall r, attribute_value <> r +:+ "%") ->
  (forall e, stof attribute_value = Throw e ->
     RelativeFloatValue.update_from_attribute_value stof this attribute_value = Throw e) /\
  (stof attribute_value = Ok (multiplier, String.length num) ->
   RelativeFloatValue.update_from_attribute_value stof this attribute_value =
   Ok (if string_empty rel then
         if pct then
           RelativeFloatValue.mk
             (mkValue (RelativeFloatValue.name this) (RelativeFloatValue.abbreviation this)
                      (RelativeFloatValue.value this) false)
             multiplier true (RelativeFloatValue.m_relative_name this)
         else
           RelativeFloatValue.mk
             (mkValue (RelativeFloatValue.name this) (RelativeFloatValue.abbreviation this)
                      multiplier false)
             F32.one false (RelativeFloatValue.m_relative_name this)
       else
         RelativeFloatValue.mk
           (mkValue (RelativeFloatValue.name this) (RelativeFloatValue.abbreviation this)
                    (RelativeFloatValue.value this) false)
           multiplier pct (Some rel))).
Proof.
  intros attribute_value Hfirst Hnumeric Hnonempty Hpct.
  assert (Hcond : RelativeFloatValue.isdigit c || bool_decide (c = "+"%char) ||
                  bool_decide (c = "-"%char) = true).
  { destruct Hnumeric as [->|[->| ->]]; [reflexivity|reflexivity|].
    apply orb_true_r. }
  split.
  - intros e Hthrow.
    unfold RelativeFloatValue.update_from_attribute_value.
    destruct (string_empty attribute_value) eqn:Hempty.
    { destruct attribute_value; discriminate. }
    rewrite Hfirst. cbn [default from_option id]. rewrite Hcond.
    unfold RelativeFloatValue.parse_multiplier. rewrite Hthrow.
    destruct (bool_decide (String.get (String.length attribute_value - 1)
                             attribute_value = Some "%"%char)) eqn:Hlast;
      [|reflexivity].
    destruct (Nat.eqb_spec (String.length attribute_value) 1) as [Hone|_];
      [|reflexivity].
    apply bool_decide_eq_true in Hlast. rewrite Hone in Hlast.
    change (1 - 1)%nat with 0%nat in Hlast. rewrite Hfirst in Hlast.
    injection Hlast as ->.
    now destruct Hnumeric as [H|[H|H]].
  - intros Hparse.
    apply (update_from_attribute_value_parts stof this num rel pct multiplier);
      [assumption|assumption|].
    fold attribute_value. rewrite Hfirst. cbn [default from_option id].
    now rewrite Hcond.
Qed.

Lemma update_from_attribute_value_number_witness :
  RelativeFloatValue.update_from_attribute_value (fun _ => Ok (F32.hundred, 3%nat))
    (RelativeFloatValue.make "height" "h" F32.one true) "100width" =
  Ok (RelativeFloatValue.mk (mkValue "height" "h" F32.one false)
        F32.hundred false (Some "width"%string)).
Proof.
  refine (proj2 (update_from_attribute_value_number (fun _ => Ok (F32.hundred, 3%nat))
                   (RelativeFloatValue.make "height" "h" F32.one true)
                   "100" "width" false "1"%char F32.hundred _ _ _ _) _).
  - reflexivity.
  - left. reflexivity.
  - discriminate.
  - intros _ r Hr.
    pose proof (proj2 (get_last_percent _) (ex_intro _ r Hr)) as Hlast.
    discriminate Hlast.
  - reflexivity.
Defined.

(** ** The scale factor: what it returns *)

Lemma min3_cases (a b c : float) :
  ScaleFeatureSet.min3 a b c = a \/ ScaleFeatureSet.min3 a b c = b \/
  ScaleFeatureSet.min3 a b c = c.
Proof.
  unfold ScaleFeatureSet.min3.
  destruct (F32.ltb b a); destruct (F32.ltb c _); auto.
Qed.

Lemma f32_isnormal_not_nan (a : float) :
  F32.isnormal a = true -> F32.isnan a = false /\ a <> F32.inf.
Proof. destruct a; simpl; try discriminate. intros _. split; [reflexivity|discriminate]. Qed.

Lemma f32_eqb_inf (a : float) : F32.eqb a F32.inf = false -> a <> F32.inf.
Proof. intros H ->. discriminate H. Qed.

(** X28.  The scale factor returned is never a NaN and never plus
    infinity, and with an axis attribute it is a normal number.  A NaN
    among the measured lengths fails the first assertion; with no length
    attribute the factor is 1; and an axis attribute that selects a length
    without attribute, while another length has one, fails an assertion. *)
Theorem compute_scale_factor_result (this : ScaleFeatureSet.t)
    (width height depth : float) :
  (F32.isnan width || F32.isnan height || F32.isnan depth = true ->
   ScaleFeatureSet.compute_scale_factor this width height depth =
   Throw assertion_failed) /\
  (F32.isnan width || F32.isnan height || F32.isnan depth = false ->
   ScaleFeatureSet.width_is_defaulted this &&
   ScaleFeatureSet.height_is_defaulted this &&
   ScaleFeatureSet.depth_is_defaulted this = true ->
   ScaleFeatureSet.compute_scale_factor this width height depth = Ok F32.one) /\
  (forall factor,
     ScaleFeatureSet.compute_scale_factor this width height depth = Ok factor ->
     F32.isnan factor = false /\ factor <> F32.inf /\
     (ScaleFeatureSet.axis_is_defaulted this = false -> F32.isnormal factor = true)) /\
  (ScaleFeatureSet.axis_is_defaulted this = false ->
   ScaleFeatureSet.width_is_defaulted this &&
   ScaleFeatureSet.height_is_defaulted this &&
   ScaleFeatureSet.depth_is_defaulted this = false ->
   match ScaleFeatureSet.axis this with
   | X => ScaleFeatureSet.width_is_defaulted this
   | Y => ScaleFeatureSet.height_is_defaulted this
   | Z_ => ScaleFeatureSet.depth_is_defaulted this
   end = true ->
   ScaleFeatureSet.compute_scale_factor this width height depth =
   Throw assertion_failed).
Proof.
  unfold ScaleFeatureSet.compute_scale_factor, ScaleFeatureSet.lengths.
  split; [|split; [|split]].
  - intros Hnan.
    destruct (F32.isnan width), (F32.isnan height), (F32.isnan depth);
      try discriminate; reflexivity.
  - intros Hnan Hall.
    destruct (F32.isnan width), (F32.isnan height), (F32.isnan depth);
      try discriminate.
    cbn [negb andb assert mbind result_bind]. now rewrite Hall.
  - intros factor.
    destruct (negb (F32.isnan width) && negb (F32.isnan height) &&
              negb (F32.isnan depth)); [|discriminate].
    cbn [assert mbind result_bind].
    destruct (ScaleFeatureSet.width_is_defaulted this &&
              ScaleFeatureSet.height_is_defaulted this &&
              ScaleFeatureSet.depth_is_defaulted this).
    { intros [= <-]. repeat split; discriminate. }
    match goal with
    | |- context [ScaleFeatureSet.min3 ?a ?b ?c] =>
      generalize a, b, c; intros width_factor height_factor depth_factor
    end.
    destruct (F32.isnan width_factor) eqn:Hw; [discriminate|].
    destruct (F32.isnan height_factor) eqn:Hh; [discriminate|].
    destruct (F32.isnan depth_factor) eqn:Hd; [discriminate|].
    cbn [negb andb assert mbind result_bind].
    destruct (ScaleFeatureSet.axis_is_defaulted this).
    + intros [= <-]. split; [|split; [|discriminate]].
      * destruct (F32.eqb _ F32.inf) eqn:Hinf; [reflexivity|].
        destruct (min3_cases width_factor height_factor depth_factor)
          as [->|[->| ->]]; assumption.
      * destruct (F32.eqb _ F32.inf) eqn:Hinf; [discriminate|].
        now apply f32_eqb_inf.
    + destruct (F32.isnormal _) eqn:Hnormal; [|discriminate].
      intros [= <-]. destruct (f32_isnormal_not_nan _ Hnormal). auto.
  - intros Haxis Hsome Hselected.
    destruct (negb (F32.isnan width) && negb (F32.isnan height) &&
              negb (F32.isnan depth)); [|reflexivity].
    cbn [assert mbind result_bind]. rewrite Hsome.
    destruct (negb _ && negb _ && negb _); [|reflexivity].
    cbn [assert mbind result_bind]. rewrite Haxis.
    destruct (ScaleFeatureSet.axis this); rewrite Hselected; reflexivity.
Qed.

(** ** The node tree: children and templates *)

(** X29.  That no two children of a node have one name, and that the
    insertion indexes recorded for its templates do not pass the end of its
    children, is kept by [add_child], [construct_child] and
    [construct_template].  On such a node [add_child] puts the new child at
    the index asked for or at the end, a child whose name is taken fails the
    assertion, [construct_child] with a new name succeeds, and the insertion
    index of a stored template is found and lies within the children. *)
Theorem node_children_distinct_and_indexes_in_range (this : Node)
    (render_tree : RenderTree.t) :
  NoDup (NodeOps.children_names this) ->
  NodeOps.indexes_in_range this ->
  (forall node maybe_insertion_index this' render_tree',
     NodeOps.add_child this render_tree node maybe_insertion_index =
       Ok (this', render_tree') ->
     NoDup (NodeOps.children_names this') /\
     NodeOps.indexes_in_range this' /\
     NodeOps.template_names this' = NodeOps.template_names this /\
     NodeOps.children_names this' =
       match maybe_insertion_index with
       | Some insertion_index =>
         take insertion_index (NodeOps.children_names this) ++
         NodeOps.get_name node :: drop insertion_index (NodeOps.children_names this)
       | None => NodeOps.children_names this ++ [NodeOps.get_name node]
       end) /\
  (forall node maybe_insertion_index,
     In (NodeOps.get_name node) (NodeOps.children_names this) ->
     NodeOps.add_child this render_tree node maybe_insertion_index =
       Throw assertion_failed) /\
  (forall element,
     ~ In (m_name element) (NodeOps.children_names this) ->
     exists this' render_tree',
       NodeOps.construct_child this render_tree element = Ok (this', render_tree') /\
       NodeOps.children_names this' = NodeOps.children_names this ++ [m_name element] /\
       NoDup (NodeOps.children_names this') /\
       NodeOps.indexes_in_range this') /\
  (forall element,
     NoDup (NodeOps.children_names (NodeOps.construct_template this element)) /\
     NodeOps.indexes_in_range (NodeOps.construct_template this element) /\
     NodeOps.template_names (NodeOps.construct_template this element) =
       NodeOps.template_names this ++ [m_name element]) /\
  (forall with_name,
     In with_name (NodeOps.template_names this) ->
     exists index,
       NodeOps.compute_child_insertion_index this with_name = Ok index /\
       (index <= length (NodeOps.m_children this))%nat).
Proof.
  intros Hnodup [Hlen Hrange].
  assert (Hadd : forall node maybe_insertion_index this' render_tree',
     NodeOps.add_child this render_tree node maybe_insertion_index =
       Ok (this', render_tree') ->
     NoDup (NodeOps.children_names this') /\
     NodeOps.indexes_in_range this' /\
     NodeOps.template_names this' = NodeOps.template_names this /\
     NodeOps.children_names this' =
       match maybe_insertion_index with
       | Some insertion_index =>
         take insertion_index (NodeOps.children_names this) ++
         NodeOps.get_name node :: drop insertion_index (NodeOps.children_names this)
       | None => NodeOps.children_names this ++ [NodeOps.get_name node]
       end).
  { intros node maybe_insertion_index this' render_tree' Hok.
    apply add_child_ok in Hok
      as (Hfresh & _ & _ & _ & Htemplates & Hchildren).
    unfold NodeOps.indexes_in_range, NodeOps.children_names, NodeOps.template_names in *.
    rewrite Htemplates.
    destruct maybe_insertion_index as [insertion_index|].
    - destruct Hchildren as (Hle & -> & ->).
      rewrite map_app. cbn [map]. rewrite <- firstn_map, <- skipn_map.
      split; [now apply NoDup_insert_fresh|]. split; [|split; reflexivity].
      split; [now rewrite length_map|].
      apply Forall_map. eapply Forall_impl; [exact Hrange|].
      intros index Hindex. cbn beta.
      rewrite length_app, length_take. cbn [length]. rewrite length_drop.
      cbn beta in Hindex.
      destruct (insertion_index <=? index)%nat; lia.
    - destruct Hchildren as (-> & ->).
      rewrite map_app. cbn [map].
      split.
      { apply NoDup_app. split; [exact Hnodup|]. split.
        - intros y Hy ->%list_elem_of_singleton.
          now apply Hfresh, list_elem_of_In.
        - apply NoDup_singleton. }
      split; [|split; reflexivity].
      split; [exact Hlen|].
      eapply Forall_impl; [exact Hrange|].
      intros index Hindex. cbn beta in *. rewrite length_app. lia. }
  split; [exact Hadd|]. split; [|split; [|split]].
  - intros node maybe_insertion_index Hin. unfold NodeOps.add_child.
    destruct (forallb _ (NodeOps.m_children this)) eqn:Hfresh; [|reflexivity].
    now apply forallb_names_fresh in Hfresh.
  - intros element Hfresh.
    assert (Hok : exists this' render_tree',
              NodeOps.construct_child this render_tree element =
                Ok (this', render_tree')).
    { unfold NodeOps.construct_child, NodeOps.add_child.
      change (NodeOps.get_name (NodeOps.construct element (Some (NodeOps.path this))))
        with (m_name element).
      apply forallb_names_fresh in Hfresh. rewrite Hfresh.
      cbn [assert mbind result_bind].
      rewrite bool_decide_eq_true_2 by reflexivity.
      cbn. eauto. }
    destruct Hok as (this' & render_tree' & Hok). exists this', render_tree'.
    split; [exact Hok|].
    apply Hadd in Hok as (Hnodup' & Hrange' & _ & Hnames). auto.
  - intros element.
    unfold NodeOps.construct_template, NodeOps.add_template, NodeOps.construct,
      NodeOps.indexes_in_range, NodeOps.children_names, NodeOps.template_names.
    cbn. split; [exact Hnodup|]. split; [|now rewrite map_app].
    split.
    + rewrite !length_app, Hlen. reflexivity.
    + apply Forall_app. split; [exact Hrange|]. now constructor.
  - intros with_name Hin.
    now apply insertion_index_loop_in_range.
Qed.

(** X30.  [try_make_template] throws [std::invalid_argument] when the node
    has no template of the name.  Otherwise, when no two children under a
    node of the template have one name, the clone of the template is its
    copy under the new name with this node as parent, and it is inserted
    among the children at the index recorded for the template, the indexes
    of the templates at or after it moving up by one and the render tree
    being emptied; a new name that a child already has fails the assertion
    of [add_child]. *)
Theorem try_make_template_inserts_copy (this : Node) (render_tree : RenderTree.t)
    (template_name new_name : string) :
  NodeOps.indexes_in_range this ->
  match NodeOps.try_get_template this template_name with
  | None =>
    NodeOps.try_make_template this render_tree template_name new_name =
    Throw (invalid_argument ("Could not find template with name " +:+ template_name))
  | Some template =>
    NodeOps.names_distinct template ->
    let copy := NodeOps.copy_of template new_name (Some (NodeOps.path this)) in
    exists index,
      NodeOps.compute_child_insertion_index this template_name = Ok index /\
      (index <= length (NodeOps.m_children this))%nat /\
      NodeOps.clone_into_parent template render_tree new_name
        (Some (NodeOps.path this)) = Ok (copy, RenderTree.empty) /\
      (In new_name (NodeOps.children_names this) ->
       NodeOps.try_make_template this render_tree template_name new_name =
       Throw assertion_failed) /\
      (~ In new_name (NodeOps.children_names this) ->
       NodeOps.try_make_template this render_tree template_name new_name =
       Ok (mkNode (NodeOps.m_parent this) (NodeOps.m_element this)
             (map (fun template_insertion_index =>
                     if (index <=? template_insertion_index)%nat
                     then (template_insertion_index + 1)%nat
                     else template_insertion_index)
                  (NodeOps.m_template_insertion_indexes this))
             (NodeOps.m_templates this)
             (take index (NodeOps.m_children this) ++
              copy :: drop index (NodeOps.m_children this)),
           RenderTree.empty))
  end.
Proof.
  exact (try_make_template_copy this render_tree template_name new_name).
Qed.

Lemma node_children_distinct_and_indexes_in_range_witness :
  exists index,
    NodeOps.compute_child_insertion_index
      (NodeOps.construct_template NodeOps.construct_root (mkElement "t" BoxElement))
      "t" = Ok index /\
    (index <= length (NodeOps.m_children
                 (NodeOps.construct_template NodeOps.construct_root
                    (mkElement "t" BoxElement))))%nat.
Proof.
  refine (proj2 (proj2 (proj2 (proj2
    (node_children_distinct_and_indexes_in_range
       (NodeOps.construct_template NodeOps.construct_root (mkElement "t" BoxElement))
       RenderTree.empty _ _)))) "t"%string _).
  - constructor.
  - split; [reflexivity|]. repeat constructor.
  - left. reflexivity.
Defined.

Lemma try_make_template_inserts_copy_witness :
  exists this',
    NodeOps.try_make_template
      (NodeOps.construct_template NodeOps.construct_root (mkElement "t" BoxElement))
      RenderTree.empty "t" "b" = Ok (this', RenderTree.empty) /\
    NodeOps.children_names this' = ["b"%string].
Proof.
  set (this := NodeOps.construct_template NodeOps.construct_root
                 (mkElement "t" BoxElement)).
  assert (Hrange : NodeOps.indexes_in_range this).
  { split; [reflexivity|]. repeat constructor. }
  pose proof (try_make_template_inserts_copy this RenderTree.empty "t" "b" Hrange)
    as Hmake.
  hnf in Hmake.
  destruct Hmake as (index & Hindex & _ & _ & _ & Hok).
  { repeat constructor. }
  vm_compute in Hindex. injection Hindex as <-.
  eexists. split.
  - apply Hok. intros Hused. exact Hused.
  - reflexivity.
Defined.
